(** * Building evacuation: pathfinding and fire simulation services

    A shallow embedding of [pathfinding.service.ts] and [building.service.ts]
    of the web prototype, and the properties of the search routines, of the
    replanning policy and of the fire model that follow from the code.

    Conventions of the embedding.
    - A JavaScript [number] holding a coordinate or an index is a [Z]; a
      [number] holding a cost, a heuristic, a random draw is a binary64
      [float] (the kernel's primitive floats, the same format).
    - [buildingMap : number[][][]] is a list of lists of lists of cells.
      Reading past the end of an array gives [undefined] ([None]); reading a
      property of [undefined] throws a [TypeError].
    - A [Set<string>] is the list of its keys in insertion order, a
      [Map<string, V>] the list of its entries in insertion order.
    - [while] loops run on fuel; a loop that uses its fuel up ends in
      [Abort OutOfFuel], which is not a result of the program.
    - [Math.random()] and [Date.now()] read an explicit [World]. *)

From Stdlib Require Import ZArith List Bool Lia String Ascii Floats.
From Stdlib Require Import DecimalString DecimalZ DecimalPos Permutation.
Import ListNotations.

Set Warnings "-inexact-float,-register-all".
Local Open Scope Z_scope.

(** [enum CellType] of pathfinding.service.ts *)
Inductive CellType : Type := WALKABLE | WALL | FIRE | STAIRS | EXIT.

(** ** The fragment of JavaScript the services use *)

Module JS.

(** What a call can end in besides a value. *)
Inductive Exn : Type :=
| TypeError                       (* property access on [undefined] *)
| InvalidPosition (px py pf : Z)  (* [new Error("Invalid position: ...")] *)
| NotWalkable (cellType : option CellType). (* [new Error("Position is not walkable ...")] *)

Inductive Halt : Type :=
| OutOfFuel    (* the fuel of a [while] loop ran out *)
| Unmodelled.  (* a write that would make a sparse array *)

Inductive result (A : Type) : Type :=
| Ok (a : A)
| Throw (e : Exn)
| Abort (h : Halt).
Arguments Ok {A} a.
Arguments Throw {A} e.
Arguments Abort {A} h.

Definition bind {A B} (r : result A) (k : A -> result B) : result B :=
  match r with
  | Ok a => k a
  | Throw e => Throw e
  | Abort h => Abort h
  end.

(** [arr[i]]: [undefined] outside [0 .. length-1]. *)
Definition index {A} (arr : list A) (i : Z) : option A :=
  if i <? 0 then None else nth_error arr (Z.to_nat i).

(** [arr.length] *)
Definition len {A} (arr : list A) : Z := Z.of_nat (List.length arr).

(** Reading a property of a value that may be [undefined]. *)
Definition deref {A} (v : option A) : result A :=
  match v with
  | Some a => Ok a
  | None => Throw TypeError
  end.

(** [arr.slice(start)] *)
Definition slice_from {A} (arr : list A) (start : Z) : list A :=
  if start <? 0
  then skipn (Z.to_nat (Z.max (len arr + start) 0)) arr
  else skipn (Z.to_nat start) arr.

(** [arr.slice(0, -1)] *)
Definition slice_init {A} (arr : list A) : list A := removelast arr.

(** [arr.slice(0, stop)] for [stop >= 0] *)
Definition slice_to {A} (arr : list A) (stop : Z) : list A :=
  firstn (Z.to_nat stop) arr.

(** [arr.slice(-n)]: the last [n] elements, the whole array when [n = 0]
    (since [-0] is [0]) or when [n] exceeds the length. *)
Definition slice_last {A} (arr : list A) (n : Z) : list A :=
  if n =? 0 then arr else skipn (Z.to_nat (Z.max (len arr - n) 0)) arr.

(** [Set<string>], in insertion order. *)
Definition KeySet := list string.

Definition has (s : KeySet) (k : string) : bool := existsb (String.eqb k) s.

Definition add (s : KeySet) (k : string) : KeySet :=
  if has s k then s else s ++ [k].

Definition delete (s : KeySet) (k : string) : KeySet :=
  filter (fun k' => negb (String.eqb k k')) s.

(** [Map<string, V>], in insertion order. *)
Definition KeyMap (V : Type) := list (string * V).

Fixpoint get {V} (m : KeyMap V) (k : string) : option V :=
  match m with
  | [] => None
  | (k', v) :: rest => if String.eqb k k' then Some v else get rest k
  end.

Fixpoint set {V} (m : KeyMap V) (k : string) (v : V) : KeyMap V :=
  match m with
  | [] => [(k, v)]
  | (k', v') :: rest =>
      if String.eqb k k' then (k', v) :: rest else (k', v') :: set rest k v
  end.

Definition mhas {V} (m : KeyMap V) (k : string) : bool :=
  match get m k with Some _ => true | None => false end.

(** The ambient sources of non-determinism: the values [Math.random()]
    returns, in order, and the values [Date.now()] returns, in order. *)
Record World : Type := mkWorld {
  randoms : nat -> float;
  randomsRead : nat;
  clock : nat -> Z;
  clockRead : nat
}.

Definition random (w : World) : float * World :=
  (randoms w (randomsRead w),
   mkWorld (randoms w) (S (randomsRead w)) (clock w) (clockRead w)).

Definition now (w : World) : Z * World :=
  (clock w (clockRead w),
   mkWorld (randoms w) (randomsRead w) (clock w) (S (clockRead w))).

(** [Math.floor] of a float, as an integer; [None] for NaN and the
    infinities. *)
Definition floor (f : float) : option Z :=
  match Prim2SF f with
  | S754_zero _ => Some 0
  | S754_finite s m e =>
      let q := if 0 <=? e then Z.shiftl (Zpos m) e
               else Z.shiftr (Zpos m) (- e) in
      let exact := if 0 <=? e then true
                   else (Zpos m) mod (2 ^ (- e)) =? 0 in
      Some (if s then (if exact then - q else - q - 1) else q)
  | _ => None
  end.

(** A [number] that holds the integer [z]: the nearest double, ties to
    even, an infinity past the largest one. *)
Definition toFloat (z : Z) : float :=
  SF2Prim (binary_normalize prec emax z 0 false).

(** [Math.max(a, b)] and [Math.min(a, b)]: NaN when an argument is NaN;
    of two zeros, the positive one is the greater. *)
Definition isNegZero (f : float) : bool :=
  match classify f with NZero => true | _ => false end.

Definition mathMax (a b : float) : float :=
  if is_nan a || is_nan b then nan
  else if (a <? b)%float then b
  else if (b <? a)%float then a
  else if isNegZero a then b else a.

Definition mathMin (a b : float) : float :=
  if is_nan a || is_nan b then nan
  else if (a <? b)%float then a
  else if (b <? a)%float then b
  else if isNegZero a then a else b.

(** [arr[Math.floor(r * arr.length)]] *)
Definition pick {A} (arr : list A) (r : float) : option A :=
  match floor (r * toFloat (len arr))%float with
  | Some i => index arr i
  | None => None
  end.

End JS.

Export JS.

Declare Scope js_scope.
Notation "x <- c1 ;; c2" := (JS.bind c1 (fun x => c2))
  (at level 61, c1 at next level, right associativity) : js_scope.
Notation "' pat <- c1 ;; c2" := (JS.bind c1 (fun x => match x with pat => c2 end))
  (at level 61, pat pattern, c1 at next level, right associativity) : js_scope.
Local Open Scope js_scope.

(** ** pathfinding.service.ts: data and search primitives *)

Module Pathfinding.

Record Position : Type := mkPosition { x : Z; y : Z; floor : Z }.

Definition BuildingMap := list (list (list CellType)).

(** [a === b] on cell types; [undefined] equals no cell type. *)
Definition cellType_eqb (a b : CellType) : bool :=
  match a, b with
  | WALKABLE, WALKABLE | WALL, WALL | FIRE, FIRE
  | STAIRS, STAIRS | EXIT, EXIT => true
  | _, _ => false
  end.

Definition cellIs (c : option CellType) (k : CellType) : bool :=
  match c with
  | Some c' => cellType_eqb c' k
  | None => false
  end.

(** [buildingMap[x][y][floor]] *)
Definition cellAt (buildingMap : BuildingMap) (x y floor : Z)
  : result (option CellType) :=
  column <- deref (index buildingMap x) ;;
  cells <- deref (index column y) ;;
  Ok (index cells floor).

(** [buildingMap[0].length] and [buildingMap[0][0].length] *)
Definition height (buildingMap : BuildingMap) : result Z :=
  column <- deref (index buildingMap 0) ;;
  Ok (len column).

Definition floors (buildingMap : BuildingMap) : result Z :=
  column <- deref (index buildingMap 0) ;;
  cells <- deref (index column 0) ;;
  Ok (len cells).

(** The integer [z] in a template string. *)
Definition showZ (z : Z) : string := NilZero.string_of_int (Z.to_int z).

Definition comma : ascii := ","%char.

Definition positionToKey (position : Position) : string :=
  (showZ (x position) ++ String comma (showZ (y position) ++
     String comma (showZ (floor position))))%string.

(** [key.split(',')] *)
Fixpoint split (sep : ascii) (s : string) : list string :=
  match s with
  | EmptyString => [EmptyString]
  | String c rest =>
      if Ascii.eqb c sep then EmptyString :: split sep rest
      else match split sep rest with
           | [] => [String c EmptyString]
           | part :: parts => String c part :: parts
           end
  end.

(** No comma in [s]. *)
Fixpoint noComma (s : string) : bool :=
  match s with
  | EmptyString => true
  | String c rest => negb (Ascii.eqb c comma) && noComma rest
  end.

(** [Number(s)] where [s] is a decimal integer; any other string is
    outside the model (its value is no integer coordinate). *)
Definition Number (s : string) : result Z :=
  match NilZero.int_of_string s with
  | Some d => Ok (Z.of_int d)
  | None => Abort Unmodelled
  end.

Definition keyToPosition (key : string) : result Position :=
  match split comma key with
  | sx :: sy :: sfloor :: _ =>
      px <- Number sx ;;
      py <- Number sy ;;
      pfloor <- Number sfloor ;;
      Ok (mkPosition px py pfloor)
  | _ => Abort Unmodelled
  end.

Definition positionsEqual (pos1 pos2 : Position) : bool :=
  (x pos1 =? x pos2) && (y pos1 =? y pos2) && (floor pos1 =? floor pos2).

(** Check if position is valid within map bounds.  The conjunction is
    evaluated left to right, so [buildingMap[0]] is read only when
    [buildingMap] has a first element. *)
Definition isValidMapPosition (x y floor : Z) (buildingMap : BuildingMap)
  : result bool :=
  if (x >=? 0) && (x <? len buildingMap) then
    h <- height buildingMap ;;
    if (y >=? 0) && (y <? h) then
      f <- floors buildingMap ;;
      Ok ((floor >=? 0) && (floor <? f))
    else Ok false
  else Ok false.

(** Check if position is valid and walkable *)
Definition isValidPosition (x y floor : Z) (buildingMap : BuildingMap)
  : result bool :=
  valid <- isValidMapPosition x y floor buildingMap ;;
  if negb valid then Ok false
  else
    cellType <- cellAt buildingMap x y floor ;;
    Ok (cellIs cellType WALKABLE || cellIs cellType STAIRS
        || cellIs cellType EXIT).

Definition directions : list (Z * Z) :=
  [(-1, -1); (-1, 0); (-1, 1);
   (0, -1);           (0, 1);
   (1, -1);  (1, 0);  (1, 1)].

(** The loop over [directions] of [getNeighbors]. *)
Fixpoint sameFloorNeighbors (dirs : list (Z * Z)) (px py pfloor : Z)
    (buildingMap : BuildingMap) (neighbors : list Position)
  : result (list Position) :=
  match dirs with
  | [] => Ok neighbors
  | (dx, dy) :: rest =>
      let newX := px + dx in
      let newY := py + dy in
      valid <- isValidPosition newX newY pfloor buildingMap ;;
      sameFloorNeighbors rest px py pfloor buildingMap
        (if valid then neighbors ++ [mkPosition newX newY pfloor]
         else neighbors)
  end.

(** The loop over [[floor - 1, floor + 1]] of [getNeighbors]. *)
Fixpoint stairsNeighbors (newFloors : list Z) (px py : Z)
    (buildingMap : BuildingMap) (neighbors : list Position)
  : result (list Position) :=
  match newFloors with
  | [] => Ok neighbors
  | newFloor :: rest =>
      take <-
        (if newFloor >=? 0 then
           f <- floors buildingMap ;;
           if newFloor <? f then
             cellType <- cellAt buildingMap px py newFloor ;;
             Ok (cellIs cellType STAIRS)
           else Ok false
         else Ok false) ;;
      stairsNeighbors rest px py buildingMap
        (if take then neighbors ++ [mkPosition px py newFloor]
         else neighbors)
  end.

(** Get valid neighboring positions *)
Definition getNeighbors (position : Position) (buildingMap : BuildingMap)
  : result (list Position) :=
  let px := x position in
  let py := y position in
  let pfloor := floor position in
  neighbors <- sameFloorNeighbors directions px py pfloor buildingMap [] ;;
  here <- cellAt buildingMap px py pfloor ;;
  if cellIs here STAIRS then
    stairsNeighbors [pfloor - 1; pfloor + 1] px py buildingMap neighbors
  else Ok neighbors.

(** *** Well-formed grids and the neighbour relation *)

(** The grid as the layout generator builds it: every column as long as
    the first, every stack of cells as long as the first. *)
Definition rectangular (buildingMap : BuildingMap) : Prop :=
  forall column, In column buildingMap ->
    List.length column = List.length (hd [] buildingMap) /\
    forall cells, In cells column ->
      List.length cells = List.length (hd [] (hd [] buildingMap)).

Definition widthOf (buildingMap : BuildingMap) : Z := len buildingMap.
Definition heightOf (buildingMap : BuildingMap) : Z :=
  len (hd [] buildingMap).
Definition floorsOf (buildingMap : BuildingMap) : Z :=
  len (hd [] (hd [] buildingMap)).

Definition inBounds (buildingMap : BuildingMap) (p : Position) : Prop :=
  0 <= x p < widthOf buildingMap /\
  0 <= y p < heightOf buildingMap /\
  0 <= floor p < floorsOf buildingMap.

Definition inBoundsb (buildingMap : BuildingMap) (px py pfloor : Z) : bool :=
  (0 <=? px) && (px <? widthOf buildingMap) &&
  (0 <=? py) && (py <? heightOf buildingMap) &&
  (0 <=? pfloor) && (pfloor <? floorsOf buildingMap).

(** The kind of the cell at [p], when there is one. *)
Definition kind (buildingMap : BuildingMap) (p : Position)
  : option CellType :=
  match index buildingMap (x p) with
  | Some column =>
      match index column (y p) with
      | Some cells => index cells (floor p)
      | None => None
      end
  | None => None
  end.

Definition traversable (c : option CellType) : Prop :=
  c = Some WALKABLE \/ c = Some STAIRS \/ c = Some EXIT.

Definition traversableb (c : option CellType) : bool :=
  cellIs c WALKABLE || cellIs c STAIRS || cellIs c EXIT.

(** The tests of the two loops of [getNeighbors], on a rectangular grid. *)
Definition stepTo (px py pfloor : Z) (d : Z * Z) : Position :=
  mkPosition (px + fst d) (py + snd d) pfloor.

Definition validStep (buildingMap : BuildingMap) (px py pfloor : Z)
    (d : Z * Z) : bool :=
  inBoundsb buildingMap (px + fst d) (py + snd d) pfloor
  && traversableb (kind buildingMap (stepTo px py pfloor d)).

Definition validFloor (buildingMap : BuildingMap) (px py : Z)
    (newFloor : Z) : bool :=
  (0 <=? newFloor) && (newFloor <? floorsOf buildingMap)
  && cellIs (kind buildingMap (mkPosition px py newFloor)) STAIRS.

(** One of the 8 moves on a floor. *)
Definition sameFloorMove (buildingMap : BuildingMap) (p q : Position)
  : Prop :=
  floor q = floor p /\
  -1 <= x q - x p <= 1 /\ -1 <= y q - y p <= 1 /\
  ~ (x q = x p /\ y q = y p) /\
  inBounds buildingMap q /\ traversable (kind buildingMap q).

(** One floor up or down a staircase. *)
Definition stairsMove (buildingMap : BuildingMap) (p q : Position) : Prop :=
  kind buildingMap p = Some STAIRS /\
  x q = x p /\ y q = y p /\
  (floor q = floor p - 1 \/ floor q = floor p + 1) /\
  inBounds buildingMap q /\ kind buildingMap q = Some STAIRS.

(** [q] is one legal move away from [p]. *)
Definition isNeighbor (buildingMap : BuildingMap) (p q : Position) : Prop :=
  exists neighbors,
    getNeighbors p buildingMap = Ok neighbors /\ In q neighbors.


(** Executable test of [rectangular]. *)
Definition rectangularb (buildingMap : BuildingMap) : bool :=
  forallb (fun column =>
    (List.length column =? List.length (hd [] buildingMap))%nat
    && forallb (fun cells : list CellType =>
         (List.length cells
          =? List.length (hd [] (hd [] buildingMap)))%nat) column)
    buildingMap.

(** *** Costs *)

(** Calculate heuristic distance (3D Euclidean).  The differences of the
    integer coordinates are exact; the squares, the sum and the root are
    binary64 operations. *)
Definition calculateHeuristic (pos1 pos2 : Position) : float :=
  let dx := toFloat (x pos2 - x pos1) in
  let dy := toFloat (y pos2 - y pos1) in
  let dz := (toFloat (floor pos2 - floor pos1) * 10)%float in
  sqrt (dx * dx + dy * dy + dz * dz)%float.

(** Calculate movement cost between adjacent positions *)
Definition getMovementCost (pos1 pos2 : Position) : float :=
  let dx := Z.abs (x pos2 - x pos1) in
  let dy := Z.abs (y pos2 - y pos1) in
  let dz := Z.abs (floor pos2 - floor pos1) in
  let cost := if dx + dy =? 2 then 1.414%float else 1.0%float in
  if dz >? 0 then (cost + 5.0)%float else cost.

(** *** Search nodes *)

Inductive PathNode : Type := mkPathNode {
  position : Position;
  parent : option PathNode;
  gCost : float;
  hCost : float;
  fCost : float
}.

(** Reconstruct path from A* result: [path.unshift] along the parents. *)
Fixpoint reconstructFrom (node : PathNode) (path : list Position)
  : list Position :=
  match node with
  | mkPathNode pos None _ _ _ => pos :: path
  | mkPathNode pos (Some up) _ _ _ => reconstructFrom up (pos :: path)
  end.

Definition reconstructPath (node : PathNode) : list Position :=
  reconstructFrom node [].

(** [openSet.sort((a, b) => a.fCost - b.fCost)]: the sort is stable, so a
    node goes behind the nodes already placed whose cost is not greater. *)
Fixpoint insertByFCost (node : PathNode) (sorted : list PathNode)
  : list PathNode :=
  match sorted with
  | [] => [node]
  | other :: rest =>
      if (0 <? fCost other - fCost node)%float
      then node :: other :: rest
      else other :: insertByFCost node rest
  end.

Definition sortByFCost (openSet : list PathNode) : list PathNode :=
  fold_left (fun sorted node => insertByFCost node sorted) openSet [].

(** [openSet.find(node => positionsEqual(node.position, pos))] *)
Definition findNode (openSet : list PathNode) (pos : Position)
  : option PathNode :=
  find (fun node => positionsEqual (position node) pos) openSet.

(** The assignments to the node [findNode] returned. *)
Fixpoint updateNode (openSet : list PathNode) (pos : Position)
    (newParent : PathNode) (g f : float) : list PathNode :=
  match openSet with
  | [] => []
  | node :: rest =>
      if positionsEqual (position node) pos
      then mkPathNode (position node) (Some newParent) g (hCost node) f
           :: rest
      else node :: updateNode rest pos newParent g f
  end.

(** The number of cells of the grid, which bounds every search. *)
Definition cellCount (buildingMap : BuildingMap) : nat :=
  Z.to_nat (widthOf buildingMap * heightOf buildingMap
            * floorsOf buildingMap).

(** *** A* and weighted A*

    [findPathAStar] and [findPathAStarWeighted] are the same text up to the
    expression of [fCost], here [combine gCost hCost]. *)
Section AStar.
Variable combine : float -> float -> float.
Variable goal : Position.
Variable buildingMap : BuildingMap.

(** The loop over the neighbors of the current node. *)
Fixpoint relaxNeighbors (currentNode : PathNode) (closedSet : KeySet)
    (neighbors : list Position) (openSet : list PathNode)
  : list PathNode :=
  match neighbors with
  | [] => openSet
  | neighborPos :: rest =>
      let neighborKey := positionToKey neighborPos in
      if has closedSet neighborKey then
        relaxNeighbors currentNode closedSet rest openSet
      else
        let g := (gCost currentNode
                  + getMovementCost (position currentNode) neighborPos)%float in
        let h := calculateHeuristic neighborPos goal in
        let f := combine g h in
        match findNode openSet neighborPos with
        | None =>
            relaxNeighbors currentNode closedSet rest
              (openSet ++ [mkPathNode neighborPos (Some currentNode) g h f])
        | Some existingNode =>
            if (g <? gCost existingNode)%float then
              relaxNeighbors currentNode closedSet rest
                (updateNode openSet neighborPos currentNode g f)
            else relaxNeighbors currentNode closedSet rest openSet
        end
  end.

(** [while (openSet.length > 0)] *)
Fixpoint astarLoop (fuel : nat) (openSet : list PathNode)
    (closedSet : KeySet) : result (option (list Position)) :=
  match fuel with
  | O => Abort OutOfFuel
  | S fuel' =>
      match sortByFCost openSet with
      | [] => Ok None
      | currentNode :: openSet' =>
          if positionsEqual (position currentNode) goal then
            Ok (Some (reconstructPath currentNode))
          else
            let closedSet' :=
              add closedSet (positionToKey (position currentNode)) in
            neighbors <- getNeighbors (position currentNode) buildingMap ;;
            astarLoop fuel'
              (relaxNeighbors currentNode closedSet' neighbors openSet')
              closedSet'
      end
  end.

Definition astarSearch (start : Position)
  : result (option (list Position)) :=
  let h := calculateHeuristic start goal in
  let startNode := mkPathNode start None 0 h (combine 0 h) in
  astarLoop (cellCount buildingMap + 2)%nat [startNode] [].
End AStar.

(** A* pathfinding algorithm implementation *)
Definition findPathAStar (start goal : Position) (buildingMap : BuildingMap)
  : result (option (list Position)) :=
  astarSearch (fun g h => g + h)%float goal buildingMap start.

(** Weighted A-star, the helper of the anytime search *)
Definition findPathAStarWeighted (start goal : Position)
    (buildingMap : BuildingMap) (weight : float)
  : result (option (list Position)) :=
  astarSearch (fun g h => g + h * weight)%float goal buildingMap start.

(** Jump Point Search, Theta* and Fringe Search are placeholders. *)
Definition findPathJPS := findPathAStar.
Definition findPathThetaStar := findPathAStar.
Definition findPathFringe := findPathAStar.

(** Greedy Best-First Search *)
Fixpoint greedyPush (goal : Position) (currentNode : PathNode)
    (closedSet : KeySet) (neighbors : list Position)
    (openSet : list PathNode) : list PathNode :=
  match neighbors with
  | [] => openSet
  | neighborPos :: rest =>
      if has closedSet (positionToKey neighborPos) then
        greedyPush goal currentNode closedSet rest openSet
      else
        let h := calculateHeuristic neighborPos goal in
        match findNode openSet neighborPos with
        | None =>
            greedyPush goal currentNode closedSet rest
              (openSet ++ [mkPathNode neighborPos (Some currentNode) 0 h h])
        | Some _ => greedyPush goal currentNode closedSet rest openSet
        end
  end.

Fixpoint greedyLoop (fuel : nat) (goal : Position)
    (buildingMap : BuildingMap) (openSet : list PathNode)
    (closedSet : KeySet) : result (option (list Position)) :=
  match fuel with
  | O => Abort OutOfFuel
  | S fuel' =>
      match sortByFCost openSet with
      | [] => Ok None
      | currentNode :: openSet' =>
          if positionsEqual (position currentNode) goal then
            Ok (Some (reconstructPath currentNode))
          else
            let closedSet' :=
              add closedSet (positionToKey (position currentNode)) in
            neighbors <- getNeighbors (position currentNode) buildingMap ;;
            greedyLoop fuel' goal buildingMap
              (greedyPush goal currentNode closedSet' neighbors openSet')
              closedSet'
      end
  end.

Definition findPathGreedyBestFirst (start goal : Position)
    (buildingMap : BuildingMap) : result (option (list Position)) :=
  let h := calculateHeuristic start goal in
  greedyLoop (cellCount buildingMap + 2)%nat goal buildingMap
    [mkPathNode start None 0 h h] [].


(** *** Breadth-first and depth-first search *)

(** The loop that pushes the neighbors not visited yet. *)
Fixpoint pushUnvisited (path : list Position) (visited : KeySet)
    (neighbors : list Position) (queue : list (Position * list Position))
  : list (Position * list Position) :=
  match neighbors with
  | [] => queue
  | neighbor :: rest =>
      pushUnvisited path visited rest
        (if negb (has visited (positionToKey neighbor))
         then queue ++ [(neighbor, path ++ [neighbor])]
         else queue)
  end.

Fixpoint bfsLoop (fuel : nat) (goal : Position) (buildingMap : BuildingMap)
    (queue : list (Position * list Position)) (visited : KeySet)
  : result (option (list Position)) :=
  match fuel with
  | O => Abort OutOfFuel
  | S fuel' =>
      match queue with
      | [] => Ok None
      | (pos, path) :: queue' =>
          if positionsEqual pos goal then Ok (Some path)
          else
            let key := positionToKey pos in
            if has visited key then
              bfsLoop fuel' goal buildingMap queue' visited
            else
              let visited' := add visited key in
              neighbors <- getNeighbors pos buildingMap ;;
              bfsLoop fuel' goal buildingMap
                (pushUnvisited path visited' neighbors queue') visited'
      end
  end.

(** Every entry of the queue is dequeued once, and every cell (and the
    start) is expanded once, pushing at most 10 entries. *)
Definition queueFuel (buildingMap : BuildingMap) : nat :=
  10 * (cellCount buildingMap + 1) + 2.

(** Breadth-First Search (BFS) *)
Definition findPathBFS (start goal : Position) (buildingMap : BuildingMap)
  : result (option (list Position)) :=
  bfsLoop (queueFuel buildingMap) goal buildingMap [(start, [start])] [].

(** The stack of [findPathDFS], top first: [stack.push] is a cons and
    [stack.pop()] takes the head. *)
Fixpoint pushUnvisitedStack (path : list Position) (visited : KeySet)
    (neighbors : list Position) (stack : list (Position * list Position))
  : list (Position * list Position) :=
  match neighbors with
  | [] => stack
  | neighbor :: rest =>
      pushUnvisitedStack path visited rest
        (if negb (has visited (positionToKey neighbor))
         then (neighbor, path ++ [neighbor]) :: stack
         else stack)
  end.

Fixpoint dfsLoop (fuel : nat) (goal : Position) (buildingMap : BuildingMap)
    (stack : list (Position * list Position)) (visited : KeySet)
  : result (option (list Position)) :=
  match fuel with
  | O => Abort OutOfFuel
  | S fuel' =>
      match stack with
      | [] => Ok None
      | (pos, path) :: stack' =>
          if positionsEqual pos goal then Ok (Some path)
          else
            let key := positionToKey pos in
            if has visited key then
              dfsLoop fuel' goal buildingMap stack' visited
            else
              let visited' := add visited key in
              neighbors <- getNeighbors pos buildingMap ;;
              dfsLoop fuel' goal buildingMap
                (pushUnvisitedStack path visited' neighbors stack') visited'
      end
  end.

(** Depth-First Search (DFS) *)
Definition findPathDFS (start goal : Position) (buildingMap : BuildingMap)
  : result (option (list Position)) :=
  dfsLoop (queueFuel buildingMap) goal buildingMap [(start, [start])] [].

(** *** Dijkstra *)

(** [for (let i = 0; i < n; i++)] *)
Definition range (n : Z) : list Z := map Z.of_nat (seq 0 (Z.to_nat n)).

Fixpoint foldM {A S : Type} (f : S -> A -> result S) (l : list A) (s : S)
  : result S :=
  match l with
  | [] => Ok s
  | a :: rest => s' <- f s a ;; foldM f rest s'
  end.

(** [d || Infinity] and [d || 0]: zero, NaN and [undefined] are falsy. *)
Definition orElse (d : option float) (dflt : float) : float :=
  match d with
  | Some v => if (v =? 0)%float || is_nan v then dflt else v
  | None => dflt
  end.

(** Initialize distances *)
Definition initDistances (buildingMap : BuildingMap)
  : result (KeyMap float * KeySet) :=
  foldM (fun acc px =>
    h <- height buildingMap ;;
    foldM (fun acc py =>
      f <- floors buildingMap ;;
      foldM (fun acc pfloor =>
        cellType <- cellAt buildingMap px py pfloor ;;
        if cellIs cellType WALKABLE || cellIs cellType STAIRS
           || cellIs cellType EXIT
        then
          let key := positionToKey (mkPosition px py pfloor) in
          Ok (set (fst acc) key infinity, add (snd acc) key)
        else Ok acc)
        (range f) acc)
      (range h) acc)
    (range (len buildingMap)) ([], []).

(** Find unvisited node with minimum distance *)
Fixpoint minUnvisited (distances : KeyMap float) (keys : list string)
    (currentKey : string) (minDistance : float) : string :=
  match keys with
  | [] => currentKey
  | key :: rest =>
      let distance := orElse (get distances key) infinity in
      if (distance <? minDistance)%float
      then minUnvisited distances rest key distance
      else minUnvisited distances rest currentKey minDistance
  end.

Fixpoint relaxDijkstra (currentKey : string) (currentPos : Position)
    (unvisited : KeySet) (neighbors : list Position)
    (distances : KeyMap float) (previous : KeyMap Position)
  : KeyMap float * KeyMap Position :=
  match neighbors with
  | [] => (distances, previous)
  | neighborPos :: rest =>
      let neighborKey := positionToKey neighborPos in
      if negb (has unvisited neighborKey) then
        relaxDijkstra currentKey currentPos unvisited rest distances previous
      else
        let altDistance :=
          (orElse (get distances currentKey) 0
           + getMovementCost currentPos neighborPos)%float in
        if (altDistance <? orElse (get distances neighborKey) infinity)%float
        then relaxDijkstra currentKey currentPos unvisited rest
               (set distances neighborKey altDistance)
               (set previous neighborKey currentPos)
        else relaxDijkstra currentKey currentPos unvisited rest
               distances previous
  end.

(** Reconstruct path from Dijkstra result *)
Fixpoint reconstructDijkstraLoop (fuel : nat) (start : Position)
    (previous : KeyMap Position) (current : Position)
    (path : list Position) : result (list Position) :=
  match fuel with
  | O => Abort OutOfFuel
  | S fuel' =>
      if positionsEqual current start then Ok (start :: path)
      else
        match get previous (positionToKey current) with
        | None => Ok (start :: current :: path)
        | Some prev =>
            reconstructDijkstraLoop fuel' start previous prev
              (current :: path)
        end
  end.

Definition reconstructPathDijkstra (start goal : Position)
    (previous : KeyMap Position) : result (list Position) :=
  reconstructDijkstraLoop (List.length previous + 2) start previous goal [].

Fixpoint dijkstraLoop (fuel : nat) (start goal : Position)
    (buildingMap : BuildingMap) (distances : KeyMap float)
    (previous : KeyMap Position) (unvisited : KeySet)
  : result (option (list Position)) :=
  match fuel with
  | O => Abort OutOfFuel
  | S fuel' =>
      match unvisited with
      | [] => Ok None
      | _ :: _ =>
          let currentKey :=
            minUnvisited distances unvisited EmptyString infinity in
          if String.eqb currentKey EmptyString then Ok None
          else
            currentPos <- keyToPosition currentKey ;;
            if positionsEqual currentPos goal then
              path <- reconstructPathDijkstra start goal previous ;;
              Ok (Some path)
            else
              let unvisited' := delete unvisited currentKey in
              neighbors <- getNeighbors currentPos buildingMap ;;
              let '(distances', previous') :=
                relaxDijkstra currentKey currentPos unvisited' neighbors
                  distances previous in
              dijkstraLoop fuel' start goal buildingMap distances'
                previous' unvisited'
      end
  end.

(** Dijkstra's algorithm implementation *)
Definition findPathDijkstra (start goal : Position)
    (buildingMap : BuildingMap) : result (option (list Position)) :=
  '(distances, unvisited) <- initDistances buildingMap ;;
  let distances := set distances (positionToKey start) 0%float in
  dijkstraLoop (List.length unvisited + 1) start goal buildingMap
    distances [] unvisited.


(** *** Bidirectional search *)

Definition Frontier : Type := list (Position * list Position).

(** What the expansion of one entry ends in. *)
Inductive Expansion : Type :=
| Met (path : list Position)
| Grown (visited : KeyMap (list Position)) (queue : Frontier).

(** Expand from start: [pathS] is the path of the entry taken from the
    queue, [pathG] the path [visitedGoal] holds for the key. *)
Fixpoint expandFromStart (pathS : list Position) (neighbors : list Position)
    (visitedStart : KeyMap (list Position)) (queueStart : Frontier)
    (visitedGoal : KeyMap (list Position)) : Expansion :=
  match neighbors with
  | [] => Grown visitedStart queueStart
  | neighbor :: rest =>
      let key := positionToKey neighbor in
      if negb (mhas visitedStart key) then
        let visitedStart' := set visitedStart key (pathS ++ [neighbor]) in
        let queueStart' := queueStart ++ [(neighbor, pathS ++ [neighbor])] in
        match get visitedGoal key with
        | Some pathG => Met (pathS ++ rev (slice_init pathG))
        | None =>
            expandFromStart pathS rest visitedStart' queueStart' visitedGoal
        end
      else expandFromStart pathS rest visitedStart queueStart visitedGoal
  end.

(** Expand from goal: [pathG] is the path of the entry taken from the
    queue, [pathS] the path [visitedStart] holds for the key. *)
Fixpoint expandFromGoal (pathG : list Position) (neighbors : list Position)
    (visitedGoal : KeyMap (list Position)) (queueGoal : Frontier)
    (visitedStart : KeyMap (list Position)) : Expansion :=
  match neighbors with
  | [] => Grown visitedGoal queueGoal
  | neighbor :: rest =>
      let key := positionToKey neighbor in
      if negb (mhas visitedGoal key) then
        let visitedGoal' := set visitedGoal key (pathG ++ [neighbor]) in
        let queueGoal' := queueGoal ++ [(neighbor, pathG ++ [neighbor])] in
        match get visitedStart key with
        | Some pathS => Met (pathS ++ rev (slice_init pathG))
        | None =>
            expandFromGoal pathG rest visitedGoal' queueGoal' visitedStart
        end
      else expandFromGoal pathG rest visitedGoal queueGoal visitedStart
  end.

Fixpoint bidirectionalLoop (fuel : nat) (buildingMap : BuildingMap)
    (queueStart queueGoal : Frontier)
    (visitedStart visitedGoal : KeyMap (list Position))
  : result (option (list Position)) :=
  match fuel with
  | O => Abort OutOfFuel
  | S fuel' =>
      match queueStart, queueGoal with
      | (posS, pathS) :: queueStart', (posG, pathG) :: queueGoal' =>
          neighborsS <- getNeighbors posS buildingMap ;;
          match expandFromStart pathS neighborsS visitedStart queueStart'
                  visitedGoal with
          | Met path => Ok (Some path)
          | Grown visitedStart' queueStart'' =>
              neighborsG <- getNeighbors posG buildingMap ;;
              match expandFromGoal pathG neighborsG visitedGoal queueGoal'
                      visitedStart' with
              | Met path => Ok (Some path)
              | Grown visitedGoal' queueGoal'' =>
                  bidirectionalLoop fuel' buildingMap queueStart''
                    queueGoal'' visitedStart' visitedGoal'
              end
          end
      | _, _ => Ok None
      end
  end.

(** Bidirectional Search - Runs search from both source and goal *)
Definition findPathBidirectional (start goal : Position)
    (buildingMap : BuildingMap) : result (option (list Position)) :=
  bidirectionalLoop (cellCount buildingMap + 2)%nat buildingMap
    [(start, [start])] [(goal, [goal])]
    [(positionToKey start, [start])] [(positionToKey goal, [goal])].

(** *** Searches that read the clock or draw random numbers *)

(** A computation that reads the world. *)
Definition Rand (A : Type) : Type := World -> result A * World.

Fixpoint anytimeLoop (fuel : nat) (start goal : Position)
    (buildingMap : BuildingMap) (timeLimitMs startTime : Z)
    (bestPath : option (list Position)) (epsilon : float)
  : Rand (option (list Position)) :=
  fun w =>
  match fuel with
  | O => (Abort OutOfFuel, w)
  | S fuel' =>
      let (t, w1) := now w in
      if t - startTime <? timeLimitMs then
        match findPathAStarWeighted start goal buildingMap epsilon with
        | Ok path =>
            let bestPath' :=
              match path with Some p => Some p | None => bestPath end in
            if (epsilon <=? 1.0)%float then (Ok bestPath', w1)
            else anytimeLoop fuel' start goal buildingMap timeLimitMs
                   startTime bestPath' (mathMax 1.0 (epsilon * 0.8))%float w1
        | Throw e => (Throw e, w1)
        | Abort h => (Abort h, w1)
        end
      else (Ok bestPath, w1)
  end.

(** Anytime A-star: the weight goes 2, 1.6, 1.28, 1.024, 1 and the loop
    leaves after the round of weight 1. *)
Definition findPathAnytimeAStar (start goal : Position)
    (buildingMap : BuildingMap) (timeLimitMs : Z)
  : Rand (option (list Position)) :=
  fun w =>
  let (startTime, w1) := now w in
  anytimeLoop 6 start goal buildingMap timeLimitMs startTime None 2.0%float
    w1.

(** [for (let i = 0; i < maxSteps; i++)] of [findPathRandomWalk]; [steps]
    is the number of rounds left. *)
Fixpoint randomWalkLoop (steps : nat) (goal : Position)
    (buildingMap : BuildingMap) (current : Position)
    (path : list Position) (visited : KeySet)
  : Rand (option (list Position)) :=
  fun w =>
  match steps with
  | O => (Ok None, w)
  | S steps' =>
      if positionsEqual current goal then (Ok (Some path), w)
      else
        match getNeighbors current buildingMap with
        | Ok all =>
            let neighbors :=
              filter (fun n => negb (has visited (positionToKey n))) all in
            if len neighbors =? 0 then (Ok None, w)
            else
              let (r, w1) := random w in
              match pick neighbors r with
              | Some next =>
                  randomWalkLoop steps' goal buildingMap next
                    (path ++ [next]) (add visited (positionToKey next)) w1
              | None => (Throw TypeError, w1)
              end
        | Throw e => (Throw e, w)
        | Abort h => (Abort h, w)
        end
  end.

(** Helper: Random Walk (for ACO, GA, Swarm) *)
Definition findPathRandomWalk (start goal : Position)
    (buildingMap : BuildingMap) (maxSteps : Z)
  : Rand (option (list Position)) :=
  randomWalkLoop (Z.to_nat maxSteps) goal buildingMap start [start]
    [positionToKey start].

(** [bestLength]: [None] is [Infinity]. *)
Definition shorterThan (path : list Position) (bestLength : option Z)
  : bool :=
  match bestLength with
  | None => true
  | Some l => len path <? l
  end.

(** The body of the two loops of [findPathACO], run [ants] times. *)
Fixpoint acoLoop (ants : nat) (start goal : Position)
    (buildingMap : BuildingMap) (bestPath : option (list Position))
    (bestLength : option Z) : Rand (option (list Position) * option Z) :=
  fun w =>
  match ants with
  | O => (Ok (bestPath, bestLength), w)
  | S ants' =>
      match findPathRandomWalk start goal buildingMap 100 w with
      | (Ok (Some path), w1) =>
          if shorterThan path bestLength
          then acoLoop ants' start goal buildingMap (Some path)
                 (Some (len path)) w1
          else acoLoop ants' start goal buildingMap bestPath bestLength w1
      | (Ok None, w1) =>
          acoLoop ants' start goal buildingMap bestPath bestLength w1
      | (Throw e, w1) => (Throw e, w1)
      | (Abort h, w1) => (Abort h, w1)
      end
  end.

(** Ant Colony Optimization (ACO) - Basic illustrative version.  The inner
    loop has no state of its own, so the two loops make
    [iterations * antCount] rounds. *)
Definition findPathACO (start goal : Position) (buildingMap : BuildingMap)
    (iterations antCount : Z) : Rand (option (list Position)) :=
  fun w =>
  match acoLoop (Z.to_nat iterations * Z.to_nat antCount) start goal
          buildingMap None None w with
  | (Ok (bestPath, _), w1) => (Ok bestPath, w1)
  | (Throw e, w1) => (Throw e, w1)
  | (Abort h, w1) => (Abort h, w1)
  end.

(** Swarm: the steps of one agent. *)
Fixpoint swarmAgent (steps : nat) (goal : Position)
    (buildingMap : BuildingMap) (agentPos : Position)
    (path : list Position) : Rand (Position * list Position) :=
  fun w =>
  match steps with
  | O => (Ok (agentPos, path), w)
  | S steps' =>
      match getNeighbors agentPos buildingMap with
      | Ok neighbors =>
          if len neighbors =? 0 then (Ok (agentPos, path), w)
          else
            let (r, w1) := random w in
            match pick neighbors r with
            | Some next =>
                if positionsEqual next goal
                then (Ok (next, path ++ [next]), w1)
                else swarmAgent steps' goal buildingMap next
                       (path ++ [next]) w1
            | None => (Throw TypeError, w1)
            end
      | Throw e => (Throw e, w)
      | Abort h => (Abort h, w)
      end
  end.

Fixpoint swarmLoop (agents : nat) (start goal : Position)
    (buildingMap : BuildingMap) (iterations : Z)
    (bestPath : option (list Position)) (bestLength : option Z)
  : Rand (option (list Position)) :=
  fun w =>
  match agents with
  | O => (Ok bestPath, w)
  | S agents' =>
      match swarmAgent (Z.to_nat iterations) goal buildingMap start [start]
              w with
      | (Ok (agentPos, path), w1) =>
          if positionsEqual agentPos goal && shorterThan path bestLength
          then swarmLoop agents' start goal buildingMap iterations
                 (Some path) (Some (len path)) w1
          else swarmLoop agents' start goal buildingMap iterations
                 bestPath bestLength w1
      | (Throw e, w1) => (Throw e, w1)
      | (Abort h, w1) => (Abort h, w1)
      end
  end.

(** Swarm Intelligence - Basic illustrative version *)
Definition findPathSwarm (start goal : Position) (buildingMap : BuildingMap)
    (swarmSize iterations : Z) : Rand (option (list Position)) :=
  swarmLoop (Z.to_nat swarmSize) start goal buildingMap iterations None None.


(** *** Genetic algorithm *)

(** An element of [population]: a path, or [undefined]. *)
Definition Individual : Type := option (list Position).

Fixpoint insertByLength (path : list Position)
    (sorted : list (list Position)) : list (list Position) :=
  match sorted with
  | [] => [path]
  | other :: rest =>
      if 0 <? len other - len path
      then path :: other :: rest
      else other :: insertByLength path rest
  end.

(** [population.sort((a, b) => a.length - b.length)]: stable, and
    [undefined] elements go last without being compared. *)
Definition sortPopulation (population : list Individual)
  : list Individual :=
  let paths :=
    flat_map (fun i : Individual =>
                match i with Some p => [p] | None => [] end) population in
  map Some (fold_left (fun sorted p => insertByLength p sorted) paths [])
  ++ repeat None (List.length population - List.length paths).

(** [population[i]] *)
Definition individual (population : list Individual) (i : Z) : Individual :=
  match index population i with
  | Some (Some p) => Some p
  | _ => None
  end.

(** [population[Math.floor(Math.random() * population.length)]] *)
Definition pickIndividual (population : list Individual) (r : float)
  : Individual :=
  match pick population r with
  | Some (Some p) => Some p
  | _ => None
  end.

(** One round of [while (newPop.length < populationSize)]: the child. *)
Definition makeChild (goal : Position) (buildingMap : BuildingMap)
    (population : list Individual) : Rand (list Position) :=
  fun w =>
  let (r1, w1) := random w in
  let (r2, w2) := random w1 in
  match pickIndividual population r1 with
  | None => (Throw TypeError, w2)
  | Some parent1 =>
      let crossoverPoint := len parent1 / 2 in
      let child := slice_to parent1 crossoverPoint in
      match pickIndividual population r2 with
      | None => (Throw TypeError, w2)
      | Some parent2 =>
          let child :=
            if len parent2 >? 0
            then child ++ slice_last parent2 (len parent2 / 2)
            else child in
          let (r3, w3) := random w2 in
          if (r3 <? 0.3)%float && (len child >? 0) then
            match index child (len child - 1) with
            | Some last =>
                match findPathRandomWalk last goal buildingMap 20 w3 with
                | (Ok (Some walk), w4) =>
                    (Ok (child ++ slice_from walk 1), w4)
                | (Ok None, w4) => (Ok child, w4)
                | (Throw e, w4) => (Throw e, w4)
                | (Abort h, w4) => (Abort h, w4)
                end
            | None => (Throw TypeError, w3)
            end
          else (Ok child, w3)
      end
  end.

Fixpoint fillPopulation (missing : nat) (goal : Position)
    (buildingMap : BuildingMap) (population newPop : list Individual)
  : Rand (list Individual) :=
  fun w =>
  match missing with
  | O => (Ok newPop, w)
  | S missing' =>
      match makeChild goal buildingMap population w with
      | (Ok child, w1) =>
          fillPopulation missing' goal buildingMap population
            (newPop ++ [Some child]) w1
      | (Throw e, w1) => (Throw e, w1)
      | (Abort h, w1) => (Abort h, w1)
      end
  end.

Fixpoint gaGenerations (generations : nat) (goal : Position)
    (buildingMap : BuildingMap) (populationSize : Z)
    (population : list Individual) (bestPath : option (list Position))
    (bestLength : option Z) : Rand (option (list Position)) :=
  fun w =>
  match generations with
  | O => (Ok bestPath, w)
  | S generations' =>
      let population := sortPopulation population in
      let first := individual population 0 in
      let '(bestPath, bestLength) :=
        match first with
        | Some p =>
            if shorterThan p bestLength then (Some p, Some (len p))
            else (bestPath, bestLength)
        | None => (bestPath, bestLength)
        end in
      match fillPopulation (Z.to_nat (populationSize - 1)) goal buildingMap
              population [first] w with
      | (Ok newPop, w1) =>
          gaGenerations generations' goal buildingMap populationSize newPop
            bestPath bestLength w1
      | (Throw e, w1) => (Throw e, w1)
      | (Abort h, w1) => (Abort h, w1)
      end
  end.

(** The first loop of [findPathGA]: the random walks that reach the goal. *)
Fixpoint seedPopulation (walks : nat) (start goal : Position)
    (buildingMap : BuildingMap) (population : list Individual)
  : Rand (list Individual) :=
  fun w =>
  match walks with
  | O => (Ok population, w)
  | S walks' =>
      match findPathRandomWalk start goal buildingMap 100 w with
      | (Ok (Some path), w1) =>
          seedPopulation walks' start goal buildingMap
            (population ++ [Some path]) w1
      | (Ok None, w1) =>
          seedPopulation walks' start goal buildingMap population w1
      | (Throw e, w1) => (Throw e, w1)
      | (Abort h, w1) => (Abort h, w1)
      end
  end.

(** Genetic Algorithm (GA) - Basic illustrative version *)
Definition findPathGA (start goal : Position) (buildingMap : BuildingMap)
    (populationSize generations : Z) : Rand (option (list Position)) :=
  fun w =>
  match seedPopulation (Z.to_nat populationSize) start goal buildingMap []
          w with
  | (Ok population, w1) =>
      gaGenerations (Z.to_nat generations) goal buildingMap populationSize
        population None None w1
  | (Throw e, w1) => (Throw e, w1)
  | (Abort h, w1) => (Abort h, w1)
  end.

(** *** Paths and fire *)

(** Check if path is blocked by fire: [path.some] stops at the first cell
    on fire. *)
Fixpoint isPathBlockedByFire (path : list Position)
    (buildingMap : BuildingMap) : result bool :=
  match path with
  | [] => Ok false
  | pos :: rest =>
      cellType <- cellAt buildingMap (x pos) (y pos) (floor pos) ;;
      if cellIs cellType FIRE then Ok true
      else isPathBlockedByFire rest buildingMap
  end.

(** Check if two paths are equal *)
Fixpoint pathsEqualFrom (path1 path2 : list Position) : bool :=
  match path1, path2 with
  | [], [] => true
  | p1 :: rest1, p2 :: rest2 =>
      positionsEqual p1 p2 && pathsEqualFrom rest1 rest2
  | _, _ => false
  end.

Definition pathsEqual (path1 path2 : option (list Position)) : bool :=
  match path1, path2 with
  | Some p1, Some p2 =>
      (len p1 =? len p2) && pathsEqualFrom p1 p2
  | _, _ => false
  end.

(** Find multiple alternate paths *)
Definition findAlternatePaths (start goal : Position)
    (buildingMap : BuildingMap) (numPaths : Z)
  : result (list (list Position)) :=
  primaryPath <- findPathAStar start goal buildingMap ;;
  let paths := match primaryPath with Some p => [p] | None => [] end in
  if len paths <? numPaths then
    dijkstraPath <- findPathDijkstra start goal buildingMap ;;
    match dijkstraPath with
    | Some d =>
        if negb (pathsEqual dijkstraPath primaryPath)
        then Ok (paths ++ [d]) else Ok paths
    | None => Ok paths
    end
  else Ok paths.

(** *** Paths *)

(** Every step of [path] is a legal move. *)
Fixpoint legalPath (buildingMap : BuildingMap) (path : list Position)
  : Prop :=
  match path with
  | [] => True
  | p :: rest =>
      match rest with
      | [] => True
      | q :: _ => isNeighbor buildingMap p q /\ legalPath buildingMap rest
      end
  end.

(** [path] goes from [start] to [goal] by legal moves. *)
Definition pathFromTo (buildingMap : BuildingMap) (start goal : Position)
    (path : list Position) : Prop :=
  hd_error path = Some start /\ last path start = goal /\
  path <> [] /\ legalPath buildingMap path.

(** The same, as a test: the neighbours are computed by [getNeighbors]. *)
Fixpoint legalPathb (buildingMap : BuildingMap) (path : list Position)
  : bool :=
  match path with
  | [] => true
  | p :: rest =>
      match rest with
      | [] => true
      | q :: _ =>
          match getNeighbors p buildingMap with
          | Ok neighbors =>
              existsb (positionsEqual q) neighbors
              && legalPathb buildingMap rest
          | _ => false
          end
      end
  end.

Definition pathFromTob (buildingMap : BuildingMap) (start goal : Position)
    (path : list Position) : bool :=
  match path with
  | [] => false
  | p :: _ =>
      positionsEqual p start && positionsEqual (last path start) goal
      && legalPathb buildingMap path
  end.


(** *** What the queue of the breadth-first search keeps *)

(** Every entry holds a path from [start] to its position. *)
Definition entriesLegal (buildingMap : BuildingMap) (start : Position)
    (queue : list (Position * list Position)) : Prop :=
  forall pos path, In (pos, path) queue ->
    pathFromTo buildingMap start pos path.

(** The paths of the queue have one length, then that length plus one. *)
Definition levelled (queue : list (Position * list Position)) : Prop :=
  exists d front back,
    queue = front ++ back /\
    Forall (fun e => List.length (snd e) = d) front /\
    Forall (fun e => List.length (snd e) = S d) back.

(** The queue holds an entry on [route] whose path is no longer than the
    part of [route] up to it, and [route] is unvisited from there on. *)
Definition onTheWay (visited : KeySet)
    (queue : list (Position * list Position)) (route : list Position)
  : Prop :=
  exists pre pos suf path,
    route = pre ++ pos :: suf /\ In (pos, path) queue /\
    (List.length path <= List.length pre + 1)%nat /\
    forall q, In q (pos :: suf) -> has visited (positionToKey q) = false.


(** *** What the nodes of the informed searches keep *)

(** The parents of a node lead back to the start by legal moves. *)
Inductive chain (buildingMap : BuildingMap) (start : Position)
  : PathNode -> Prop :=
| chain_root g h f : chain buildingMap start (mkPathNode start None g h f)
| chain_step up pos g h f :
    chain buildingMap start up ->
    isNeighbor buildingMap (position up) pos ->
    chain buildingMap start (mkPathNode pos (Some up) g h f).

(** All the positions inside the bounds of a rectangular grid, in the order
    of the three nested loops. *)
Definition allPositions (buildingMap : BuildingMap) : list Position :=
  flat_map (fun px =>
    flat_map (fun py =>
      map (fun pfloor => mkPosition px py pfloor)
        (range (floorsOf buildingMap)))
      (range (heightOf buildingMap)))
    (range (widthOf buildingMap)).


(** The closed set holds the keys of distinct cells, and the open set holds
    one node for each of its positions, all of them cells outside the closed
    set. *)
Definition searchInvariant (buildingMap : BuildingMap)
    (openPositions : list Position) (closedSet : KeySet)
    (closedP : list Position) : Prop :=
  closedSet = map positionToKey closedP /\ NoDup closedP /\
  (forall p, In p closedP -> inBounds buildingMap p) /\
  NoDup openPositions /\
  (forall p, In p openPositions ->
     inBounds buildingMap p /\ ~ In p closedP).

(** Every distance the initialization stores is [Infinity]. *)
Definition allInfinite (acc : KeyMap float * KeySet) : Prop :=
  forall k v, get (fst acc) k = Some v -> v = infinity.

(** The visited set holds the keys of distinct cells, and the entries of
    the queue are cells. *)
Definition frontierInvariant (buildingMap : BuildingMap)
    (queue : list (Position * list Position))
    (visited : KeySet) (visitedP : list Position) : Prop :=
  visited = map positionToKey visitedP /\ NoDup visitedP /\
  (forall p, In p visitedP -> inBounds buildingMap p) /\
  (forall pos path, In (pos, path) queue -> inBounds buildingMap pos).

(** The anytime loop, started with the weight [epsilon], returns within
    [rounds] readings of the clock, on any fuel of [rounds] or more, and
    draws no random number. *)
Definition returnsWithin (rounds : nat) (start goal : Position)
    (buildingMap : BuildingMap) (timeLimitMs startTime : Z)
    (epsilon : float) : Prop :=
  forall fuel bestPath w,
    (rounds <= fuel)%nat ->
    exists result w',
      anytimeLoop fuel start goal buildingMap timeLimitMs startTime bestPath
        epsilon w = (Ok result, w') /\
      randomsRead w' = randomsRead w /\ clock w' = clock w /\
      (clockRead w < clockRead w' <= clockRead w + rounds)%nat.

(** *** What a call takes from the world *)





(** *** The algorithms by name *)

Inductive Algorithm : Type :=
| AStar | Dijkstra | BFS | DFS | GreedyBestFirst | Bidirectional
| WeightedAStar (weight : float) | AnytimeAStar (timeLimitMs : Z)
| RandomWalk (maxSteps : Z) | ACO (iterations antCount : Z)
| GA (populationSize generations : Z) | Swarm (swarmSize iterations : Z).

Definition pure {A} (r : result A) : Rand A := fun w => (r, w).

(** The call of the algorithm of that name. *)
Definition findPath (algorithm : Algorithm) (start goal : Position)
    (buildingMap : BuildingMap) : Rand (option (list Position)) :=
  match algorithm with
  | AStar => pure (findPathAStar start goal buildingMap)
  | Dijkstra => pure (findPathDijkstra start goal buildingMap)
  | BFS => pure (findPathBFS start goal buildingMap)
  | DFS => pure (findPathDFS start goal buildingMap)
  | GreedyBestFirst => pure (findPathGreedyBestFirst start goal buildingMap)
  | Bidirectional => pure (findPathBidirectional start goal buildingMap)
  | WeightedAStar weight =>
      pure (findPathAStarWeighted start goal buildingMap weight)
  | AnytimeAStar timeLimitMs =>
      findPathAnytimeAStar start goal buildingMap timeLimitMs
  | RandomWalk maxSteps =>
      findPathRandomWalk start goal buildingMap maxSteps
  | ACO iterations antCount =>
      findPathACO start goal buildingMap iterations antCount
  | GA populationSize generations =>
      findPathGA start goal buildingMap populationSize generations
  | Swarm swarmSize iterations =>
      findPathSwarm start goal buildingMap swarmSize iterations
  end.

(** The default arguments of the signatures. *)
Definition defaults : list Algorithm :=
  [AStar; Dijkstra; BFS; DFS; GreedyBestFirst; Bidirectional;
   WeightedAStar 1.0; AnytimeAStar 100; RandomWalk 100; ACO 10 10;
   GA 10 10; Swarm 10 10].


(** The results of the twelve algorithms, with the default arguments of
    their signatures, on one input. *)
Definition outcomes (start goal : Position) (buildingMap : BuildingMap)
    (w : World) : list (result (option (list Position))) :=
  map (fun algorithm => fst (findPath algorithm start goal buildingMap w))
    defaults.



End Pathfinding.

(** ** building.service.ts *)

Module Building.
Import Pathfinding.

(** [`person_${Date.now()}_${Math.random()}`]: the two numbers of the
    template. *)
Record PersonId : Type := mkPersonId { idTime : Z; idRandom : float }.

Definition personId_eqb (a b : PersonId) : bool :=
  (idTime a =? idTime b) && (idRandom a =? idRandom b)%float.

(** [name || `Person ${n}`] *)
Inductive PersonName : Type :=
| Named (name : string)
| Numbered (n : Z).

Record Person : Type := mkPerson {
  id : PersonId;
  name : PersonName;
  position : Position;
  targetPosition : option Position;
  path : list Position;
  currentPathIndex : Z;
  isEvacuated : bool;
  movementSpeed : Z;
  trapped : option bool
}.

(** The fields of [BuildingService]; the subjects only publish copies of
    them and are left out. *)
Record Service : Type := mkService {
  buildingMap : BuildingMap;
  firePositions : KeySet;
  people : list Person;
  timestep : Z;
  isSimulationRunning : bool;
  fireSpreadRate : float;
  simulationSpeed : Z
}.

(** A method: it may change the service, read the world, and throw; the
    service it leaves is the one at the point where it returned or threw. *)
Definition M (A : Type) : Type := Service -> World -> result A * Service * World.

Definition withMap (s : Service) (m : BuildingMap) : Service :=
  mkService m (firePositions s) (people s) (timestep s)
    (isSimulationRunning s) (fireSpreadRate s) (simulationSpeed s).

Definition withFire (s : Service) (f : KeySet) : Service :=
  mkService (buildingMap s) f (people s) (timestep s)
    (isSimulationRunning s) (fireSpreadRate s) (simulationSpeed s).

Definition withPeople (s : Service) (p : list Person) : Service :=
  mkService (buildingMap s) (firePositions s) p (timestep s)
    (isSimulationRunning s) (fireSpreadRate s) (simulationSpeed s).

Definition withTimestep (s : Service) (t : Z) : Service :=
  mkService (buildingMap s) (firePositions s) (people s) t
    (isSimulationRunning s) (fireSpreadRate s) (simulationSpeed s).

Definition withRunning (s : Service) (r : bool) : Service :=
  mkService (buildingMap s) (firePositions s) (people s) (timestep s)
    r (fireSpreadRate s) (simulationSpeed s).

(** [private isValidPosition]: bounds only. *)
Definition isValidPosition (x y floor : Z) (buildingMap : BuildingMap)
  : result bool :=
  if (x >=? 0) && (x <? len buildingMap) then
    h <- height buildingMap ;;
    if (y >=? 0) && (y <? h) then
      f <- floors buildingMap ;;
      Ok ((floor >=? 0) && (floor <? f))
    else Ok false
  else Ok false.

(** [arr[i] = v] inside the array. *)
Fixpoint replaceAt {A} (arr : list A) (i : nat) (v : A) : list A :=
  match arr, i with
  | [], _ => []
  | _ :: rest, O => v :: rest
  | a :: rest, S i' => a :: replaceAt rest i' v
  end.

(** [this.buildingMap[x][y][floor] = cellType]: a [TypeError] when
    [buildingMap[x]] or [buildingMap[x][y]] is [undefined]; a write past the
    end of the innermost array is outside the model. *)
Definition setCell (buildingMap : BuildingMap) (x y floor : Z)
    (cellType : CellType) : result BuildingMap :=
  column <- deref (index buildingMap x) ;;
  cells <- deref (index column y) ;;
  match index cells floor with
  | Some _ =>
      Ok (replaceAt buildingMap (Z.to_nat x)
            (replaceAt column (Z.to_nat y)
               (replaceAt cells (Z.to_nat floor) cellType)))
  | None => Abort Unmodelled
  end.

(** Start fire at specified position *)
Definition startFire (position : Position) : M bool :=
  fun s w =>
  let px := x position in
  let py := y position in
  let pfloor := floor position in
  match isValidPosition px py pfloor (buildingMap s) with
  | Ok true =>
      match cellAt (buildingMap s) px py pfloor with
      | Ok cellType =>
          if cellIs cellType WALKABLE then
            match setCell (buildingMap s) px py pfloor FIRE with
            | Ok m =>
                (Ok true,
                 withFire (withMap s m)
                   (add (firePositions s) (positionToKey position)), w)
            | Throw e => (Throw e, s, w)
            | Abort h => (Abort h, s, w)
            end
          else (Ok false, s, w)
      | Throw e => (Throw e, s, w)
      | Abort h => (Abort h, s, w)
      end
  | Ok false => (Ok false, s, w)
  | Throw e => (Throw e, s, w)
  | Abort h => (Abort h, s, w)
  end.

(** The two loops over [dx] and [dy] of [spreadFire], in their order. *)
Definition adjacent : list (Z * Z) :=
  [(-1, -1); (-1, 0); (-1, 1);
   (0, -1);           (0, 1);
   (1, -1);  (1, 0);  (1, 1)].

Fixpoint spreadFrom (buildingMap : BuildingMap) (rate : float)
    (firePos : Position) (offsets : list (Z * Z))
    (newFirePositions : list Position)
  : World -> result (list Position) * World :=
  fun w =>
  match offsets with
  | [] => (Ok newFirePositions, w)
  | (dx, dy) :: rest =>
      let newX := x firePos + dx in
      let newY := y firePos + dy in
      let newPos := mkPosition newX newY (floor firePos) in
      match isValidPosition newX newY (floor firePos) buildingMap with
      | Ok true =>
          match cellAt buildingMap newX newY (floor firePos) with
          | Ok cellType =>
              if cellIs cellType WALKABLE then
                let (r, w1) := random w in
                spreadFrom buildingMap rate firePos rest
                  (if (r <? rate)%float
                   then newFirePositions ++ [newPos]
                   else newFirePositions) w1
              else spreadFrom buildingMap rate firePos rest
                     newFirePositions w
          | Throw e => (Throw e, w)
          | Abort h => (Abort h, w)
          end
      | Ok false =>
          spreadFrom buildingMap rate firePos rest newFirePositions w
      | Throw e => (Throw e, w)
      | Abort h => (Abort h, w)
      end
  end.

(** The loop over [this.firePositions]. *)
Fixpoint spreadCandidates (buildingMap : BuildingMap) (rate : float)
    (fireKeys : list string) (newFirePositions : list Position)
  : World -> result (list Position) * World :=
  fun w =>
  match fireKeys with
  | [] => (Ok newFirePositions, w)
  | fireKey :: rest =>
      match keyToPosition fireKey with
      | Ok firePos =>
          match spreadFrom buildingMap rate firePos adjacent
                  newFirePositions w with
          | (Ok newFirePositions', w1) =>
              spreadCandidates buildingMap rate rest newFirePositions' w1
          | other => other
          end
      | Throw e => (Throw e, w)
      | Abort h => (Abort h, w)
      end
  end.

(** Apply new fire positions *)
Fixpoint applyFire (newFirePositions : list Position) (s : Service)
  : result unit * Service :=
  match newFirePositions with
  | [] => (Ok tt, s)
  | pos :: rest =>
      match setCell (buildingMap s) (x pos) (y pos) (floor pos) FIRE with
      | Ok m =>
          applyFire rest
            (withFire (withMap s m)
               (add (firePositions s) (positionToKey pos)))
      | Throw e => (Throw e, s)
      | Abort h => (Abort h, s)
      end
  end.

(** Simulate fire spreading *)
Definition spreadFire : M unit :=
  fun s w =>
  match spreadCandidates (buildingMap s) (fireSpreadRate s)
          (firePositions s) [] w with
  | (Ok newFirePositions, w1) =>
      let (r, s') := applyFire newFirePositions s in (r, s', w1)
  | (Throw e, w1) => (Throw e, s, w1)
  | (Abort h, w1) => (Abort h, s, w1)
  end.

(** [name || `Person ${this.people.length + 1}`]: the empty string is
    falsy. *)
Definition personName (name : option string) (count : Z) : PersonName :=
  match name with
  | Some (String c rest) => Named (String c rest)
  | _ => Numbered (count + 1)
  end.

(** Add person to simulation *)
Definition addPerson (position : Position) (name : option string)
  : M Person :=
  fun s w =>
  let px := x position in
  let py := y position in
  let pfloor := floor position in
  match isValidPosition px py pfloor (buildingMap s) with
  | Ok true =>
      match cellAt (buildingMap s) px py pfloor with
      | Ok cellType =>
          if negb (cellIs cellType WALKABLE) && negb (cellIs cellType STAIRS)
             && negb (cellIs cellType EXIT)
          then (Throw (NotWalkable cellType), s, w)
          else
            let (t, w1) := now w in
            let (r, w2) := random w1 in
            let person :=
              mkPerson (mkPersonId t r) (personName name (len (people s)))
                position None [] 0 false 1 None in
            (Ok person, withPeople s (people s ++ [person]), w2)
      | Throw e => (Throw e, s, w)
      | Abort h => (Abort h, s, w)
      end
  | Ok false => (Throw (InvalidPosition px py pfloor), s, w)
  | Throw e => (Throw e, s, w)
  | Abort h => (Abort h, s, w)
  end.

(** Remove person from simulation *)
Definition removePerson (personId : PersonId) : M unit :=
  fun s w =>
  (Ok tt,
   withPeople s
     (filter (fun p => negb (personId_eqb (id p) personId)) (people s)),
   w).

Definition setPath (person : Person) (newPath : list Position) : Person :=
  mkPerson (id person) (name person) (position person)
    (match newPath with
     | [] => targetPosition person
     | _ :: _ => Some (last newPath (position person))
     end)
    newPath 0 (isEvacuated person) (movementSpeed person) (trapped person).

(** [this.people.find(p => p.id === personId)] and the assignments to the
    person found. *)
Fixpoint setPathOf (people : list Person) (personId : PersonId)
    (newPath : list Position) : list Person :=
  match people with
  | [] => []
  | person :: rest =>
      if personId_eqb (id person) personId
      then setPath person newPath :: rest
      else person :: setPathOf rest personId newPath
  end.

(** Set evacuation path for person *)
Definition setPersonPath (personId : PersonId) (newPath : list Position)
  : M unit :=
  fun s w => (Ok tt, withPeople s (setPathOf (people s) personId newPath), w).

(** Get all exit positions *)
Definition getExitPositions (buildingMap : BuildingMap)
  : result (list Position) :=
  foldM (fun exits px =>
    h <- height buildingMap ;;
    foldM (fun exits py =>
      f <- floors buildingMap ;;
      foldM (fun exits pfloor =>
        cellType <- cellAt buildingMap px py pfloor ;;
        if cellIs cellType EXIT
        then Ok (exits ++ [mkPosition px py pfloor])
        else Ok exits)
        (range f) exits)
      (range h) exits)
    (range (len buildingMap)) [].

(** The loop over [exits] of [recalculateBlockedPaths]. *)
Fixpoint bestExitPath (from : Position) (buildingMap : BuildingMap)
    (exits : list Position) (bestPath : option (list Position))
    (shortest : option Z) : result (option (list Position)) :=
  match exits with
  | [] => Ok bestPath
  | exit :: rest =>
      candidate <- findPathAStar from exit buildingMap ;;
      match candidate with
      | Some c =>
          blocked <- isPathBlockedByFire c buildingMap ;;
          if negb blocked && shorterThan c shortest
          then bestExitPath from buildingMap rest (Some c) (Some (len c))
          else bestExitPath from buildingMap rest bestPath shortest
      | None => bestExitPath from buildingMap rest bestPath shortest
      end
  end.

(** Determine whether the person needs a new path *)
Definition needsNewPath (person : Person) (buildingMap : BuildingMap)
  : result bool :=
  let hasNoPath := len (path person) =? 0 in
  let remainingPath := slice_from (path person) (currentPathIndex person) in
  pathBlocked <- isPathBlockedByFire remainingPath buildingMap ;;
  Ok (negb (negb hasNoPath && negb pathBlocked)).

(** The body of the loop over [this.people]. *)
Definition recalculatePerson (exits : list Position)
    (buildingMap : BuildingMap) (person : Person) : result Person :=
  if isEvacuated person then Ok person
  else
    stale <- needsNewPath person buildingMap ;;
    if negb stale then Ok person
    else
      bestPath <- bestExitPath (position person) buildingMap exits
                    None None ;;
      match bestPath with
      | Some best =>
          Ok (mkPerson (id person) (name person) (position person)
                (targetPosition person) best 0 (isEvacuated person)
                (movementSpeed person) (Some false))
      | None =>
          Ok (mkPerson (id person) (name person) (position person)
                (targetPosition person) (path person)
                (currentPathIndex person) (isEvacuated person)
                (movementSpeed person) (Some true))
      end.

(** A loop over [this.people] whose body changes the person at hand:
    the people before a throw keep their changes. *)
Fixpoint forEachPerson (body : Person -> result Person)
    (people : list Person) : result unit * list Person :=
  match people with
  | [] => (Ok tt, [])
  | person :: rest =>
      match body person with
      | Ok person' =>
          let (r, rest') := forEachPerson body rest in
          (r, person' :: rest')
      | Throw e => (Throw e, person :: rest)
      | Abort h => (Abort h, person :: rest)
      end
  end.

(** Recalculate (or calculate) evacuation paths for people whose current
    paths are missing or have become blocked by fire. *)
Definition recalculateBlockedPaths : M unit :=
  fun s w =>
  match getExitPositions (buildingMap s) with
  | Ok exits =>
      let (r, people') :=
        forEachPerson (recalculatePerson exits (buildingMap s)) (people s) in
      (r, withPeople s people', w)
  | Throw e => (Throw e, s, w)
  | Abort h => (Abort h, s, w)
  end.

(** The reroute of [movePeople]: the first exit with a path of more than
    one cell and no cell on fire. *)
Fixpoint firstExitPath (from : Position) (buildingMap : BuildingMap)
    (exits : list Position) : result (option (list Position)) :=
  match exits with
  | [] => Ok None
  | exit :: rest =>
      newPath <- findPathAStar from exit buildingMap ;;
      match newPath with
      | Some p =>
          if len p >? 1 then
            blocked <- isPathBlockedByFire p buildingMap ;;
            if negb blocked then Ok (Some p)
            else firstExitPath from buildingMap rest
          else firstExitPath from buildingMap rest
      | None => firstExitPath from buildingMap rest
      end
  end.

(** [person.trapped] as a condition. *)
Definition truthy (b : option bool) : bool :=
  match b with Some true => true | _ => false end.

(** The body of the loop of [movePeople]. *)
Definition movePerson (buildingMap : BuildingMap) (person : Person)
  : result Person :=
  if isEvacuated person || (len (path person) =? 0)
     || truthy (trapped person)
  then Ok person
  else if currentPathIndex person <? len (path person) - 1 then
    let nextIndex := currentPathIndex person + movementSpeed person in
    let targetIndex := Z.min nextIndex (len (path person) - 1) in
    nextPosition <- deref (index (path person) targetIndex) ;;
    cellType <- cellAt buildingMap (x nextPosition) (y nextPosition)
                  (floor nextPosition) ;;
    if cellIs cellType FIRE then
      exits <- getExitPositions buildingMap ;;
      newPath <- firstExitPath (position person) buildingMap exits ;;
      match newPath with
      | Some p =>
          Ok (mkPerson (id person) (name person) (position person)
                (targetPosition person) p 0 (isEvacuated person)
                (movementSpeed person) (trapped person))
      | None =>
          Ok (mkPerson (id person) (name person) (position person)
                (targetPosition person) (path person)
                (currentPathIndex person) (isEvacuated person)
                (movementSpeed person) (Some true))
      end
    else
      Ok (mkPerson (id person) (name person) nextPosition
            (targetPosition person) (path person) targetIndex
            (isEvacuated person || cellIs cellType EXIT)
            (movementSpeed person) (trapped person))
  else Ok person.

(** Move people along their paths *)
Definition movePeople : M unit :=
  fun s w =>
  let (r, people') := forEachPerson (movePerson (buildingMap s)) (people s) in
  (r, withPeople s people', w).

(** Stop simulation *)
Definition stopSimulation : M unit :=
  fun s w => (Ok tt, withRunning s false, w).

(** Start simulation: the interval that calls [step] is the caller's. *)
Definition startSimulation : M unit :=
  fun s w => (Ok tt, withRunning s true, w).

(** Reset fire: the loop over [this.firePositions]; the map it leaves
    holds the cells reset before a throw. *)
Fixpoint clearFire (fireKeys : list string) (buildingMap : BuildingMap)
  : result unit * BuildingMap :=
  match fireKeys with
  | [] => (Ok tt, buildingMap)
  | fireKey :: rest =>
      match keyToPosition fireKey with
      | Ok pos =>
          match setCell buildingMap (x pos) (y pos) (floor pos) WALKABLE with
          | Ok m => clearFire rest m
          | Throw e => (Throw e, buildingMap)
          | Abort h => (Abort h, buildingMap)
          end
      | Throw e => (Throw e, buildingMap)
      | Abort h => (Abort h, buildingMap)
      end
  end.

Definition resetPerson (person : Person) : Person :=
  mkPerson (id person) (name person) (position person)
    (targetPosition person) [] 0 false (movementSpeed person)
    (trapped person).

(** Reset simulation *)
Definition resetSimulation : M unit :=
  fun s w =>
  let s := withRunning s false in
  match clearFire (firePositions s) (buildingMap s) with
  | (Ok _, m) =>
      (Ok tt,
       withTimestep
         (withPeople (withFire (withMap s m) [])
            (map resetPerson (people s))) 0,
       w)
  | (Throw e, m) => (Throw e, withMap s m, w)
  | (Abort h, m) => (Abort h, withMap s m, w)
  end.

(** Advance simulation by one step *)
Definition step : M unit :=
  fun s w =>
  match spreadFire s w with
  | (Ok _, s1, w1) =>
      match recalculateBlockedPaths s1 w1 with
      | (Ok _, s2, w2) =>
          match movePeople s2 w2 with
          | (Ok _, s3, w3) => (Ok tt, withTimestep s3 (timestep s3 + 1), w3)
          | other => other
          end
      | other => other
      end
  | other => other
  end.

(** [Math.max(0, Math.min(1, rate))] *)
Definition setFireSpreadRate (rate : float) : M unit :=
  fun s w =>
  (Ok tt,
   mkService (buildingMap s) (firePositions s) (people s) (timestep s)
     (isSimulationRunning s) (mathMax 0 (mathMin 1 rate))
     (simulationSpeed s), w).

(** *** The replanning policy, as the specification words it *)

(** The exits of a rectangular grid, in the order of the three loops. *)
Definition exitsIn (buildingMap : BuildingMap) : list Position :=
  flat_map (fun px =>
    flat_map (fun py =>
      flat_map (fun pfloor =>
        if cellIs (kind buildingMap (mkPosition px py pfloor)) EXIT
        then [mkPosition px py pfloor] else [])
        (range (floorsOf buildingMap)))
      (range (heightOf buildingMap)))
    (range (widthOf buildingMap)).

(** Some cell of [route] is on fire. *)
Definition onFire (buildingMap : BuildingMap) (route : list Position)
  : bool :=
  existsb (fun q => cellIs (kind buildingMap q) FIRE) route.

Definition fireFree (buildingMap : BuildingMap) (route : list Position)
  : Prop :=
  forall q, In q route -> kind buildingMap q <> Some FIRE.

(** The path of the person is empty, or has a cell on fire at the progress
    index or after it. *)
Definition stale (buildingMap : BuildingMap) (person : Person) : Prop :=
  path person = [] \/
  exists i q,
    currentPathIndex person <= i /\ index (path person) i = Some q /\
    kind buildingMap q = Some FIRE.

(** The person stands on a cell, and follows cells, of the grid. *)
Definition wellPlaced (buildingMap : BuildingMap) (person : Person) : Prop :=
  inBounds buildingMap (position person) /\
  0 <= currentPathIndex person /\
  forall q, In q (path person) -> inBounds buildingMap q.

Definition withRoute (person : Person) (route : list Position) : Person :=
  mkPerson (id person) (name person) (position person)
    (targetPosition person) route 0 (isEvacuated person)
    (movementSpeed person) (Some false).

Definition asTrapped (person : Person) : Person :=
  mkPerson (id person) (name person) (position person)
    (targetPosition person) (path person) (currentPathIndex person)
    (isEvacuated person) (movementSpeed person) (Some true).

(** What the replanning step makes of a person. *)
Definition replanned (buildingMap : BuildingMap) (person person' : Person)
  : Prop :=
  ((isEvacuated person = true \/ ~ stale buildingMap person)
   /\ person' = person)
  \/
  (isEvacuated person = false /\ stale buildingMap person /\
   ((exists exit best,
       kind buildingMap exit = Some EXIT /\
       findPathAStar (position person) exit buildingMap = Ok (Some best) /\
       pathFromTo buildingMap (position person) exit best /\
       fireFree buildingMap best /\
       (forall exit' c,
          kind buildingMap exit' = Some EXIT ->
          findPathAStar (position person) exit' buildingMap = Ok (Some c) ->
          fireFree buildingMap c -> len best <= len c) /\
       person' = withRoute person best)
    \/
    ((forall exit c,
        kind buildingMap exit = Some EXIT ->
        findPathAStar (position person) exit buildingMap = Ok (Some c) ->
        ~ fireFree buildingMap c) /\
     person' = asTrapped person))).


(** *** The calls a client can make, and the states they reach *)

Inductive Op : Type :=
| OpStartFire (position : Position)
| OpAddPerson (position : Position) (name : option string)
| OpRemovePerson (personId : PersonId)
| OpSetPersonPath (personId : PersonId) (newPath : list Position)
| OpStartSimulation
| OpStopSimulation
| OpResetSimulation
| OpStep
| OpRecalculateBlockedPaths
| OpSetFireSpreadRate (rate : float).

Definition after {A} (r : result A * Service * World) : Service * World :=
  (snd (fst r), snd r).

(** The service and the world a call leaves, whether it returned or
    threw. *)
Definition run (op : Op) (s : Service) (w : World) : Service * World :=
  match op with
  | OpStartFire position => after (startFire position s w)
  | OpAddPerson position name => after (addPerson position name s w)
  | OpRemovePerson personId => after (removePerson personId s w)
  | OpSetPersonPath personId newPath =>
      after (setPersonPath personId newPath s w)
  | OpStartSimulation => after (startSimulation s w)
  | OpStopSimulation => after (stopSimulation s w)
  | OpResetSimulation => after (resetSimulation s w)
  | OpStep => after (step s w)
  | OpRecalculateBlockedPaths => after (recalculateBlockedPaths s w)
  | OpSetFireSpreadRate rate => after (setFireSpreadRate rate s w)
  end.

Fixpoint runAll (ops : list Op) (s : Service) (w : World)
  : Service * World :=
  match ops with
  | [] => (s, w)
  | op :: rest => let (s', w') := run op s w in runAll rest s' w'
  end.

Definition isReset (op : Op) : bool :=
  match op with OpResetSimulation => true | _ => false end.


(** [p] is a cell the fire at [src] can spread to on the map [m]. *)
Definition spreadTarget (m : BuildingMap) (src p : Position) : Prop :=
  floor p = floor src /\
  -1 <= x p - x src <= 1 /\ -1 <= y p - y src <= 1 /\
  ~ (x p = x src /\ y p = y src) /\
  inBounds m p /\ kind m p = Some WALKABLE.

(** What the fire may have changed of the map [m0] a run began with: no
    cell appeared or disappeared, every cell that was not Walkable is as it
    was, and the fire set holds keys of cells that were Walkable. *)
Definition fireInvariant (m0 : BuildingMap) (s : Service) : Prop :=
  (forall p, kind (buildingMap s) p = None <-> kind m0 p = None) /\
  (forall p c, kind m0 p = Some c -> c <> WALKABLE ->
               kind (buildingMap s) p = Some c) /\
  (forall k, In k (firePositions s) ->
             exists p, k = positionToKey p /\ kind m0 p = Some WALKABLE).


(** *** The map and the fire set together *)

(** The map is the map [m0] a run began with, with the cells of the fire set
    on fire; the fire set holds keys of cells that were Walkable. *)
Definition burntOnly (m0 : BuildingMap) (s : Service) : Prop :=
  (forall k, In k (firePositions s) ->
     exists p, k = positionToKey p /\ kind m0 p = Some WALKABLE) /\
  (forall p,
     kind (buildingMap s) p
     = if has (firePositions s) (positionToKey p) then Some FIRE
       else kind m0 p).

(** What a round of [movePeople] makes of a person: nothing, or a new path,
    or the trapped mark, or a move along the path to a cell that is not on
    fire. *)
Definition moved (m : BuildingMap) (person person' : Person) : Prop :=
  id person' = id person /\
  (isEvacuated person = true \/ path person = []
   \/ trapped person = Some true -> person' = person) /\
  (position person' = position person \/
   (In (position person') (path person) /\
    kind m (position person') <> Some FIRE /\
    isEvacuated person'
    = (isEvacuated person || cellIs (kind m (position person')) EXIT) /\
    path person' = path person /\
    currentPathIndex person'
    = Z.min (currentPathIndex person + movementSpeed person)
        (len (path person) - 1))).

(** What a tick makes of a person. *)
Definition ticked (person person' : Person) : Prop :=
  id person' = id person /\ name person' = name person /\
  movementSpeed person' = movementSpeed person /\
  (isEvacuated person = true -> person' = person).


(** *** The layout of a new building *)

(** An assignment [map[x][y][floor] = cellType]. *)
Definition Assignment : Type := Z * Z * Z * CellType.

Definition assign (m : BuildingMap) (a : Assignment) : result BuildingMap :=
  let '(px, py, pfloor, cellType) := a in setCell m px py pfloor cellType.

(** [for (let i = from; i < to; i++)] *)
Definition fromTo (from to : Z) : list Z :=
  map (Z.add from) (range (to - from)).

(** [Array(width).fill(null).map(() => Array(height).fill(null).map(() =>
    Array(floors).fill(CellType.WALKABLE)))]: the inner arrays are made
    only when there is an outer element; the RangeError of a negative
    length is outside the model. *)
Definition blankMap (width height floors : Z) : result BuildingMap :=
  if width <? 0 then Abort Unmodelled
  else if (0 <? width) && (height <? 0) then Abort Unmodelled
  else if (0 <? width) && (0 <? height) && (floors <? 0)
  then Abort Unmodelled
  else Ok (repeat (repeat (repeat WALKABLE (Z.to_nat floors))
                     (Z.to_nat height)) (Z.to_nat width)).

(** Add walls around perimeter *)
Definition perimeterWalls (width height floors : Z) : list Assignment :=
  flat_map (fun floor =>
    flat_map (fun x => [(x, 0, floor, WALL); (x, height - 1, floor, WALL)])
      (range width)
    ++ flat_map (fun y => [(0, y, floor, WALL); (width - 1, y, floor, WALL)])
         (range height))
    (range floors).

(** Add internal walls to create rooms, and doors (gaps in walls) *)
Definition internalWalls (width height floors : Z) : list Assignment :=
  flat_map (fun floor =>
    let wall1X := width / 3 in
    let wall2X := 2 * width / 3 in
    let wall1Y := height / 3 in
    let wall2Y := 2 * height / 3 in
    map (fun y => (wall1X, y, floor, WALL)) (fromTo 2 (height / 2))
    ++ map (fun y => (wall2X, y, floor, WALL))
         (fromTo (height / 2) (height - 2))
    ++ map (fun x => (x, wall1Y, floor, WALL)) (fromTo 2 (width / 2))
    ++ map (fun x => (x, wall2Y, floor, WALL))
         (fromTo (width / 2) (width - 2))
    ++ [(wall1X, height / 4, floor, WALKABLE);
        (wall2X, 3 * height / 4, floor, WALKABLE);
        (width / 4, wall1Y, floor, WALKABLE);
        (3 * width / 4, wall2Y, floor, WALKABLE)])
    (range floors).

(** Add stairs connecting floors *)
Definition stairwell (width height floors : Z) : list Assignment :=
  let stairX := width / 2 in
  let stairY := height / 2 in
  flat_map (fun floor =>
    flat_map (fun dx =>
      flat_map (fun dy =>
        if (stairX + dx <? width) && (stairY + dy <? height)
        then [(stairX + dx, stairY + dy, floor, STAIRS)]
        else [])
        (range 2))
      (range 2))
    (range floors).

(** Add exits on ground floor *)
Definition groundExits (width height : Z) : list Assignment :=
  [(1, height / 2, 0, EXIT); (width - 2, height / 2, 0, EXIT)].

(** Generate realistic building layout.  The generator reads nothing of the
    map it fills: its loops are their assignments, in their order, and the
    first assignment that throws ends it. *)
Definition generateBuildingLayout (width height floors : Z)
  : result BuildingMap :=
  m <- blankMap width height floors ;;
  foldM assign
    (perimeterWalls width height floors ++ internalWalls width height floors
     ++ stairwell width height floors ++ groundExits width height) m.


(** The arrays of the map have the lengths [width], [height], [floors]. *)
Definition hasShape (width height floors : nat) (m : BuildingMap) : Prop :=
  List.length m = width /\
  Forall (fun column =>
    List.length column = height /\
    Forall (fun cells : list CellType => List.length cells = floors) column)
    m.

(** The cell [(px, py)] lies on the border of a floor. *)
Definition onBorder (width height px py : Z) : Prop :=
  px = 0 \/ px = width - 1 \/ py = 0 \/ py = height - 1.


(** The assignment writes inside a map of the given lengths. *)
Definition inRange (width height floors : Z) (a : Assignment) : Prop :=
  let '(px, py, pfloor, _) := a in
  0 <= px < width /\ 0 <= py < height /\ 0 <= pfloor < floors.


(** *** The statistics the service publishes *)

Record SimulationStats : Type := mkSimulationStats {
  statsTimestep : Z;
  totalPeople : Z;
  evacuatedPeople : Z;
  peopleRemaining : Z;
  fireArea : Z;
  isRunning : bool
}.

(** The [stats] of [updateObservables]. *)
Definition simulationStats (s : Service) : SimulationStats :=
  mkSimulationStats (timestep s) (len (people s))
    (len (filter (fun p => isEvacuated p) (people s)))
    (len (filter (fun p => negb (isEvacuated p)) (people s)))
    (len (firePositions s)) (isSimulationRunning s).

(** A path the reroute of [movePeople] accepts for an exit. *)
Definition acceptable (m : BuildingMap) (from exit : Position)
    (route : list Position) : Prop :=
  findPathAStar from exit m = Ok (Some route) /\
  pathFromTo m from exit route /\ 1 < len route /\ fireFree m route.


End Building.

(** ** Small buildings for the examples *)

Module Examples.
Import Pathfinding Building.

(** A grid [width] by [height] by one floor, walled on its perimeter. *)
Definition room (width height : nat) : BuildingMap :=
  map (fun px =>
    map (fun py =>
      [if (px =? 0)%nat || (px =? width - 1)%nat
          || (py =? 0)%nat || (py =? height - 1)%nat
       then WALL else WALKABLE])
      (seq 0 height))
    (seq 0 width).

Definition at0 (px py : Z) : Position := mkPosition px py 0.

(** Two walkable cells side by side. *)
Definition pair : BuildingMap := [[[WALKABLE]]; [[WALKABLE]]].

(** Two walkable cells with a wall between them. *)
Definition walled : BuildingMap := [[[WALKABLE]]; [[WALL]]; [[WALKABLE]]].

(** A walkable cell next to a wall. *)
Definition deadEnd : BuildingMap := [[[WALKABLE]]; [[WALL]]].

(** Three walkable cells in a row. *)
Definition corridor : BuildingMap :=
  [[[WALKABLE]]; [[WALKABLE]]; [[WALKABLE]]].

(** The 5 by 5 room with an exit at (1, 2). *)
Definition exitRoom : BuildingMap :=
  match setCell (room 5 5) 1 2 0 EXIT with
  | Ok m => m
  | _ => room 5 5
  end.

(** Two floors of 3 by 3 walkable cells joined by stairs at (1, 1). *)
Definition twoFloors : BuildingMap :=
  map (fun px =>
    map (fun py =>
      if (px =? 1)%nat && (py =? 1)%nat then [STAIRS; STAIRS]
      else [WALKABLE; WALKABLE])
      (seq 0 3))
    (seq 0 3).

(** A world whose draws are all [r] and whose clock stands still. *)
Definition constWorld (r : float) : World :=
  mkWorld (fun _ => r) 0 (fun _ => 0) 0.

Definition service (m : BuildingMap) : Service :=
  mkService m [] [] 0 false 0.1%float 1000.

(** The exit room with the cell (2, 2) set on fire. *)
Definition burning : Service :=
  fst (run (OpStartFire (at0 2 2)) (service exitRoom) (constWorld 0)).


(** The exit room with one person at (3, 2) who has no path yet. *)
Definition occupied : Service :=
  fst (run (OpAddPerson (at0 3 2) None) (service exitRoom) (constWorld 0.5)).


(** A world whose first two draws are 0.1 and whose later draws are 0.9. *)
Definition turningWorld : World :=
  mkWorld (fun n => if (n <? 2)%nat then 0.1%float else 0.9%float) 0
    (fun _ => 0) 0.




End Examples.

(** * Properties *)

(** ** Grid access on a rectangular grid *)

Module GridFacts.
Import Pathfinding.

Lemma index_Some_iff {A} (arr : list A) (i : Z) :
  (exists a, index arr i = Some a) <-> 0 <= i < len arr.
Proof.
  unfold index, len. destruct (Z.ltb_spec i 0).
  - split; [intros [a Ha]; discriminate | lia].
  - split.
    + intros [a Ha].
      assert (Z.to_nat i < List.length arr)%nat
        by (apply nth_error_Some; congruence).
      lia.
    + intros Hi. destruct (nth_error arr (Z.to_nat i)) eqn:E; eauto.
      apply nth_error_None in E. lia.
Qed.

Lemma index_None_iff {A} (arr : list A) (i : Z) :
  index arr i = None <-> ~ (0 <= i < len arr).
Proof.
  rewrite <- index_Some_iff. destruct (index arr i); split; intros H.
  - discriminate.
  - exfalso. apply H. eauto.
  - intros [a Ha]. discriminate.
  - reflexivity.
Qed.

Lemma index_In {A} (arr : list A) (i : Z) (a : A) :
  index arr i = Some a -> In a arr.
Proof.
  unfold index. destruct (i <? 0); [discriminate |]. apply nth_error_In.
Qed.

Lemma index_0_hd {A} (arr : list A) (d : A) :
  0 < len arr -> index arr 0 = Some (hd d arr).
Proof. destruct arr; unfold len; simpl; [lia | reflexivity]. Qed.

Section Rectangular.
Variable buildingMap : BuildingMap.
Hypothesis Hrect : rectangular buildingMap.

Lemma column_length px column :
  index buildingMap px = Some column -> len column = heightOf buildingMap.
Proof.
  intros H. apply index_In in H. apply Hrect in H.
  unfold len, heightOf, len. lia.
Qed.

Lemma cells_length px py column cells :
  index buildingMap px = Some column -> index column py = Some cells ->
  len cells = floorsOf buildingMap.
Proof.
  intros H1 H2. apply index_In in H1, H2. apply Hrect in H1.
  destruct H1 as [_ H1]. apply H1 in H2. unfold len, floorsOf, len. lia.
Qed.

Lemma height_ok : 0 < widthOf buildingMap ->
  height buildingMap = Ok (heightOf buildingMap).
Proof.
  intros H. unfold height. rewrite (index_0_hd _ []) by exact H.
  reflexivity.
Qed.

Lemma floors_ok : 0 < widthOf buildingMap -> 0 < heightOf buildingMap ->
  floors buildingMap = Ok (floorsOf buildingMap).
Proof.
  intros H1 H2. unfold floors. rewrite (index_0_hd _ []) by exact H1.
  simpl. rewrite (index_0_hd _ []) by exact H2. reflexivity.
Qed.

Lemma isValidMapPosition_ok px py pfloor :
  isValidMapPosition px py pfloor buildingMap
  = Ok (inBoundsb buildingMap px py pfloor).
Proof.
  unfold isValidMapPosition, inBoundsb.
  replace (px >=? 0) with (0 <=? px) by (rewrite Z.geb_leb; reflexivity).
  replace (py >=? 0) with (0 <=? py) by (rewrite Z.geb_leb; reflexivity).
  replace (pfloor >=? 0) with (0 <=? pfloor)
    by (rewrite Z.geb_leb; reflexivity).
  fold (widthOf buildingMap).
  destruct (Z.leb_spec 0 px); simpl; [| reflexivity].
  destruct (Z.ltb_spec px (widthOf buildingMap)); simpl; [| reflexivity].
  rewrite height_ok by lia. simpl.
  destruct (Z.leb_spec 0 py); simpl; [| reflexivity].
  destruct (Z.ltb_spec py (heightOf buildingMap)); simpl; [| reflexivity].
  rewrite floors_ok by lia. reflexivity.
Qed.

Lemma inBoundsb_true px py pfloor :
  inBoundsb buildingMap px py pfloor = true <->
  inBounds buildingMap (mkPosition px py pfloor).
Proof.
  unfold inBoundsb, inBounds. simpl.
  rewrite !andb_true_iff, !Z.leb_le, !Z.ltb_lt. lia.
Qed.

(** Inside the bounds every read finds a cell. *)
Lemma cellAt_inBounds p :
  inBounds buildingMap p ->
  exists c, cellAt buildingMap (x p) (y p) (floor p) = Ok (Some c) /\
            kind buildingMap p = Some c.
Proof.
  intros (Hx & Hy & Hf). unfold cellAt, kind.
  destruct (proj2 (index_Some_iff buildingMap (x p)) Hx) as [column Hc].
  rewrite Hc. simpl.
  pose proof (column_length _ _ Hc) as Hlen.
  destruct (proj2 (index_Some_iff column (y p))) as [cells Hcs]; [lia |].
  rewrite Hcs. simpl.
  pose proof (cells_length _ _ _ _ Hc Hcs) as Hlen'.
  destruct (proj2 (index_Some_iff cells (floor p))) as [c Hcell]; [lia |].
  exists c. rewrite Hcell. split; reflexivity.
Qed.

(** With [x] and [y] inside the bounds a read never throws. *)
Lemma cellAt_column px py pfloor :
  0 <= px < widthOf buildingMap -> 0 <= py < heightOf buildingMap ->
  cellAt buildingMap px py pfloor
  = Ok (kind buildingMap (mkPosition px py pfloor)).
Proof.
  intros Hx Hy. unfold cellAt, kind. simpl.
  destruct (proj2 (index_Some_iff buildingMap px) Hx) as [column Hc].
  rewrite Hc. simpl.
  pose proof (column_length _ _ Hc) as Hlen.
  destruct (proj2 (index_Some_iff column py)) as [cells Hcs]; [lia |].
  rewrite Hcs. reflexivity.
Qed.

Lemma kind_Some_inBounds p c :
  kind buildingMap p = Some c -> inBounds buildingMap p.
Proof.
  unfold kind, inBounds. intros H.
  destruct (index buildingMap (x p)) as [column |] eqn:Hc; [| discriminate].
  destruct (index column (y p)) as [cells |] eqn:Hcs; [| discriminate].
  pose proof (column_length _ _ Hc).
  pose proof (cells_length _ _ _ _ Hc Hcs).
  assert (0 <= x p < len buildingMap) by (apply index_Some_iff; eauto).
  assert (0 <= y p < len column) by (apply index_Some_iff; eauto).
  assert (0 <= floor p < len cells) by (apply index_Some_iff; eauto).
  unfold widthOf. lia.
Qed.

Lemma traversableb_true c : traversableb c = true <-> traversable c.
Proof.
  unfold traversableb, traversable.
  destruct c as [[] |]; simpl; split; intros H; try reflexivity;
    try discriminate; auto;
    try (destruct H as [H | [H | H]]; discriminate).
Qed.

Lemma isValidPosition_ok px py pfloor :
  isValidPosition px py pfloor buildingMap
  = Ok (inBoundsb buildingMap px py pfloor
        && traversableb (kind buildingMap (mkPosition px py pfloor))).
Proof.
  unfold isValidPosition. rewrite isValidMapPosition_ok. simpl.
  destruct (inBoundsb buildingMap px py pfloor) eqn:Hb; simpl;
    [| reflexivity].
  apply inBoundsb_true in Hb. destruct Hb as (Hx & Hy & Hf). simpl in *.
  rewrite cellAt_column by assumption. reflexivity.
Qed.

End Rectangular.

Lemma rectangularb_ok buildingMap :
  rectangularb buildingMap = true -> rectangular buildingMap.
Proof.
  unfold rectangularb, rectangular. intros H column Hc.
  rewrite forallb_forall in H. specialize (H column Hc).
  apply andb_true_iff in H. destruct H as [H1 H2].
  apply Nat.eqb_eq in H1. split; [exact H1 |].
  intros cells Hcs. rewrite forallb_forall in H2.
  apply Nat.eqb_eq. apply H2. exact Hcs.
Qed.


End GridFacts.

(** ** getNeighbors *)

Module NeighborFacts.
Import Pathfinding GridFacts.

Section Rectangular.
Variable buildingMap : BuildingMap.
Hypothesis Hrect : rectangular buildingMap.

Lemma sameFloorNeighbors_ok dirs px py pfloor acc :
  sameFloorNeighbors dirs px py pfloor buildingMap acc
  = Ok (acc ++ map (stepTo px py pfloor)
                   (filter (validStep buildingMap px py pfloor) dirs)).
Proof.
  revert acc. induction dirs as [| [dx dy] rest IH]; intros acc; simpl.
  - rewrite app_nil_r. reflexivity.
  - rewrite (isValidPosition_ok _ Hrect). simpl. rewrite IH.
    unfold validStep at 2, stepTo at 2. simpl.
    destruct (inBoundsb buildingMap (px + dx) (py + dy) pfloor
              && traversableb _); simpl.
    + rewrite <- app_assoc. reflexivity.
    + reflexivity.
Qed.

Lemma stairsNeighbors_ok newFloors px py acc :
  0 <= px < widthOf buildingMap -> 0 <= py < heightOf buildingMap ->
  stairsNeighbors newFloors px py buildingMap acc
  = Ok (acc ++ map (mkPosition px py) (filter (validFloor buildingMap px py) newFloors)).
Proof.
  intros Hx Hy. revert acc.
  induction newFloors as [| newFloor rest IH]; intros acc; simpl.
  - rewrite app_nil_r. reflexivity.
  - assert (Htake :
      (if newFloor >=? 0 then
         f <- floors buildingMap ;;
         if newFloor <? f then
           cellType <- cellAt buildingMap px py newFloor ;;
           Ok (cellIs cellType STAIRS)
         else Ok false
       else Ok false) = Ok (validFloor buildingMap px py newFloor)).
    { unfold validFloor. rewrite Z.geb_leb.
      destruct (0 <=? newFloor); simpl; [| reflexivity].
      rewrite floors_ok by lia. simpl.
      destruct (newFloor <? floorsOf buildingMap); simpl; [| reflexivity].
      rewrite (cellAt_column _ Hrect) by assumption. reflexivity. }
    rewrite Htake. cbn [bind]. rewrite IH.
    destruct (validFloor buildingMap px py newFloor); simpl;
      [rewrite <- app_assoc |]; reflexivity.
Qed.

(** The list [getNeighbors] returns at a position inside the bounds. *)
Lemma getNeighbors_ok p :
  inBounds buildingMap p ->
  getNeighbors p buildingMap
  = Ok (map (stepTo (x p) (y p) (floor p))
            (filter (validStep buildingMap (x p) (y p) (floor p)) directions)
        ++ (if cellIs (kind buildingMap p) STAIRS
            then map (mkPosition (x p) (y p))
                   (filter (validFloor buildingMap (x p) (y p))
                      [floor p - 1; floor p + 1])
            else [])).
Proof.
  intros Hin. unfold getNeighbors.
  rewrite sameFloorNeighbors_ok. cbn [bind app].
  destruct (cellAt_inBounds _ Hrect _ Hin) as (c & Hc & Hk).
  rewrite Hc, Hk. cbn [bind].
  destruct Hin as (Hx & Hy & Hf).
  destruct (cellIs (Some c) STAIRS).
  - rewrite stairsNeighbors_ok by assumption. reflexivity.
  - rewrite app_nil_r. reflexivity.
Qed.

End Rectangular.

Lemma In_directions dx dy :
  In (dx, dy) directions <->
  -1 <= dx <= 1 /\ -1 <= dy <= 1 /\ ~ (dx = 0 /\ dy = 0).
Proof.
  unfold directions. simpl. split.
  - intros H.
    repeat (destruct H as [H | H]; [inversion H; subst; lia |]).
    contradiction.
  - intros (Hx & Hy & Hne).
    assert (Hdx : dx = -1 \/ dx = 0 \/ dx = 1) by lia.
    assert (Hdy : dy = -1 \/ dy = 0 \/ dy = 1) by lia.
    destruct Hdx as [-> | [-> | ->]], Hdy as [-> | [-> | ->]];
      try (exfalso; apply Hne; split; reflexivity); tauto.
Qed.

Lemma cellIs_true c k : cellIs c k = true <-> c = Some k.
Proof.
  destruct c as [[] |], k; simpl; split; intros H;
    try reflexivity; try discriminate; inversion H.
Qed.

Lemma position_eta p : mkPosition (x p) (y p) (floor p) = p.
Proof. destruct p; reflexivity. Qed.

Lemma NoDup_directions : NoDup directions.
Proof.
  unfold directions.
  repeat (constructor;
          [simpl; intros H;
           repeat (destruct H as [H | H]; [discriminate H |]); exact H |]).
  constructor.
Qed.

(** What [getNeighbors] returns, read as a relation. *)
Lemma getNeighbors_In buildingMap p neighbors q :
  rectangular buildingMap -> inBounds buildingMap p ->
  getNeighbors p buildingMap = Ok neighbors ->
  (In q neighbors <->
   sameFloorMove buildingMap p q \/ stairsMove buildingMap p q).
Proof.
  intros Hrect Hin Hget. rewrite (getNeighbors_ok _ Hrect _ Hin) in Hget.
  pose proof In_directions as Hdirs.
  remember directions as dirs eqn:Edirs. clear Edirs.
  remember [floor p - 1; floor p + 1] as newFloors eqn:Efloors.
  injection Hget as <-. rewrite in_app_iff.
  match goal with
  | |- (?A \/ ?B) <-> (?C \/ ?D) =>
      cut ((A <-> C) /\ (B <-> D)); [tauto | split]
  end.
  - rewrite in_map_iff. split.
    + intros ([dx dy] & <- & Hd). apply filter_In in Hd.
      destruct Hd as [Hd Hv]. apply Hdirs in Hd.
      unfold validStep, stepTo in Hv. simpl in Hv. apply andb_true_iff in Hv.
      destruct Hv as [Hb Ht]. apply (inBoundsb_true _) in Hb.
      apply traversableb_true in Ht.
      unfold sameFloorMove, stepTo. simpl.
      split; [reflexivity |]. split; [lia |]. split; [lia |].
      split; [intros [A B]; lia |]. split; [exact Hb | exact Ht].
    + intros (Hfl & Hdx & Hdy & Hne & Hb & Ht).
      exists (x q - x p, y q - y p).
      assert (Hq : stepTo (x p) (y p) (floor p) (x q - x p, y q - y p) = q).
      { unfold stepTo. simpl. rewrite <- Hfl.
        replace (x p + (x q - x p)) with (x q) by lia.
        replace (y p + (y q - y p)) with (y q) by lia.
        apply position_eta. }
      split; [exact Hq |]. apply filter_In. split.
      * apply Hdirs. split; [lia |]. split; [lia |].
        intros [A B]. apply Hne. lia.
      * unfold validStep. rewrite Hq. apply andb_true_iff. split.
        -- apply (inBoundsb_true _). simpl. rewrite <- Hfl.
           replace (x p + (x q - x p)) with (x q) by lia.
           replace (y p + (y q - y p)) with (y q) by lia.
           rewrite position_eta. exact Hb.
        -- apply traversableb_true. exact Ht.
  - destruct (cellIs (kind buildingMap p) STAIRS) eqn:Hs.
    + apply cellIs_true in Hs. rewrite in_map_iff. split.
      * intros (nf & <- & Hd). apply filter_In in Hd. destruct Hd as [Hd Hv].
        unfold validFloor in Hv. rewrite !andb_true_iff in Hv.
        destruct Hv as [[H0 H1] H2]. apply cellIs_true in H2.
        apply Z.leb_le in H0. apply Z.ltb_lt in H1.
        unfold stairsMove. simpl.
        split; [exact Hs |]. split; [reflexivity |]. split; [reflexivity |].
        split.
        { subst newFloors. simpl in Hd. destruct Hd as [<- | [<- | []]]; lia. }
        split; [| exact H2].
        destruct Hin as (Hx & Hy & _). unfold inBounds. simpl. lia.
      * intros (_ & Hx & Hy & Hfl & Hb & Hk). exists (floor q).
        rewrite <- Hx, <- Hy. split; [apply position_eta |].
        apply filter_In. split.
        -- subst newFloors. simpl. destruct Hfl as [-> | ->]; auto.
        -- unfold validFloor. rewrite position_eta, Hk. simpl.
           destruct Hb as (_ & _ & Hb). rewrite !andb_true_iff.
           rewrite Z.leb_le, Z.ltb_lt. lia.
    + split; [intros [] |]. intros (Hk & _). apply cellIs_true in Hk.
      congruence.
Qed.

Lemma traversable_not_blocked c :
  traversable c -> c <> Some WALL /\ c <> Some FIRE.
Proof. intros [-> | [-> | ->]]; split; discriminate. Qed.

(** The neighbours of a cell of the grid are cells of the grid. *)
Lemma getNeighbors_inBounds buildingMap p neighbors :
  rectangular buildingMap -> inBounds buildingMap p ->
  getNeighbors p buildingMap = Ok neighbors ->
  forall q, In q neighbors -> inBounds buildingMap q.
Proof.
  intros Hrect Hin Hget q Hq.
  apply (getNeighbors_In _ _ _ q Hrect Hin Hget) in Hq.
  destruct Hq as [(_ & _ & _ & _ & Hb & _) | (_ & _ & _ & _ & Hb & _)];
    exact Hb.
Qed.

(** C2. On a rectangular grid, at a position [p] inside the bounds,
    [getNeighbors] returns a list that holds exactly the traversable
    (Walkable, Stairs or Exit) in-bounds cells among the 8 cells around [p]
    on its floor and, when the cell at [p] is Stairs, the in-bounds Stairs
    cells at the same [(x, y)] one floor down and one floor up; so every
    position of the list is inside the bounds and is neither a Wall nor a
    Fire cell. *)
Theorem getNeighbors_exact buildingMap p :
  rectangular buildingMap -> inBounds buildingMap p ->
  exists neighbors,
    getNeighbors p buildingMap = Ok neighbors /\
    (forall q, In q neighbors <->
               sameFloorMove buildingMap p q \/ stairsMove buildingMap p q) /\
    (forall q, In q neighbors ->
               inBounds buildingMap q /\
               kind buildingMap q <> Some WALL /\
               kind buildingMap q <> Some FIRE).
Proof.
  intros Hrect Hin. eexists. split; [apply (getNeighbors_ok _ Hrect _ Hin) |].
  assert (Hspec : forall q, In q _ <->
            sameFloorMove buildingMap p q \/ stairsMove buildingMap p q)
    by (intros q; apply (getNeighbors_In _ _ _ _ Hrect Hin);
        apply (getNeighbors_ok _ Hrect _ Hin)).
  split; [exact Hspec |].
  intros q Hq. apply Hspec in Hq.
  destruct Hq as [(_ & _ & _ & _ & Hb & Ht) | (_ & _ & _ & _ & Hb & Hk)].
  - split; [exact Hb |]. apply traversable_not_blocked. exact Ht.
  - split; [exact Hb |]. rewrite Hk. split; discriminate.
Qed.

Lemma getNeighbors_exact_witness :
  exists neighbors,
    getNeighbors (mkPosition 1 1 0) Examples.twoFloors = Ok neighbors /\
    (forall q, In q neighbors <->
               sameFloorMove Examples.twoFloors (mkPosition 1 1 0) q
               \/ stairsMove Examples.twoFloors (mkPosition 1 1 0) q) /\
    (forall q, In q neighbors ->
               inBounds Examples.twoFloors q /\
               kind Examples.twoFloors q <> Some WALL /\
               kind Examples.twoFloors q <> Some FIRE).
Proof.
  apply getNeighbors_exact.
  - apply rectangularb_ok. reflexivity.
  - unfold inBounds. vm_compute. intuition discriminate.
Defined.


End NeighborFacts.

(** ** Position keys *)

Module KeyFacts.
Import Pathfinding.

Lemma noComma_uint d : noComma (NilEmpty.string_of_uint d) = true.
Proof. induction d; simpl; auto. Qed.

Lemma noComma_showZ z : noComma (showZ z) = true.
Proof.
  unfold showZ, NilZero.string_of_int, NilZero.string_of_uint.
  destruct (Z.to_int z) as [d | d]; destruct d; simpl;
    try reflexivity; apply noComma_uint.
Qed.

Lemma split_noComma s : noComma s = true -> split comma s = [s].
Proof.
  induction s as [| c s IH]; simpl; [reflexivity |].
  intros H. apply andb_true_iff in H. destruct H as [Hc Hs].
  apply negb_true_iff in Hc. rewrite Hc, (IH Hs). reflexivity.
Qed.

Lemma split_app s rest :
  noComma s = true ->
  split comma (s ++ String comma rest) = s :: split comma rest.
Proof.
  induction s as [| c s IH]; simpl.
  - intros _. reflexivity.
  - intros H. apply andb_true_iff in H. destruct H as [Hc Hs].
    apply negb_true_iff in Hc. rewrite Hc, (IH Hs). reflexivity.
Qed.

Lemma Number_showZ z : Number (showZ z) = Ok z.
Proof.
  unfold Number, showZ. rewrite NilZero.isi.
  - rewrite DecimalZ.of_to. reflexivity.
  - destruct z; simpl; try discriminate.
    intros H. injection H as H. exact (Unsigned.to_uint_nonnil _ H).
  - destruct z; simpl; try discriminate.
    intros H. injection H as H. exact (Unsigned.to_uint_nonnil _ H).
Qed.

(** Decoding a key gives the position back. *)
Lemma keyToPosition_positionToKey p :
  keyToPosition (positionToKey p) = Ok p.
Proof.
  unfold keyToPosition, positionToKey.
  rewrite split_app by apply noComma_showZ.
  rewrite split_app by apply noComma_showZ.
  rewrite split_noComma by apply noComma_showZ.
  rewrite !Number_showZ. simpl. destruct p; reflexivity.
Qed.

Lemma positionToKey_inj p q : positionToKey p = positionToKey q -> p = q.
Proof.
  intros H. pose proof (keyToPosition_positionToKey p) as Hp.
  rewrite H, keyToPosition_positionToKey in Hp. congruence.
Qed.

Lemma key_eqb p q :
  String.eqb (positionToKey p) (positionToKey q) = positionsEqual p q.
Proof.
  unfold positionsEqual.
  destruct (String.eqb_spec (positionToKey p) (positionToKey q)) as [H | H].
  - apply positionToKey_inj in H. subst q. rewrite !Z.eqb_refl. reflexivity.
  - symmetry. apply not_true_iff_false. intros Hq.
    rewrite !andb_true_iff, !Z.eqb_eq in Hq. apply H.
    destruct p, q; simpl in *. destruct Hq as [[-> ->] ->]. reflexivity.
Qed.

Lemma positionsEqual_true p q : positionsEqual p q = true <-> p = q.
Proof.
  unfold positionsEqual. rewrite !andb_true_iff, !Z.eqb_eq. split.
  - destruct p, q; simpl. intros [[-> ->] ->]. reflexivity.
  - intros ->. auto.
Qed.

Lemma positionsEqual_refl p : positionsEqual p p = true.
Proof. apply positionsEqual_true. reflexivity. Qed.

(** Membership of a key in a set of keys of positions. *)
Lemma has_keys (visited : list Position) p :
  has (map positionToKey visited) (positionToKey p) = true <-> In p visited.
Proof.
  unfold has. rewrite existsb_exists. split.
  - intros (k & Hk & He). apply in_map_iff in Hk.
    destruct Hk as (q & <- & Hq). rewrite key_eqb in He.
    apply positionsEqual_true in He. subst. exact Hq.
  - intros H. exists (positionToKey p). split.
    + apply in_map. exact H.
    + apply String.eqb_refl.
Qed.

Lemma add_keys (visited : list Position) p :
  exists visited',
    add (map positionToKey visited) (positionToKey p)
    = map positionToKey visited' /\
    (forall q, In q visited' <-> q = p \/ In q visited) /\
    (~ In p visited -> visited' = visited ++ [p]) /\
    (In p visited -> visited' = visited).
Proof.
  unfold add.
  destruct (has (map positionToKey visited) (positionToKey p)) eqn:H.
  - apply has_keys in H. exists visited. repeat split; auto.
    + intros [-> | Hq]; assumption.
    + intros Hn. contradiction.
  - exists (visited ++ [p]). split; [rewrite map_app; reflexivity |].
    split; [| split; [reflexivity |]].
    + intros q. rewrite in_app_iff. simpl. intuition.
    + intros Hin. apply has_keys in Hin. congruence.
Qed.

End KeyFacts.

(** ** The building service: grid writes *)

Module WriteFacts.
Import Pathfinding Building GridFacts KeyFacts.

Lemma nth_error_replaceAt_eq {A} (arr : list A) i v :
  (i < List.length arr)%nat -> nth_error (replaceAt arr i v) i = Some v.
Proof.
  revert i. induction arr as [| a arr IH]; intros [| i] H; simpl in *;
    try lia; [reflexivity |]. apply IH. lia.
Qed.

Lemma nth_error_replaceAt_neq {A} (arr : list A) i j v :
  i <> j -> nth_error (replaceAt arr i v) j = nth_error arr j.
Proof.
  revert i j. induction arr as [| a arr IH]; intros [| i] [| j] H; simpl;
    try reflexivity; try congruence. apply IH. congruence.
Qed.

Lemma index_replaceAt {A} (arr : list A) (i j : Z) v old :
  index arr i = Some old ->
  index (replaceAt arr (Z.to_nat i) v) j
  = if j =? i then Some v else index arr j.
Proof.
  intros Hi.
  assert (Hr : 0 <= i < len arr) by (apply index_Some_iff; eauto).
  unfold index, len in *. destruct (Z.eqb_spec j i) as [-> | Hne].
  - destruct (Z.ltb_spec i 0); [lia |].
    apply nth_error_replaceAt_eq. lia.
  - destruct (Z.ltb_spec j 0); [reflexivity |].
    apply nth_error_replaceAt_neq. lia.
Qed.

(** A write changes the cell written and no other. *)
Lemma kind_setCell m px py pf v m' q :
  setCell m px py pf v = Ok m' ->
  kind m' q
  = if positionsEqual q (mkPosition px py pf) then Some v else kind m q.
Proof.
  unfold setCell, kind, positionsEqual. simpl.
  destruct (index m px) as [column |] eqn:Hc; simpl; [| discriminate].
  destruct (index column py) as [cells |] eqn:Hcs; simpl; [| discriminate].
  destruct (index cells pf) as [old |] eqn:Ho; [| discriminate].
  intros H. injection H as <-.
  rewrite (index_replaceAt _ _ _ _ _ Hc).
  destruct (Z.eqb_spec (x q) px) as [-> | Hx]; simpl; [| reflexivity].
  rewrite (index_replaceAt _ _ _ _ _ Hcs), Hc.
  destruct (Z.eqb_spec (y q) py) as [-> | Hy]; simpl; [| reflexivity].
  rewrite (index_replaceAt _ _ _ _ _ Ho), Hcs. reflexivity.
Qed.

(** A write needs the cell to be there. *)
Lemma setCell_Ok_iff m px py pf v :
  (exists m', setCell m px py pf v = Ok m') <->
  (exists c, kind m (mkPosition px py pf) = Some c).
Proof.
  unfold setCell, kind. simpl.
  destruct (index m px) as [column |]; simpl.
  - destruct (index column py) as [cells |]; simpl.
    + destruct (index cells pf) as [old |]; split; intros [a Ha];
        eauto; discriminate.
    + split; intros [a Ha]; discriminate.
  - split; intros [a Ha]; discriminate.
Qed.

Lemma cellAt_kind m p c :
  cellAt m (x p) (y p) (floor p) = Ok c -> kind m p = c.
Proof.
  unfold cellAt, kind.
  destruct (index m (x p)) as [column |]; simpl; [| discriminate].
  destruct (index column (y p)) as [cells |]; simpl; [| discriminate].
  congruence.
Qed.

Lemma In_add s k k' : In k (add s k') <-> k = k' \/ In k s.
Proof.
  unfold add. destruct (has s k') eqn:H.
  - split; [auto |]. intros [-> | Hk]; [| exact Hk].
    unfold has in H. apply existsb_exists in H.
    destruct H as (k0 & Hk0 & He). apply String.eqb_eq in He. subst.
    exact Hk0.
  - rewrite in_app_iff. simpl. intuition.
Qed.

End WriteFacts.

(** ** Placing people *)

Module PersonFacts.
Import Pathfinding Building GridFacts NeighborFacts KeyFacts WriteFacts.

Lemma service_isValidPosition_ok px py pf m :
  isValidPosition px py pf m = Ok (inBoundsb m px py pf).
Proof. apply (isValidMapPosition_ok m). Qed.

Lemma inBoundsb_position m p :
  inBoundsb m (x p) (y p) (floor p) = true <-> inBounds m p.
Proof. rewrite inBoundsb_true, position_eta. reflexivity. Qed.

Lemma inBoundsb_position_false m p :
  inBoundsb m (x p) (y p) (floor p) = false <-> ~ inBounds m p.
Proof.
  rewrite <- inBoundsb_position.
  destruct (inBoundsb m (x p) (y p) (floor p)); split; intros H;
    try reflexivity; try discriminate; try congruence;
    exfalso; apply H; reflexivity.
Qed.

(** C9. [addPerson] at a position outside the bounds of the grid throws the
    "Invalid position" error and leaves the service and the world as they
    were, whatever the coordinates (none is clamped); at a Wall or a Fire
    cell it throws as well and leaves them as they were.  Every call either
    throws with the service unchanged, or returns a person that is appended
    alone to the people, the map and the fire untouched: at the given
    position, which is inside the bounds and traversable, with an empty
    path, progress index 0 and not evacuated. *)
Theorem addPerson_all_or_nothing position name s w :
  (~ inBounds (buildingMap s) position ->
   addPerson position name s w
   = (Throw (InvalidPosition (x position) (y position) (floor position)),
      s, w)) /\
  (kind (buildingMap s) position = Some WALL
   \/ kind (buildingMap s) position = Some FIRE ->
   exists e, addPerson position name s w = (Throw e, s, w)) /\
  ((exists e, addPerson position name s w = (Throw e, s, w)) \/
   (exists person w',
      addPerson position name s w
      = (Ok person, withPeople s (people s ++ [person]), w') /\
      Building.position person = position /\
      path person = [] /\ currentPathIndex person = 0 /\
      isEvacuated person = false /\
      inBounds (buildingMap s) position /\
      traversable (kind (buildingMap s) position))).
Proof.
  unfold addPerson. rewrite service_isValidPosition_ok.
  destruct (inBoundsb (buildingMap s) (x position) (y position)
              (floor position)) eqn:Hb.
  - apply inBoundsb_position in Hb.
    destruct (cellAt (buildingMap s) (x position) (y position)
                (floor position)) as [c | e | h] eqn:Hc.
    + apply cellAt_kind in Hc. rewrite Hc.
      split; [intros Hn; contradiction |].
      destruct c as [[] |]; simpl.
      * split; [intros [H | H]; discriminate |]. right.
        eexists. eexists. split; [reflexivity |]. simpl.
        repeat (split; [reflexivity || assumption |]).
        left. reflexivity.
      * split; [eauto |]. left. eauto.
      * split; [eauto |]. left. eauto.
      * split; [intros [H | H]; discriminate |]. right.
        eexists. eexists. split; [reflexivity |]. simpl.
        repeat (split; [reflexivity || assumption |]).
        right. left. reflexivity.
      * split; [intros [H | H]; discriminate |]. right.
        eexists. eexists. split; [reflexivity |]. simpl.
        repeat (split; [reflexivity || assumption |]).
        right. right. reflexivity.
      * split; [intros [H | H]; discriminate |]. left. eauto.
    + split; [intros Hn; contradiction |]. split; [eauto |]. left. eauto.
    + unfold cellAt in Hc.
      destruct (index (buildingMap s) (x position)); simpl in Hc;
        [| discriminate].
      destruct (index l (y position)); simpl in Hc; discriminate.
  - split; [reflexivity |]. split; [eauto |]. left. eauto.
Qed.

Lemma addPerson_all_or_nothing_witness :
  (exists e, addPerson (Examples.at0 0 2) None (Examples.service Examples.exitRoom)
               (Examples.constWorld 0.5) 
             = (Throw e, Examples.service Examples.exitRoom,
                Examples.constWorld 0.5)) /\
  addPerson (Examples.at0 7 2) None (Examples.service Examples.exitRoom)
    (Examples.constWorld 0.5)
  = (Throw (InvalidPosition 7 2 0), Examples.service Examples.exitRoom,
     Examples.constWorld 0.5).
Proof.
  split.
  - apply (addPerson_all_or_nothing (Examples.at0 0 2) None
             (Examples.service Examples.exitRoom) (Examples.constWorld 0.5)).
    left. reflexivity.
  - apply (addPerson_all_or_nothing (Examples.at0 7 2) None
             (Examples.service Examples.exitRoom) (Examples.constWorld 0.5)).
    unfold inBounds. vm_compute. intuition discriminate.
Defined.

End PersonFacts.

(** ** Fire *)

Module FireFacts.
Import Pathfinding Building GridFacts NeighborFacts KeyFacts WriteFacts
       PersonFacts.

Lemma In_adjacent dx dy :
  In (dx, dy) adjacent <->
  -1 <= dx <= 1 /\ -1 <= dy <= 1 /\ ~ (dx = 0 /\ dy = 0).
Proof. apply In_directions. Qed.

(** The candidates of one fire cell. *)
Lemma spreadFrom_targets m rate src offsets acc w l w' :
  spreadFrom m rate src offsets acc w = (Ok l, w') ->
  forall p, In p l ->
    In p acc \/
    (exists dx dy, In (dx, dy) offsets /\
       p = mkPosition (x src + dx) (y src + dy) (floor src) /\
       inBounds m p /\ kind m p = Some WALKABLE).
Proof.
  revert acc w. induction offsets as [| [dx dy] rest IH]; intros acc w;
    simpl.
  - intros H. injection H as <- <-. auto.
  - rewrite service_isValidPosition_ok.
    destruct (inBoundsb m (x src + dx) (y src + dy) (floor src)) eqn:Hb.
    + apply (inBoundsb_true m) in Hb.
      destruct (cellAt m (x src + dx) (y src + dy) (floor src))
        as [c | e | h] eqn:Hc; try discriminate.
      pose proof (cellAt_kind m (mkPosition (x src + dx) (y src + dy)
                                  (floor src)) c Hc) as Hk.
      destruct (cellIs c WALKABLE) eqn:Hw.
      * apply cellIs_true in Hw. subst c.
        destruct (random w) as [r w1].
        intros H p Hp. destruct (IH _ _ H p Hp) as [Hacc | Hnew].
        -- match type of Hacc with
           | context [if ?b then _ else _] => destruct b
           end.
           ++ apply in_app_iff in Hacc. destruct Hacc as [Hacc | Hacc];
                [left; exact Hacc |].
              simpl in Hacc. destruct Hacc as [<- | []].
              right. exists dx, dy. simpl. auto.
           ++ left. exact Hacc.
        -- right. destruct Hnew as (dx' & dy' & Hd & Hrest).
           exists dx', dy'. simpl. auto.
      * intros H p Hp. destruct (IH _ _ H p Hp) as [Hacc | Hnew];
          [left; exact Hacc |].
        right. destruct Hnew as (dx' & dy' & Hd & Hrest).
        exists dx', dy'. simpl. auto.
    + intros H p Hp. destruct (IH _ _ H p Hp) as [Hacc | Hnew];
        [left; exact Hacc |].
      right. destruct Hnew as (dx' & dy' & Hd & Hrest).
      exists dx', dy'. simpl. auto.
Qed.

(** The candidates of a tick come from the fire set the tick began with
    and were Walkable on the map it began with. *)
Lemma spreadCandidates_targets m rate keys acc w l w' :
  spreadCandidates m rate keys acc w = (Ok l, w') ->
  forall p, In p l ->
    In p acc \/
    (exists fireKey src, In fireKey keys /\
       keyToPosition fireKey = Ok src /\ spreadTarget m src p).
Proof.
  revert acc w. induction keys as [| fireKey rest IH]; intros acc w;
    cbn [spreadCandidates].
  - intros H. injection H as <- <-. auto.
  - destruct (keyToPosition fireKey) as [src | e | h] eqn:Hk;
      try discriminate.
    destruct (spreadFrom m rate src adjacent acc w) as [[l1 | e | h] w1]
      eqn:Hs; try discriminate.
    intros H p Hp. destruct (IH _ _ H p Hp) as [Hacc | Hnew].
    + destruct (spreadFrom_targets _ _ _ _ _ _ _ _ Hs p Hacc)
        as [Hacc' | (dx & dy & Hd & -> & Hb & Hw)]; [left; exact Hacc' |].
      right. exists fireKey, src. split; [left; reflexivity |].
      split; [exact Hk |]. apply In_adjacent in Hd.
      unfold spreadTarget. simpl.
      split; [reflexivity |]. split; [lia |]. split; [lia |].
      split; [intros [A B]; lia |]. split; assumption.
    + right. destruct Hnew as (k & src' & Hin & Hrest).
      exists k, src'. split; [right; exact Hin | exact Hrest].
Qed.

(** What applying the candidates does to the service. *)
Lemma applyFire_effect l : forall s r s',
  applyFire l s = (r, s') ->
  people s' = people s /\ timestep s' = timestep s /\
  isSimulationRunning s' = isSimulationRunning s /\
  fireSpreadRate s' = fireSpreadRate s /\
  simulationSpeed s' = simulationSpeed s /\
  (forall k, In k (firePositions s) -> In k (firePositions s')) /\
  (forall k, In k (firePositions s') ->
     In k (firePositions s) \/ exists p, In p l /\ k = positionToKey p) /\
  (forall q, kind (buildingMap s') q = kind (buildingMap s) q \/
     (In q l /\ kind (buildingMap s') q = Some FIRE
      /\ In (positionToKey q) (firePositions s'))).
Proof.
  induction l as [| pos rest IH]; intros s r s'; simpl.
  - intros H. injection H as <- <-. repeat split; auto.
  - destruct (setCell (buildingMap s) (x pos) (y pos) (floor pos) FIRE)
      as [m | e | h] eqn:Hset.
    + intros H. apply IH in H. simpl in H.
      destruct H as (Hp & Ht & Hr & Hf & Hsp & Hsub & Hnew & Hmap).
      repeat (split; [assumption |]).
      split; [| split].
      * intros k Hk. apply Hsub. apply In_add. right. exact Hk.
      * intros k Hk. destruct (Hnew k Hk) as [Hold | (p & Hp' & ->)].
        -- apply In_add in Hold. destruct Hold as [-> | Hold]; eauto.
        -- eauto.
      * intros q. destruct (Hmap q) as [Heq | (Hq & Hk & Hin)].
        -- pose proof (kind_setCell _ _ _ _ _ _ q Hset) as Hq.
           simpl in Heq. rewrite <- Heq in Hq.
           destruct (positionsEqual q _) eqn:He;
             [| left; exact Hq].
           apply positionsEqual_true in He. rewrite position_eta in He.
           subst q. right. split; [left; reflexivity |].
           split; [exact Hq |].
           apply Hsub. apply In_add. left. reflexivity.
        -- right. auto.
    + intros H. injection H as <- <-. repeat split; auto.
    + intros H. injection H as <- <-. repeat split; auto.
Qed.

(** The loops over the people leave the map and the fire alone. *)
Lemma recalculateBlockedPaths_frame s w r s' w' :
  recalculateBlockedPaths s w = (r, s', w') ->
  buildingMap s' = buildingMap s /\ firePositions s' = firePositions s /\
  w' = w.
Proof.
  unfold recalculateBlockedPaths.
  destruct (getExitPositions (buildingMap s)) as [exits | e | h].
  - destruct (forEachPerson _ _) as [r0 people']. intros H.
    injection H as <- <- <-. auto.
  - intros H. injection H as <- <- <-. auto.
  - intros H. injection H as <- <- <-. auto.
Qed.

Lemma movePeople_frame s w r s' w' :
  movePeople s w = (r, s', w') ->
  buildingMap s' = buildingMap s /\ firePositions s' = firePositions s /\
  w' = w.
Proof.
  unfold movePeople. destruct (forEachPerson _ _) as [r0 people'].
  intros H. injection H as <- <- <-. auto.
Qed.

(** What one round of [spreadFire] does. *)
Lemma spreadFire_effect s w r s' w' :
  spreadFire s w = (r, s', w') ->
  (forall k, In k (firePositions s) -> In k (firePositions s')) /\
  (forall k, In k (firePositions s') -> ~ In k (firePositions s) ->
     exists fireKey src p,
       In fireKey (firePositions s) /\ keyToPosition fireKey = Ok src /\
       k = positionToKey p /\ spreadTarget (buildingMap s) src p) /\
  (forall q, kind (buildingMap s') q <> kind (buildingMap s) q ->
     kind (buildingMap s) q = Some WALKABLE /\
     kind (buildingMap s') q = Some FIRE /\
     In (positionToKey q) (firePositions s')).
Proof.
  unfold spreadFire.
  destruct (spreadCandidates (buildingMap s) (fireSpreadRate s)
              (firePositions s) [] w) as [[l | e | h] w1] eqn:Hc.
  - destruct (applyFire l s) as [r0 s0] eqn:Ha. intros H.
    injection H as <- <- <-.
    pose proof (spreadCandidates_targets _ _ _ _ _ _ _ Hc) as Ht.
    destruct (applyFire_effect _ _ _ _ Ha)
      as (_ & _ & _ & _ & _ & Hsub & Hnew & Hmap).
    split; [exact Hsub |]. split.
    + intros k Hk Hn. destruct (Hnew k Hk) as [Hold | (p & Hp & ->)];
        [contradiction |].
      destruct (Ht p Hp) as [[] | (fireKey & src & Hin & Hsrc & Htarget)].
      exists fireKey, src, p. auto.
    + intros q Hq. destruct (Hmap q) as [Heq | (Hin & Hk & Hf)];
        [congruence |].
      destruct (Ht q Hin) as [[] | (fireKey & src & _ & _ & Htarget)].
      split; [apply Htarget |]. split; assumption.
  - intros H. injection H as <- <- <-.
    split; [auto |]. split; [intros k Hk Hn; contradiction |].
    intros q Hq. congruence.
  - intros H. injection H as <- <- <-.
    split; [auto |]. split; [intros k Hk Hn; contradiction |].
    intros q Hq. congruence.
Qed.

Lemma step_stages s w r s' w' :
  step s w = (r, s', w') ->
  exists r1 s1 w1,
    spreadFire s w = (r1, s1, w1) /\
    buildingMap s' = buildingMap s1 /\ firePositions s' = firePositions s1.
Proof.
  unfold step.
  destruct (spreadFire s w) as [[r1 s1] w1] eqn:H1.
  destruct r1 as [u | e | h].
  - destruct (recalculateBlockedPaths s1 w1) as [[r2 s2] w2] eqn:H2.
    apply recalculateBlockedPaths_frame in H2. destruct H2 as (Hm2 & Hf2 & _).
    destruct r2 as [u2 | e | h].
    + destruct (movePeople s2 w2) as [[r3 s3] w3] eqn:H3.
      apply movePeople_frame in H3. destruct H3 as (Hm3 & Hf3 & _).
      destruct r3 as [u3 | e | h]; intros H; injection H as <- <- <-;
        eexists _, _, _; (split; [reflexivity |]); simpl;
        split; congruence.
    + intros H. injection H as <- <- <-.
      eexists _, _, _. split; [reflexivity |]. split; congruence.
    + intros H. injection H as <- <- <-.
      eexists _, _, _. split; [reflexivity |]. split; congruence.
  - intros H. injection H as <- <- <-.
    eexists _, _, _. split; [reflexivity |]. split; reflexivity.
  - intros H. injection H as <- <- <-.
    eexists _, _, _. split; [reflexivity |]. split; reflexivity.
Qed.

Lemma step_effect s w r s' w' :
  step s w = (r, s', w') ->
  (forall k, In k (firePositions s) -> In k (firePositions s')) /\
  (forall k, In k (firePositions s') -> ~ In k (firePositions s) ->
     exists fireKey src p,
       In fireKey (firePositions s) /\ keyToPosition fireKey = Ok src /\
       k = positionToKey p /\ spreadTarget (buildingMap s) src p) /\
  (forall q, kind (buildingMap s') q <> kind (buildingMap s) q ->
     kind (buildingMap s) q = Some WALKABLE /\
     kind (buildingMap s') q = Some FIRE /\
     In (positionToKey q) (firePositions s')).
Proof.
  intros H. apply step_stages in H.
  destruct H as (r1 & s1 & w1 & Hs & Hm & Hf). rewrite Hm, Hf.
  exact (spreadFire_effect _ _ _ _ _ Hs).
Qed.

Lemma startFire_effect position s w r s' w' :
  startFire position s w = (r, s', w') ->
  (s' = s /\ w' = w /\ r <> Ok true) \/
  (r = Ok true /\ w' = w /\
   kind (buildingMap s) position = Some WALKABLE /\
   (exists m, setCell (buildingMap s) (x position) (y position)
                (floor position) FIRE = Ok m /\
              s' = withFire (withMap s m)
                     (add (firePositions s) (positionToKey position)))).
Proof.
  unfold startFire. rewrite service_isValidPosition_ok.
  destruct (inBoundsb _ _ _ _).
  - destruct (cellAt _ _ _ _) as [c | e | h] eqn:Hc.
    + apply cellAt_kind in Hc.
      destruct (cellIs c WALKABLE) eqn:Hw.
      * apply cellIs_true in Hw. rewrite Hw in Hc. clear Hw.
        destruct (setCell _ _ _ _ _) as [m | e | h] eqn:Hset;
          intros H; injection H as <- <- <-.
        -- right. split; [reflexivity |]. split; [reflexivity |].
           split; [exact Hc |]. exists m. split; reflexivity.
        -- left. repeat split; discriminate.
        -- left. repeat split; discriminate.
      * intros H; injection H as <- <- <-.
        left. repeat split; discriminate.
    + intros H; injection H as <- <- <-. left. repeat split; discriminate.
    + intros H; injection H as <- <- <-. left. repeat split; discriminate.
  - intros H; injection H as <- <- <-. left. repeat split; discriminate.
Qed.

Lemma addPerson_frame position name s w r s' w' :
  addPerson position name s w = (r, s', w') ->
  buildingMap s' = buildingMap s /\ firePositions s' = firePositions s.
Proof.
  unfold addPerson. rewrite service_isValidPosition_ok.
  destruct (inBoundsb _ _ _ _).
  - destruct (cellAt _ _ _ _) as [c | e | h].
    + destruct (negb _ && negb _ && negb _);
        intros H; injection H as <- <- <-; auto.
    + intros H; injection H as <- <- <-; auto.
    + intros H; injection H as <- <- <-; auto.
  - intros H; injection H as <- <- <-; auto.
Qed.

(** Every call but the reset keeps the keys of the fire set. *)
Lemma run_keeps_fire op s w :
  isReset op = false ->
  forall k, In k (firePositions s) -> In k (firePositions (fst (run op s w))).
Proof.
  intros Hop k Hk.
  destruct op as [pos | pos nm | pid | pid newPath | | | | | | rate];
    simpl in *; try discriminate; try exact Hk.
  - destruct (startFire pos s w) as [[r s'] w'] eqn:H. simpl.
    apply startFire_effect in H.
    destruct H as [(-> & _) | (_ & _ & _ & m & _ & ->)]; [exact Hk |].
    simpl. apply In_add. right. exact Hk.
  - destruct (addPerson pos nm s w) as [[r s'] w'] eqn:H. simpl.
    apply addPerson_frame in H. destruct H as [_ ->]. exact Hk.
  - destruct (step s w) as [[r s'] w'] eqn:H. simpl.
    apply step_effect in H. apply H. exact Hk.
  - destruct (recalculateBlockedPaths s w) as [[r s'] w'] eqn:H. simpl.
    apply recalculateBlockedPaths_frame in H. destruct H as (_ & -> & _).
    exact Hk.
Qed.

(** C6. A tick ([step]), however it ends, keeps every key of the fire set;
    a key it adds is the key of a cell on the same floor as a cell that was
    in the fire set when the tick began, one of its 8 neighbours, inside the
    bounds and Walkable on the map the tick began with (so a cell ignited
    in the tick ignites nothing in that tick); the only cells whose kind
    changes go from Walkable to Fire and enter the fire set.  Every call of
    the service except [resetSimulation] keeps every key of the fire
    set. *)
Theorem fire_grows_by_spread s w r s' w' :
  step s w = (r, s', w') ->
  (forall k, In k (firePositions s) -> In k (firePositions s')) /\
  (forall k, In k (firePositions s') -> ~ In k (firePositions s) ->
     exists fireKey src p,
       In fireKey (firePositions s) /\ keyToPosition fireKey = Ok src /\
       k = positionToKey p /\ spreadTarget (buildingMap s) src p) /\
  (forall q, kind (buildingMap s') q <> kind (buildingMap s) q ->
     kind (buildingMap s) q = Some WALKABLE /\
     kind (buildingMap s') q = Some FIRE /\
     In (positionToKey q) (firePositions s')) /\
  (forall op s0 w0 k, isReset op = false -> In k (firePositions s0) ->
     In k (firePositions (fst (run op s0 w0)))).
Proof.
  intros H. destruct (step_effect _ _ _ _ _ H) as (H1 & H2 & H3).
  repeat (split; [assumption |]).
  intros op s0 w0 k Hop Hk. apply run_keeps_fire; assumption.
Qed.


Lemma fire_grows_by_spread_witness :
  let w := Examples.constWorld 0 in
  let s := Examples.burning in
  let s' := snd (fst (step s w)) in
  (forall k, In k (firePositions s) -> In k (firePositions s')) /\
  (forall k, In k (firePositions s') -> ~ In k (firePositions s) ->
     exists fireKey src p,
       In fireKey (firePositions s) /\ keyToPosition fireKey = Ok src /\
       k = positionToKey p /\ spreadTarget (buildingMap s) src p) /\
  (forall q, kind (buildingMap s') q <> kind (buildingMap s) q ->
     kind (buildingMap s) q = Some WALKABLE /\
     kind (buildingMap s') q = Some FIRE /\
     In (positionToKey q) (firePositions s')) /\
  (forall op s0 w0 k, isReset op = false -> In k (firePositions s0) ->
     In k (firePositions (fst (run op s0 w0)))).
Proof.
  cbv zeta.
  apply (fire_grows_by_spread Examples.burning (Examples.constWorld 0)
           (fst (fst (step Examples.burning (Examples.constWorld 0))))
           (snd (fst (step Examples.burning (Examples.constWorld 0))))
           (snd (step Examples.burning (Examples.constWorld 0)))).
  destruct (step Examples.burning (Examples.constWorld 0)) as [[r s'] w'].
  reflexivity.
Defined.

(** The tick of the witness: the fire at (2, 2) takes the 7 Walkable cells
    around it and spares the exit at (1, 2). *)
Example step_burning :
  firePositions (snd (fst (step Examples.burning (Examples.constWorld 0))))
  = ["2,2,0"; "1,1,0"; "1,3,0"; "2,1,0"; "2,3,0"; "3,1,0"; "3,2,0";
     "3,3,0"]%string.
Proof. vm_compute. reflexivity. Qed.


End FireFacts.

(** ** Cells the fire never takes *)

Module StructureFacts.
Import Pathfinding Building GridFacts NeighborFacts KeyFacts WriteFacts
       PersonFacts FireFacts.

Lemma fireInvariant_init s :
  firePositions s = [] -> fireInvariant (buildingMap s) s.
Proof.
  intros Hf. unfold fireInvariant. rewrite Hf.
  split; [intros p; reflexivity |]. split; [auto |]. intros k [].
Qed.

Lemma walkable_was_walkable m0 s p :
  fireInvariant m0 s -> kind (buildingMap s) p = Some WALKABLE ->
  kind m0 p = Some WALKABLE.
Proof.
  intros (Hshape & Hkeep & _) Hk.
  destruct (kind m0 p) as [c |] eqn:H0.
  - destruct c; try reflexivity;
      (rewrite (Hkeep p _ H0) in Hk; [discriminate | discriminate]).
  - apply Hshape in H0. congruence.
Qed.

(** Writing to a cell that was Walkable keeps the invariant of the map. *)
Lemma fireInvariant_setCell m0 s p v m fire :
  fireInvariant m0 s -> kind m0 p = Some WALKABLE ->
  setCell (buildingMap s) (x p) (y p) (floor p) v = Ok m ->
  (forall k, In k fire ->
     exists q, k = positionToKey q /\ kind m0 q = Some WALKABLE) ->
  fireInvariant m0 (withFire (withMap s m) fire).
Proof.
  intros (Hshape & Hkeep & Hkeys) H0 Hset Hfire.
  unfold fireInvariant. simpl.
  split; [| split; [| exact Hfire]].
  - intros q. rewrite (kind_setCell _ _ _ _ _ _ q Hset), position_eta.
    destruct (positionsEqual q p) eqn:He; [| apply Hshape].
    apply positionsEqual_true in He. subst q.
    split; intros H; congruence.
  - intros q c Hq Hc.
    rewrite (kind_setCell _ _ _ _ _ _ q Hset), position_eta.
    destruct (positionsEqual q p) eqn:He; [| apply Hkeep; assumption].
    apply positionsEqual_true in He. subst q. congruence.
Qed.

Lemma keys_add m0 fire p :
  (forall k, In k fire ->
     exists q, k = positionToKey q /\ kind m0 q = Some WALKABLE) ->
  kind m0 p = Some WALKABLE ->
  forall k, In k (add fire (positionToKey p)) ->
    exists q, k = positionToKey q /\ kind m0 q = Some WALKABLE.
Proof.
  intros Hkeys Hp k Hk. apply In_add in Hk.
  destruct Hk as [-> | Hk]; eauto.
Qed.

Lemma applyFire_invariant m0 l : forall s r s',
  (forall p, In p l -> kind m0 p = Some WALKABLE) ->
  fireInvariant m0 s -> applyFire l s = (r, s') -> fireInvariant m0 s'.
Proof.
  induction l as [| pos rest IH]; intros s r s' Hl Hinv; simpl.
  - intros H. injection H as <- <-. exact Hinv.
  - destruct (setCell (buildingMap s) (x pos) (y pos) (floor pos) FIRE)
      as [m | e | h] eqn:Hset.
    + apply IH; [intros p Hp; apply Hl; right; exact Hp |].
      apply (fireInvariant_setCell m0 s pos FIRE m); auto.
      * apply Hl. left. reflexivity.
      * apply keys_add; [apply Hinv |]. apply Hl. left. reflexivity.
    + intros H. injection H as <- <-. exact Hinv.
    + intros H. injection H as <- <-. exact Hinv.
Qed.

Lemma spreadFire_invariant m0 s w r s' w' :
  fireInvariant m0 s -> spreadFire s w = (r, s', w') -> fireInvariant m0 s'.
Proof.
  intros Hinv. unfold spreadFire.
  destruct (spreadCandidates (buildingMap s) (fireSpreadRate s)
              (firePositions s) [] w) as [[l | e | h] w1] eqn:Hc.
  - destruct (applyFire l s) as [r0 s0] eqn:Ha. intros H.
    injection H as <- <- <-.
    apply (applyFire_invariant m0 l s r0 s0); auto.
    intros p Hp.
    destruct (spreadCandidates_targets _ _ _ _ _ _ _ Hc p Hp)
      as [[] | (k & src & _ & _ & Ht)].
    apply (walkable_was_walkable m0 s); [exact Hinv | apply Ht].
  - intros H. injection H as <- <- <-. exact Hinv.
  - intros H. injection H as <- <- <-. exact Hinv.
Qed.

Lemma fireInvariant_frame m0 s s' :
  buildingMap s' = buildingMap s -> firePositions s' = firePositions s ->
  fireInvariant m0 s -> fireInvariant m0 s'.
Proof. unfold fireInvariant. intros -> ->. auto. Qed.

Lemma step_invariant m0 s w r s' w' :
  fireInvariant m0 s -> step s w = (r, s', w') -> fireInvariant m0 s'.
Proof.
  intros Hinv H. apply step_stages in H.
  destruct H as (r1 & s1 & w1 & Hs & Hm & Hf).
  apply (fireInvariant_frame m0 s1); auto.
  apply (spreadFire_invariant m0 s w r1 s1 w1); assumption.
Qed.

(** The reset writes Walkable to cells that were Walkable. *)
Lemma clearFire_invariant m0 keys : forall s m r m',
  buildingMap s = m ->
  (forall k, In k keys ->
     exists q, k = positionToKey q /\ kind m0 q = Some WALKABLE) ->
  fireInvariant m0 s -> clearFire keys m = (r, m') ->
  fireInvariant m0 (withMap s m').
Proof.
  induction keys as [| k rest IH]; intros s m r m' Hm Hkeys Hinv; simpl.
  - intros H. injection H as <- <-. subst m. destruct s; exact Hinv.
  - destruct (Hkeys k (or_introl eq_refl)) as (q & -> & Hq).
    rewrite keyToPosition_positionToKey.
    destruct (setCell m (x q) (y q) (floor q) WALKABLE) as [m1 | e | h]
      eqn:Hset.
    + intros H.
      assert (Hinv1 : fireInvariant m0 (withMap s m1)).
      { subst m.
        pose proof (fireInvariant_setCell m0 s q WALKABLE m1 (firePositions s)
                      Hinv Hq Hset (proj2 (proj2 Hinv))) as H1.
        destruct s; exact H1. }
      specialize (IH (withMap s m1) m1 r m' eq_refl
                    (fun k' Hk' => Hkeys k' (or_intror Hk')) Hinv1 H).
      destruct s; exact IH.
    + intros H. injection H as <- <-. subst m. destruct s; exact Hinv.
    + intros H. injection H as <- <-. subst m. destruct s; exact Hinv.
Qed.

Lemma resetSimulation_invariant m0 s w :
  fireInvariant m0 s ->
  fireInvariant m0 (snd (fst (resetSimulation s w))).
Proof.
  intros Hinv. unfold resetSimulation.
  assert (Hinv' : fireInvariant m0 (withRunning s false))
    by (apply (fireInvariant_frame m0 s); auto).
  destruct (clearFire (firePositions (withRunning s false))
              (buildingMap (withRunning s false))) as [r m'] eqn:Hc.
  pose proof (clearFire_invariant m0 _ (withRunning s false) _ r m' eq_refl
                (proj2 (proj2 Hinv')) Hinv' Hc) as H.
  destruct r as [u | e | h]; simpl; try exact H.
  destruct H as (Hshape & Hkeep & _). unfold fireInvariant. simpl.
  split; [exact Hshape |]. split; [exact Hkeep |]. intros k [].
Qed.

Lemma startFire_invariant m0 position s w :
  fireInvariant m0 s ->
  fireInvariant m0 (snd (fst (startFire position s w))).
Proof.
  intros Hinv. destruct (startFire position s w) as [[r s'] w'] eqn:H.
  simpl. apply startFire_effect in H.
  destruct H as [(-> & _) | (_ & _ & Hk & m & Hset & ->)]; [exact Hinv |].
  pose proof (walkable_was_walkable m0 s position Hinv Hk) as H0.
  apply (fireInvariant_setCell m0 s position FIRE m); auto.
  apply keys_add; [apply Hinv | exact H0].
Qed.

Lemma run_invariant m0 op s w :
  fireInvariant m0 s -> fireInvariant m0 (fst (run op s w)).
Proof.
  intros Hinv.
  destruct op as [pos | pos nm | pid | pid newPath | | | | | | rate];
    simpl; try exact Hinv.
  - apply startFire_invariant. exact Hinv.
  - destruct (addPerson pos nm s w) as [[r s'] w'] eqn:H. simpl.
    apply addPerson_frame in H. destruct H as [Hm Hf].
    apply (fireInvariant_frame m0 s); assumption.
  - apply resetSimulation_invariant. exact Hinv.
  - destruct (step s w) as [[r s'] w'] eqn:H. simpl.
    apply (step_invariant m0 s w r s' w'); assumption.
  - destruct (recalculateBlockedPaths s w) as [[r s'] w'] eqn:H. simpl.
    apply recalculateBlockedPaths_frame in H. destruct H as (Hm & Hf & _).
    apply (fireInvariant_frame m0 s); assumption.
Qed.

Lemma runAll_invariant m0 ops : forall s w,
  fireInvariant m0 s -> fireInvariant m0 (fst (runAll ops s w)).
Proof.
  induction ops as [| op rest IH]; intros s w Hinv; simpl; [exact Hinv |].
  destruct (run op s w) as [s' w'] eqn:H. apply IH.
  change s' with (fst (s', w')). rewrite <- H. apply run_invariant.
  exact Hinv.
Qed.

(** C10. From a service with an empty fire set, after any sequence of calls
    ([startFire], ticks, resets, placing and removing people, ...), every
    cell that was Stairs, Exit or Wall has the kind it had; [startFire] at a
    cell that is not Walkable returns [false] and changes nothing; and a cell
    whose kind a [startFire] or a tick changes was Walkable and is Fire. *)
Theorem structure_never_burns s0 w0 ops p c position c' s w :
  (firePositions s0 = [] ->
   kind (buildingMap s0) p = Some c ->
   c = STAIRS \/ c = EXIT \/ c = WALL ->
   kind (buildingMap (fst (runAll ops s0 w0))) p = Some c) /\
  (kind (buildingMap s) position = Some c' -> c' <> WALKABLE ->
   startFire position s w = (Ok false, s, w)) /\
  (forall q,
     kind (buildingMap (snd (fst (startFire position s w)))) q
     <> kind (buildingMap s) q ->
     kind (buildingMap s) q = Some WALKABLE /\
     kind (buildingMap (snd (fst (startFire position s w)))) q = Some FIRE) /\
  (forall q,
     kind (buildingMap (snd (fst (step s w)))) q <> kind (buildingMap s) q ->
     kind (buildingMap s) q = Some WALKABLE /\
     kind (buildingMap (snd (fst (step s w)))) q = Some FIRE).
Proof.
  split; [| split; [| split]].
  - intros Hf Hk Hc.
    pose proof (runAll_invariant (buildingMap s0) ops s0 w0
                  (fireInvariant_init s0 Hf)) as (_ & Hkeep & _).
    apply Hkeep; [exact Hk |]. destruct Hc as [-> | [-> | ->]]; discriminate.
  - intros Hk Hc. unfold startFire. rewrite service_isValidPosition_ok.
    destruct (inBoundsb _ _ _ _); [| reflexivity].
    assert (Hcell : cellAt (buildingMap s) (x position) (y position)
                      (floor position) = Ok (Some c')).
    { unfold cellAt. unfold kind in Hk.
      destruct (index (buildingMap s) (x position)); simpl; [| discriminate].
      destruct (index l (y position)); simpl; [| discriminate].
      rewrite Hk. reflexivity. }
    rewrite Hcell. destruct c'; simpl; try reflexivity. congruence.
  - intros q Hq.
    destruct (startFire position s w) as [[r s'] w'] eqn:H. simpl in *.
    apply startFire_effect in H.
    destruct H as [(-> & _) | (_ & _ & Hk & m & Hset & ->)]; [congruence |].
    simpl in *. rewrite (kind_setCell _ _ _ _ _ _ q Hset), position_eta in *.
    destruct (positionsEqual q position) eqn:He; [| congruence].
    apply positionsEqual_true in He. subst q. auto.
  - intros q Hq.
    destruct (step s w) as [[r s'] w'] eqn:H. simpl in *.
    destruct (step_effect _ _ _ _ _ H) as (_ & _ & Hmap).
    destruct (Hmap q Hq) as (H1 & H2 & _). auto.
Qed.

Lemma structure_never_burns_witness :
  kind (buildingMap
          (fst (runAll [OpStartFire (Examples.at0 2 2); OpStep; OpStep;
                        OpStartFire (Examples.at0 1 2); OpResetSimulation;
                        OpStep]
                  (Examples.service Examples.exitRoom)
                  (Examples.constWorld 0)))) (Examples.at0 1 2)
  = Some EXIT /\
  startFire (Examples.at0 1 2) (Examples.service Examples.exitRoom)
    (Examples.constWorld 0)
  = (Ok false, Examples.service Examples.exitRoom, Examples.constWorld 0).
Proof.
  split.
  - apply (structure_never_burns (Examples.service Examples.exitRoom)
             (Examples.constWorld 0) _ (Examples.at0 1 2) EXIT
             (Examples.at0 1 2) EXIT (Examples.service Examples.exitRoom)
             (Examples.constWorld 0)).
    + reflexivity.
    + reflexivity.
    + right. left. reflexivity.
  - apply (structure_never_burns (Examples.service Examples.exitRoom)
             (Examples.constWorld 0) [] (Examples.at0 1 2) EXIT
             (Examples.at0 1 2) EXIT (Examples.service Examples.exitRoom)
             (Examples.constWorld 0)).
    + reflexivity.
    + discriminate.
Defined.

End StructureFacts.

(** ** Paths *)

Module PathFacts.
Import Pathfinding GridFacts NeighborFacts KeyFacts.

Lemma legalPath_tail m p rest : legalPath m (p :: rest) -> legalPath m rest.
Proof. destruct rest; simpl; tauto. Qed.

Lemma legalPath_app_r m pre : forall suf,
  legalPath m (pre ++ suf) -> legalPath m suf.
Proof.
  induction pre as [| p pre IH]; intros suf H; [exact H |].
  apply IH. apply (legalPath_tail m p). exact H.
Qed.

(** Two consecutive positions of a legal path are neighbours. *)
Lemma legalPath_step m pre p q suf :
  legalPath m (pre ++ p :: q :: suf) -> isNeighbor m p q.
Proof. intros H. apply legalPath_app_r in H. simpl in H. tauto. Qed.

Lemma last_snoc {A} (l : list A) a d : last (l ++ [a]) d = a.
Proof. apply last_last. Qed.

Lemma legalPath_snoc m path p q d :
  legalPath m path -> path <> [] -> last path d = p -> isNeighbor m p q ->
  legalPath m (path ++ [q]).
Proof.
  induction path as [| a rest IH]; intros Hl Hne Hlast Hn; [congruence |].
  destruct rest as [| b rest].
  - simpl in *. subst. auto.
  - change ((a :: b :: rest) ++ [q]) with (a :: b :: (rest ++ [q])).
    simpl in Hl. destruct Hl as [Hab Hl]. split; [exact Hab |].
    apply IH; auto; discriminate.
Qed.

Lemma hd_error_snoc {A} (l : list A) a s :
  hd_error l = Some s -> hd_error (l ++ [a]) = Some s.
Proof. destruct l; simpl; [discriminate | auto]. Qed.

Lemma last_app_cons {A} (pre : list A) a suf d :
  last (pre ++ a :: suf) d = last (a :: suf) d.
Proof.
  induction pre as [| b pre IH]; [reflexivity |].
  change ((b :: pre) ++ a :: suf) with (b :: (pre ++ a :: suf)).
  rewrite <- IH. destruct (pre ++ a :: suf) eqn:E; [| reflexivity].
  destruct pre; discriminate.
Qed.

(** The last occurrence of an element of a list. *)
Lemma in_split_last {A} (a : A) (l : list A) :
  (forall b c : A, {b = c} + {b <> c}) ->
  In a l -> exists l1 l2, l = l1 ++ a :: l2 /\ ~ In a l2.
Proof.
  intros dec. induction l as [| b l IH]; intros H; [destruct H |].
  destruct (in_dec dec a l) as [Hin | Hnin].
  - destruct (IH Hin) as (l1 & l2 & -> & Hn).
    exists (b :: l1), l2. split; [reflexivity | exact Hn].
  - destruct H as [<- | H]; [| contradiction].
    exists [], l. split; [reflexivity | exact Hnin].
Qed.

Lemma position_eq_dec (p q : Position) : {p = q} + {p <> q}.
Proof.
  destruct (positionsEqual p q) eqn:H.
  - left. apply positionsEqual_true. exact H.
  - right. intros E. apply positionsEqual_true in E. congruence.
Qed.

Lemma legalPathb_true m path : legalPathb m path = true -> legalPath m path.
Proof.
  induction path as [| p rest IH]; [intros _; exact I |].
  destruct rest as [| q rest]; [intros _; exact I |].
  intros H.
  assert (E : legalPathb m (p :: q :: rest)
              = match getNeighbors p m with
                | Ok neighbors =>
                    existsb (positionsEqual q) neighbors
                    && legalPathb m (q :: rest)
                | _ => false
                end) by reflexivity.
  rewrite E in H. clear E.
  change (isNeighbor m p q /\ legalPath m (q :: rest)).
  destruct (getNeighbors p m) as [neighbors | e | h] eqn:Hn; try discriminate.
  apply andb_true_iff in H. destruct H as [H1 H2].
  split; [| apply IH; exact H2].
  exists neighbors. split; [exact Hn |].
  apply existsb_exists in H1. destruct H1 as (q' & Hq & He).
  apply positionsEqual_true in He. subst. exact Hq.
Qed.

Lemma pathFromTob_true m start goal path :
  pathFromTob m start goal path = true -> pathFromTo m start goal path.
Proof.
  unfold pathFromTob, pathFromTo. destruct path as [| p rest];
    [discriminate |].
  intros H. rewrite !andb_true_iff in H. destruct H as [[H1 H2] H3].
  apply positionsEqual_true in H1, H2. subst.
  repeat split; try assumption; try discriminate.
  apply legalPathb_true. exact H3.
Qed.

End PathFacts.

(** ** Breadth-first search *)

Module BfsFacts.
Import Pathfinding GridFacts NeighborFacts KeyFacts PathFacts.

Lemma pushUnvisited_eq path visited neighbors : forall queue,
  pushUnvisited path visited neighbors queue
  = queue ++ map (fun nb => (nb, path ++ [nb]))
               (filter (fun nb => negb (has visited (positionToKey nb)))
                  neighbors).
Proof.
  induction neighbors as [| nb rest IH]; intros queue; simpl.
  - rewrite app_nil_r. reflexivity.
  - rewrite IH. destruct (negb (has visited (positionToKey nb))); simpl.
    + rewrite <- app_assoc. reflexivity.
    + reflexivity.
Qed.

Lemma has_add visited k k' :
  has (add visited k) k' = String.eqb k' k || has visited k'.
Proof.
  unfold add. destruct (has visited k) eqn:H.
  - destruct (String.eqb_spec k' k) as [-> | Hne]; simpl; [| reflexivity].
    rewrite H. reflexivity.
  - unfold has. rewrite existsb_app. simpl. rewrite orb_false_r.
    apply orb_comm.
Qed.

Lemma has_add_position visited p q :
  has (add visited (positionToKey p)) (positionToKey q)
  = positionsEqual q p || has visited (positionToKey q).
Proof. rewrite has_add, key_eqb. reflexivity. Qed.

(** The head of a levelled queue has a shortest path, and no path is longer
    than it by more than one position. *)
Lemma levelled_head pos path queue :
  levelled ((pos, path) :: queue) ->
  forall pos' path', In (pos', path') queue ->
    (List.length path <= List.length path' <= List.length path + 1)%nat.
Proof.
  intros (d & front & back & Hq & Hf & Hb) pos' path' Hin.
  rewrite Forall_forall in Hf, Hb.
  destruct front as [| e front]; simpl in Hq.
  - destruct back as [| e back]; [discriminate |].
    injection Hq as <- <-.
    pose proof (Hb (pos, path) (or_introl eq_refl)) as H1.
    pose proof (Hb (pos', path') (or_intror Hin)) as H2. simpl in *. lia.
  - injection Hq as <- ->.
    pose proof (Hf (pos, path) (or_introl eq_refl)) as H1. simpl in H1.
    apply in_app_iff in Hin. destruct Hin as [Hin | Hin].
    + pose proof (Hf (pos', path') (or_intror Hin)) as H2. simpl in *. lia.
    + pose proof (Hb (pos', path') Hin) as H2. simpl in *. lia.
Qed.

Lemma levelled_tail e queue : levelled (e :: queue) -> levelled queue.
Proof.
  intros (d & front & back & Hq & Hf & Hb).
  destruct front as [| e' front]; simpl in Hq.
  - destruct back as [| e' back]; [discriminate |].
    injection Hq as <- <-. inversion Hb; subst.
    exists (S d), queue, []. rewrite app_nil_r. auto.
  - injection Hq as <- ->. inversion Hf; subst.
    exists (List.length (snd e)), front, back. auto.
Qed.

Lemma levelled_push pos path queue (newer : list (Position * list Position)) :
  levelled ((pos, path) :: queue) ->
  Forall (fun e => List.length (snd e) = S (List.length path)) newer ->
  levelled (queue ++ newer).
Proof.
  intros (d & front & back & Hq & Hf & Hb) Hn.
  destruct front as [| e front]; simpl in Hq.
  - destruct back as [| e back]; [discriminate |].
    injection Hq as <- <-. inversion Hb as [| ? ? He Hb']; subst.
    simpl in He. exists (S d), queue, newer. rewrite <- He.
    split; [reflexivity |]. split; [| exact Hn].
    rewrite He. exact Hb'.
  - injection Hq as <- ->. inversion Hf as [| ? ? He Hf']; subst.
    simpl in *. exists (List.length path), front, (back ++ newer).
    rewrite app_assoc. split; [reflexivity |]. split; [exact Hf' |].
    apply Forall_app. auto.
Qed.

Section Search.
Variable buildingMap : BuildingMap.
Variables start goal : Position.

Lemma entriesLegal_push pos path neighbors visited queue :
  entriesLegal buildingMap start ((pos, path) :: queue) ->
  getNeighbors pos buildingMap = Ok neighbors ->
  entriesLegal buildingMap start
    (pushUnvisited path visited neighbors queue).
Proof.
  intros Hl Hn pos' path' Hin. rewrite pushUnvisited_eq in Hin.
  apply in_app_iff in Hin. destruct Hin as [Hin | Hin].
  - apply Hl. right. exact Hin.
  - apply in_map_iff in Hin. destruct Hin as (nb & Heq & Hnb).
    injection Heq as <- <-. apply filter_In in Hnb. destruct Hnb as [Hnb _].
    destruct (Hl pos path (or_introl eq_refl)) as (Hhd & Hlast & Hne & Hleg).
    unfold pathFromTo.
    split; [apply hd_error_snoc; exact Hhd |].
    split; [apply last_snoc |].
    split; [destruct path; discriminate |].
    apply (legalPath_snoc buildingMap path pos nb start); auto.
    exists neighbors. auto.
Qed.

(** What the search returns is a path from [start] to [goal]. *)
Lemma bfsLoop_legal fuel : forall queue visited result,
  entriesLegal buildingMap start queue ->
  bfsLoop fuel goal buildingMap queue visited = Ok (Some result) ->
  pathFromTo buildingMap start goal result.
Proof.
  induction fuel as [| fuel IH]; intros queue visited result Hl; simpl;
    [discriminate |].
  destruct queue as [| [pos path] queue]; [discriminate |].
  destruct (positionsEqual pos goal) eqn:Hg.
  - intros H. injection H as <-. apply positionsEqual_true in Hg. subst.
    apply Hl. left. reflexivity.
  - destruct (has visited (positionToKey pos)).
    + apply IH. intros p pa Hin. apply Hl. right. exact Hin.
    + destruct (getNeighbors pos buildingMap) as [neighbors | e | h] eqn:Hn;
        try discriminate.
      simpl. apply IH. apply (entriesLegal_push pos path); assumption.
Qed.

Variable route : list Position.
Hypothesis Hroute : pathFromTo buildingMap start goal route.

Lemma onTheWay_skip visited pos path queue :
  has visited (positionToKey pos) = true ->
  onTheWay visited ((pos, path) :: queue) route ->
  onTheWay visited queue route.
Proof.
  intros Hv (pre & pos' & suf & path' & Hr & Hin & Hlen & Hun).
  exists pre, pos', suf, path'. repeat split; auto.
  destruct Hin as [Heq | Hin]; [| exact Hin].
  injection Heq as <- <-.
  rewrite (Hun pos (or_introl eq_refl)) in Hv. discriminate.
Qed.

Lemma onTheWay_expand visited pos path queue neighbors :
  positionsEqual pos goal = false ->
  getNeighbors pos buildingMap = Ok neighbors ->
  levelled ((pos, path) :: queue) ->
  onTheWay visited ((pos, path) :: queue) route ->
  onTheWay (add visited (positionToKey pos))
    (pushUnvisited path (add visited (positionToKey pos)) neighbors queue)
    route.
Proof.
  intros Hg Hn Hlev (pre & pos' & suf & path' & Hr & Hin & Hlen & Hun).
  assert (Hhead : (List.length path <= List.length path')%nat).
  { destruct Hin as [Heq | Hin]; [injection Heq as <- <-; lia |].
    apply (levelled_head pos path queue Hlev pos' path' Hin). }
  rewrite pushUnvisited_eq.
  destruct (in_dec position_eq_dec pos (pos' :: suf)) as [Hon | Hoff].
  - (* the route passes through [pos]: go on from its last passage *)
    destruct (in_split_last pos (pos' :: suf) position_eq_dec Hon)
      as (l1 & l2 & Hsplit & Hlast).
    assert (Hroute' : route = (pre ++ l1) ++ pos :: l2)
      by (rewrite <- app_assoc, <- Hsplit; exact Hr).
    destruct Hroute as (_ & Hend & _ & Hleg).
    destruct l2 as [| nxt l2].
    + exfalso. rewrite Hroute', last_app_cons in Hend. simpl in Hend.
      subst. rewrite positionsEqual_refl in Hg. discriminate.
    + assert (Hnb : In nxt neighbors).
      { rewrite Hroute' in Hleg. apply legalPath_step in Hleg.
        destruct Hleg as (l & Hl & Hi). congruence. }
      assert (Hfresh : forall q, In q (nxt :: l2) ->
                has (add visited (positionToKey pos)) (positionToKey q)
                = false).
      { intros q Hq. rewrite has_add_position. apply orb_false_iff. split.
        - apply not_true_iff_false. intros He.
          apply positionsEqual_true in He. subst q. contradiction.
        - apply Hun. rewrite Hsplit. apply in_app_iff. right. right.
          exact Hq. }
      exists ((pre ++ l1) ++ [pos]), nxt, l2, (path ++ [nxt]).
      split; [rewrite <- app_assoc; exact Hroute' |].
      split; [| split; [| exact Hfresh]].
      * apply in_app_iff. right. apply in_map_iff. exists nxt.
        split; [reflexivity |]. apply filter_In. split; [exact Hnb |].
        rewrite (Hfresh nxt (or_introl eq_refl)). reflexivity.
      * rewrite !length_app. simpl. lia.
  - (* the route does not pass through [pos] any more *)
    exists pre, pos', suf, path'. split; [exact Hr |].
    split; [| split; [exact Hlen |]].
    + destruct Hin as [Heq | Hin].
      * injection Heq as <- <-. exfalso. apply Hoff. left. reflexivity.
      * apply in_app_iff. left. exact Hin.
    + intros q Hq. rewrite has_add_position. apply orb_false_iff. split.
      * apply not_true_iff_false. intros He.
        apply positionsEqual_true in He. subst q. contradiction.
      * apply Hun. exact Hq.
Qed.

(** What the search returns is no longer than [route]. *)
Lemma bfsLoop_minimal fuel : forall queue visited result,
  levelled queue -> onTheWay visited queue route ->
  bfsLoop fuel goal buildingMap queue visited = Ok (Some result) ->
  (List.length result <= List.length route)%nat.
Proof.
  induction fuel as [| fuel IH]; intros queue visited result Hlev Hway; simpl;
    [discriminate |].
  destruct queue as [| [pos path] queue]; [discriminate |].
  destruct (positionsEqual pos goal) eqn:Hg.
  - intros H. injection H as <-.
    destruct Hway as (pre & pos' & suf & path' & Hr & Hin & Hlen & _).
    assert (List.length path <= List.length path')%nat.
    { destruct Hin as [Heq | Hin]; [injection Heq as <- <-; lia |].
      apply (levelled_head pos path queue Hlev pos' path' Hin). }
    rewrite Hr, length_app. simpl. lia.
  - destruct (has visited (positionToKey pos)) eqn:Hv.
    + apply IH.
      * apply (levelled_tail _ _ Hlev).
      * apply (onTheWay_skip visited pos path); assumption.
    + destruct (getNeighbors pos buildingMap) as [neighbors | e | h] eqn:Hn;
        try discriminate.
      simpl. apply IH.
      * rewrite pushUnvisited_eq. apply (levelled_push pos path); auto.
        apply Forall_forall. intros e He. apply in_map_iff in He.
        destruct He as (nb & <- & _). simpl. rewrite length_app. simpl. lia.
      * apply onTheWay_expand; assumption.
Qed.

End Search.

(** C7. When [findPathBFS] returns a path, it is a path from [start] to
    [goal] by legal moves, and every path from [start] to [goal] by legal
    moves has at least as many positions, so at least as many steps. *)
Theorem findPathBFS_shortest buildingMap start goal path :
  findPathBFS start goal buildingMap = Ok (Some path) ->
  pathFromTo buildingMap start goal path /\
  forall route, pathFromTo buildingMap start goal route ->
    (List.length path - 1 <= List.length route - 1)%nat.
Proof.
  unfold findPathBFS. intros H. split.
  - apply (bfsLoop_legal buildingMap start goal _ _ _ _) in H; [exact H |].
    intros pos p [Heq | []]. injection Heq as <- <-.
    unfold pathFromTo. simpl. repeat split; auto. discriminate.
  - intros route Hroute.
    enough (List.length path <= List.length route)%nat by lia.
    apply (bfsLoop_minimal buildingMap start goal route Hroute _ _ _ _) in H;
      [exact H | |].
    + exists 1%nat, [(start, [start])], []. repeat split; auto.
    + destruct Hroute as (Hhd & _ & Hne & _).
      destruct route as [| p suf]; [congruence |].
      simpl in Hhd. injection Hhd as ->.
      exists [], start, suf, [start]. repeat split; auto.
      left. reflexivity.
Qed.

Lemma findPathBFS_shortest_witness :
  pathFromTo Examples.exitRoom (Examples.at0 3 2) (Examples.at0 1 2)
    [Examples.at0 3 2; Examples.at0 2 1; Examples.at0 1 2] /\
  forall route,
    pathFromTo Examples.exitRoom (Examples.at0 3 2) (Examples.at0 1 2) route ->
    (2 <= List.length route - 1)%nat.
Proof.
  apply (findPathBFS_shortest Examples.exitRoom (Examples.at0 3 2)
           (Examples.at0 1 2)
           [Examples.at0 3 2; Examples.at0 2 1; Examples.at0 1 2]).
  vm_compute. reflexivity.
Defined.

End BfsFacts.

(** ** The positions of a grid, counted *)

Module CountFacts.
Import Pathfinding GridFacts NeighborFacts KeyFacts.

Lemma In_range n i : In i (range n) <-> 0 <= i < n.
Proof.
  unfold range. rewrite in_map_iff. split.
  - intros (k & <- & Hk). apply in_seq in Hk. lia.
  - intros Hi. exists (Z.to_nat i). split; [lia |]. apply in_seq. lia.
Qed.

Lemma length_range n : List.length (range n) = Z.to_nat n.
Proof. unfold range. rewrite length_map, length_seq. reflexivity. Qed.

Lemma length_flat_map_const {A B} (f : A -> list B) k l :
  (forall a, List.length (f a) = k) ->
  List.length (flat_map f l) = (List.length l * k)%nat.
Proof.
  intros Hf. induction l as [| a l IH]; simpl; [reflexivity |].
  rewrite length_app, Hf, IH. reflexivity.
Qed.

Lemma length_allPositions m : List.length (allPositions m) = cellCount m.
Proof.
  unfold allPositions, cellCount.
  rewrite (length_flat_map_const _
             (Z.to_nat (heightOf m) * Z.to_nat (floorsOf m))%nat).
  - rewrite length_range.
    assert (0 <= widthOf m) by (unfold widthOf, len; lia).
    assert (0 <= heightOf m) by (unfold heightOf, len; lia).
    assert (0 <= floorsOf m) by (unfold floorsOf, len; lia).
    rewrite !Z2Nat.inj_mul by lia. lia.
  - intros px. rewrite (length_flat_map_const _ (Z.to_nat (floorsOf m))).
    + rewrite length_range. reflexivity.
    + intros py. rewrite length_map, length_range. reflexivity.
Qed.

Lemma In_allPositions m p : inBounds m p -> In p (allPositions m).
Proof.
  intros (Hx & Hy & Hf). unfold allPositions.
  apply in_flat_map. exists (x p). split; [apply In_range; exact Hx |].
  apply in_flat_map. exists (y p). split; [apply In_range; exact Hy |].
  apply in_map_iff. exists (floor p). split; [apply position_eta |].
  apply In_range. exact Hf.
Qed.

(** Distinct positions inside the bounds are no more than the cells. *)
Lemma NoDup_inBounds_length m (l : list Position) :
  NoDup l -> (forall p, In p l -> inBounds m p) ->
  (List.length l <= cellCount m)%nat.
Proof.
  intros Hnd Hin. rewrite <- length_allPositions.
  apply NoDup_incl_length; [exact Hnd |].
  intros p Hp. apply In_allPositions. apply Hin. exact Hp.
Qed.

Lemma NoDup_snoc {A} (l : list A) a :
  NoDup l -> ~ In a l -> NoDup (l ++ [a]).
Proof.
  intros Hl Ha. apply (Permutation_NoDup (l := a :: l)).
  - apply Permutation_cons_append.
  - constructor; assumption.
Qed.

End CountFacts.

(** ** The informed searches: A-star, weighted A-star *)

Module AStarFacts.
Import Pathfinding GridFacts NeighborFacts KeyFacts PathFacts BfsFacts.

Lemma insertByFCost_perm node sorted :
  Permutation (node :: sorted) (insertByFCost node sorted).
Proof.
  induction sorted as [| other rest IH]; simpl; [apply Permutation_refl |].
  destruct (0 <? fCost other - fCost node)%float; [apply Permutation_refl |].
  eapply Permutation_trans; [apply perm_swap |].
  apply perm_skip. exact IH.
Qed.

Lemma sort_fold_perm openSet : forall sorted,
  Permutation (openSet ++ sorted)
    (fold_left (fun s node => insertByFCost node s) openSet sorted).
Proof.
  induction openSet as [| node rest IH]; intros sorted; simpl;
    [apply Permutation_refl |].
  eapply Permutation_trans; [| apply IH].
  eapply Permutation_trans; [apply Permutation_middle |].
  apply Permutation_app_head. apply insertByFCost_perm.
Qed.

(** Sorting the open set keeps its nodes. *)
Lemma sortByFCost_perm openSet : Permutation openSet (sortByFCost openSet).
Proof.
  unfold sortByFCost. rewrite <- (app_nil_r openSet) at 1.
  apply sort_fold_perm.
Qed.

Lemma findNode_None openSet pos :
  findNode openSet pos = None <-> ~ In pos (map position openSet).
Proof.
  unfold findNode. induction openSet as [| node rest IH]; simpl.
  - tauto.
  - destruct (positionsEqual (position node) pos) eqn:He.
    + apply positionsEqual_true in He. split; [discriminate | tauto].
    + rewrite IH. split; [| tauto]. intros Hn [Heq | Hin]; [| tauto].
      subst. rewrite positionsEqual_refl in He. discriminate.
Qed.

Lemma updateNode_positions openSet pos up g f :
  map position (updateNode openSet pos up g f) = map position openSet.
Proof.
  induction openSet as [| node rest IH]; simpl; [reflexivity |].
  destruct (positionsEqual (position node) pos); simpl; congruence.
Qed.

Lemma updateNode_In openSet pos up g f node :
  In node (updateNode openSet pos up g f) ->
  In node openSet \/
  (position node = pos /\ parent node = Some up).
Proof.
  induction openSet as [| other rest IH]; simpl; [tauto |].
  destruct (positionsEqual (position other) pos) eqn:He; simpl.
  - intros [<- | Hin]; [| tauto]. right. simpl.
    apply positionsEqual_true in He. auto.
  - intros [<- | Hin]; [tauto |]. destruct (IH Hin); tauto.
Qed.

Section Search.
Variable combine : float -> float -> float.
Variable goal : Position.
Variable buildingMap : BuildingMap.
Variable start : Position.

Let chained := chain buildingMap start.

Lemma chain_updated openSet pos up g f :
  (forall n, In n openSet -> chained n) -> chained up ->
  isNeighbor buildingMap (position up) pos ->
  forall n, In n (updateNode openSet pos up g f) -> chained n.
Proof.
  intros Hopen Hup Hnb. induction openSet as [| other rest IH]; simpl;
    [tauto |].
  destruct (positionsEqual (position other) pos) eqn:He; simpl.
  - intros n [<- | Hin]; [| apply Hopen; right; exact Hin].
    apply positionsEqual_true in He. rewrite He.
    apply chain_step; assumption.
  - intros n [<- | Hin]; [apply Hopen; left; reflexivity |].
    apply IH; [| exact Hin]. intros n' Hn'. apply Hopen. right. exact Hn'.
Qed.

Lemma relaxNeighbors_chain currentNode closedSet neighbors :
  chained currentNode ->
  (forall q, In q neighbors ->
     isNeighbor buildingMap (position currentNode) q) ->
  forall openSet, (forall n, In n openSet -> chained n) ->
  forall n,
    In n (relaxNeighbors combine goal currentNode closedSet neighbors openSet)
    -> chained n.
Proof.
  intros Hcur. induction neighbors as [| q rest IH]; intros Hnb openSet Hopen;
    simpl; [exact Hopen |].
  assert (Hrest : forall q', In q' rest ->
            isNeighbor buildingMap (position currentNode) q')
    by (intros q' Hq'; apply Hnb; right; exact Hq').
  destruct (has closedSet (positionToKey q)); [apply IH; assumption |].
  destruct (findNode openSet q) as [existingNode |].
  - destruct (_ <? gCost existingNode)%float; [| apply IH; assumption].
    apply IH; [exact Hrest |].
    apply chain_updated; auto. apply Hnb. left. reflexivity.
  - apply IH; [exact Hrest |]. intros n Hn. apply in_app_iff in Hn.
    destruct Hn as [Hn | [<- | []]]; [apply Hopen; exact Hn |].
    apply chain_step; [exact Hcur |]. apply Hnb. left. reflexivity.
Qed.

(** The path of a node goes from the start to the node. *)
Lemma reconstructFrom_chain node :
  chained node ->
  exists path,
    (forall acc, reconstructFrom node acc = path ++ acc) /\
    pathFromTo buildingMap start (position node) path.
Proof.
  induction 1 as [g h f | up pos g h f Hup IH Hnb].
  - exists [start]. split; [reflexivity |].
    unfold pathFromTo. simpl. repeat split; auto. discriminate.
  - destruct IH as (path & Hrec & Hhd & Hlast & Hne & Hleg).
    exists (path ++ [pos]). split.
    + intros acc. simpl. rewrite Hrec, <- app_assoc. reflexivity.
    + unfold pathFromTo. simpl.
      split; [apply hd_error_snoc; exact Hhd |].
      split; [apply last_snoc |].
      split; [destruct path; discriminate |].
      apply (legalPath_snoc buildingMap path (position up) pos start); auto.
Qed.

Lemma reconstructPath_chain node :
  chained node ->
  pathFromTo buildingMap start (position node) (reconstructPath node).
Proof.
  intros H. destruct (reconstructFrom_chain node H) as (path & Hrec & Hp).
  unfold reconstructPath. rewrite Hrec, app_nil_r. exact Hp.
Qed.

(** What the loop returns is a path from [start] to [goal]. *)
Lemma astarLoop_legal fuel : forall openSet closedSet result,
  (forall n, In n openSet -> chained n) ->
  astarLoop combine goal buildingMap fuel openSet closedSet
  = Ok (Some result) ->
  pathFromTo buildingMap start goal result.
Proof.
  induction fuel as [| fuel IH]; intros openSet closedSet result Hopen; simpl;
    [discriminate |].
  pose proof (sortByFCost_perm openSet) as Hperm.
  destruct (sortByFCost openSet) as [| currentNode openSet']; [discriminate |].
  assert (Hcur : chained currentNode).
  { apply Hopen. apply (Permutation_in _ (Permutation_sym Hperm)).
    left. reflexivity. }
  assert (Hopen' : forall n, In n openSet' -> chained n).
  { intros n Hn. apply Hopen.
    apply (Permutation_in _ (Permutation_sym Hperm)). right. exact Hn. }
  destruct (positionsEqual (position currentNode) goal) eqn:Hg.
  - intros H. injection H as <-. apply positionsEqual_true in Hg.
    rewrite <- Hg. apply reconstructPath_chain. exact Hcur.
  - destruct (getNeighbors (position currentNode) buildingMap)
      as [neighbors | e | h] eqn:Hn; try discriminate.
    simpl. apply IH. apply relaxNeighbors_chain; auto.
    intros q Hq. exists neighbors. auto.
Qed.

Lemma astarSearch_legal result :
  astarSearch combine goal buildingMap start = Ok (Some result) ->
  pathFromTo buildingMap start goal result.
Proof.
  unfold astarSearch. apply astarLoop_legal.
  intros n [<- | []]. apply chain_root.
Qed.

End Search.

(** *** The loop ends within its fuel *)

Section Total.
Variable combine : float -> float -> float.
Variable goal : Position.
Variable buildingMap : BuildingMap.
Hypothesis Hrect : rectangular buildingMap.

Lemma relaxNeighbors_invariant currentNode closedSet closedP neighbors :
  closedSet = map positionToKey closedP ->
  (forall q, In q neighbors -> inBounds buildingMap q) ->
  forall openSet,
    NoDup (map position openSet) ->
    (forall p, In p (map position openSet) ->
       inBounds buildingMap p /\ ~ In p closedP) ->
    NoDup (map position
             (relaxNeighbors combine goal currentNode closedSet neighbors
                openSet)) /\
    (forall p,
       In p (map position
               (relaxNeighbors combine goal currentNode closedSet neighbors
                  openSet)) ->
       inBounds buildingMap p /\ ~ In p closedP).
Proof.
  intros Hclosed. induction neighbors as [| q rest IH];
    intros Hnb openSet Hnd Hopen; simpl; [auto |].
  assert (Hrest : forall q', In q' rest -> inBounds buildingMap q')
    by (intros q' Hq'; apply Hnb; right; exact Hq').
  destruct (has closedSet (positionToKey q)) eqn:Hc; [apply IH; assumption |].
  assert (Hq : ~ In q closedP).
  { intros Hin. subst closedSet. apply has_keys in Hin. congruence. }
  destruct (findNode openSet q) as [existingNode |] eqn:Hfind.
  - destruct (_ <? gCost existingNode)%float; [| apply IH; assumption].
    apply IH; [exact Hrest | |]; rewrite updateNode_positions; assumption.
  - apply findNode_None in Hfind. apply IH; [exact Hrest | |];
      rewrite map_app; simpl.
    + apply CountFacts.NoDup_snoc; assumption.
    + intros p Hp. apply in_app_iff in Hp.
      destruct Hp as [Hp | [<- | []]]; [apply Hopen; exact Hp |].
      split; [apply Hnb; left; reflexivity | exact Hq].
Qed.

Lemma astarLoop_total fuel : forall openSet closedSet closedP,
  searchInvariant buildingMap (map position openSet) closedSet closedP ->
  (cellCount buildingMap + 1 <= fuel + List.length closedP)%nat ->
  exists result,
    astarLoop combine goal buildingMap fuel openSet closedSet = Ok result.
Proof.
  induction fuel as [| fuel IH];
    intros openSet closedSet closedP (Hc & Hnd & Hcb & Hond & Hopen) Hfuel.
  - pose proof (CountFacts.NoDup_inBounds_length buildingMap closedP Hnd Hcb).
    lia.
  - simpl. pose proof (sortByFCost_perm openSet) as Hperm.
    destruct (sortByFCost openSet) as [| currentNode openSet'];
      [eauto |].
    destruct (positionsEqual (position currentNode) goal); [eauto |].
    pose proof (Permutation_map position Hperm) as Hpm. simpl in Hpm.
    pose proof (Permutation_NoDup Hpm Hond) as Hnd'.
    inversion Hnd' as [| ? ? Hfresh Hnd'']; subst.
    assert (Hcur : inBounds buildingMap (position currentNode)
                   /\ ~ In (position currentNode) closedP).
    { apply Hopen. apply (Permutation_in _ (Permutation_sym Hpm)).
      left. reflexivity. }
    destruct Hcur as [Hcb' Hcn].
    destruct (add_keys closedP (position currentNode))
      as (closedP' & Hadd & Hmem & Hnew & _).
    specialize (Hnew Hcn). subst closedP'.
    rewrite (getNeighbors_ok buildingMap Hrect _ Hcb'). cbn [bind].
    match goal with
    | |- context [relaxNeighbors _ _ _ _ ?ns _] => set (neighbors := ns)
    end.
    assert (Hnb : forall q, In q neighbors -> inBounds buildingMap q).
    { apply (getNeighbors_inBounds buildingMap (position currentNode) _
               Hrect Hcb').
      apply (getNeighbors_ok buildingMap Hrect _ Hcb'). }
    destruct (relaxNeighbors_invariant currentNode
                (add (map positionToKey closedP)
                   (positionToKey (position currentNode)))
                (closedP ++ [position currentNode]) neighbors Hadd Hnb
                openSet' Hnd'') as [Hr1 Hr2].
    { intros p Hp. split.
      - apply Hopen. apply (Permutation_in _ (Permutation_sym Hpm)).
        right. exact Hp.
      - intros Hin. apply in_app_iff in Hin.
        destruct Hin as [Hin | [<- | []]]; [| contradiction].
        assert (Hp' : In p (map position openSet))
          by (apply (Permutation_in _ (Permutation_sym Hpm)); right;
              exact Hp).
        apply Hopen in Hp'. tauto. }
    apply (IH _ _ (closedP ++ [position currentNode])).
    + unfold searchInvariant. split; [exact Hadd |].
      split; [apply CountFacts.NoDup_snoc; assumption |].
      split; [| split; assumption].
      intros p Hp. apply in_app_iff in Hp.
      destruct Hp as [Hp | [<- | []]]; [apply Hcb; exact Hp | exact Hcb'].
    + rewrite length_app. simpl. lia.
Qed.

(** From a start inside the bounds of a rectangular grid the search returns:
    a path, or no path. *)
Lemma astarSearch_total start :
  inBounds buildingMap start ->
  exists result, astarSearch combine goal buildingMap start = Ok result.
Proof.
  intros Hs. unfold astarSearch. apply (astarLoop_total _ _ _ []).
  - unfold searchInvariant. simpl. split; [reflexivity |].
    split; [constructor |]. split; [intros p [] |].
    split; [constructor; [intros [] | constructor] |].
    intros p [<- | []]. split; [exact Hs | intros []].
  - simpl. lia.
Qed.

End Total.


End AStarFacts.

(** ** Replanning *)

Module ReplanFacts.
Import Pathfinding Building GridFacts NeighborFacts KeyFacts PathFacts
       CountFacts AStarFacts WriteFacts.

Lemma foldM_collect {A} (f : list Position -> A -> result (list Position))
    (h : A -> list Position) (l : list A) :
  (forall a, In a l -> forall acc, f acc a = Ok (acc ++ h a)) ->
  forall acc, foldM f l acc = Ok (acc ++ flat_map h l).
Proof.
  induction l as [| a l IH]; intros Hf acc; simpl.
  - rewrite app_nil_r. reflexivity.
  - rewrite Hf by (left; reflexivity). simpl.
    rewrite IH by (intros b Hb; apply Hf; right; exact Hb).
    rewrite app_assoc. reflexivity.
Qed.

Section Grid.
Variable m : BuildingMap.
Hypothesis Hrect : rectangular m.

(** [getExitPositions] returns the exits of the grid. *)
Lemma getExitPositions_ok : getExitPositions m = Ok (exitsIn m).
Proof.
  unfold getExitPositions, exitsIn.
  rewrite (foldM_collect _ (fun px =>
     flat_map (fun py =>
       flat_map (fun pfloor =>
         if cellIs (kind m (mkPosition px py pfloor)) EXIT
         then [mkPosition px py pfloor] else [])
         (range (floorsOf m)))
       (range (heightOf m)))); [reflexivity |].
  intros px Hpx acc. apply In_range in Hpx. fold (widthOf m) in Hpx.
  rewrite height_ok by lia. cbn [bind].
  apply foldM_collect. intros py Hpy acc'. apply In_range in Hpy.
  rewrite floors_ok by lia. cbn [bind].
  apply foldM_collect. intros pf Hpf acc''.
  rewrite (cellAt_column m Hrect) by assumption. cbn [bind].
  destruct (cellIs _ EXIT); [reflexivity |]. rewrite app_nil_r. reflexivity.
Qed.

Lemma In_exitsIn p : In p (exitsIn m) <-> kind m p = Some EXIT.
Proof.
  unfold exitsIn. split.
  - intros H. apply in_flat_map in H. destruct H as (px & _ & H).
    apply in_flat_map in H. destruct H as (py & _ & H).
    apply in_flat_map in H. destruct H as (pf & _ & H).
    destruct (cellIs _ EXIT) eqn:Hc; [| destruct H].
    destruct H as [<- | []]. apply cellIs_true. exact Hc.
  - intros Hk. destruct (kind_Some_inBounds m Hrect p EXIT Hk)
      as (Hx & Hy & Hf).
    apply in_flat_map. exists (x p). split; [apply In_range; exact Hx |].
    apply in_flat_map. exists (y p). split; [apply In_range; exact Hy |].
    apply in_flat_map. exists (floor p). split; [apply In_range; exact Hf |].
    rewrite position_eta, Hk. simpl. left. reflexivity.
Qed.

(** On cells of the grid the test for fire reads every cell up to the first
    one on fire and does not throw. *)
Lemma isPathBlockedByFire_ok route :
  (forall q, In q route -> inBounds m q) ->
  isPathBlockedByFire route m = Ok (onFire m route).
Proof.
  induction route as [| q rest IH]; intros Hin; simpl; [reflexivity |].
  destruct (cellAt_inBounds m Hrect q (Hin q (or_introl eq_refl)))
    as (c & Hc & Hk).
  rewrite Hc, Hk. cbn [bind]. destruct (cellIs (Some c) FIRE);
    [reflexivity |].
  simpl. apply IH. intros q' Hq'. apply Hin. right. exact Hq'.
Qed.

Lemma onFire_false route : onFire m route = false <-> fireFree m route.
Proof.
  unfold onFire, fireFree. split.
  - intros H q Hq Hk.
    assert (existsb (fun q => cellIs (kind m q) FIRE) route = true).
    { apply existsb_exists. exists q. split; [exact Hq |].
      apply cellIs_true. exact Hk. }
    congruence.
  - intros H. apply not_true_iff_false. intros He.
    apply existsb_exists in He. destruct He as (q & Hq & Hc).
    apply cellIs_true in Hc. exact (H q Hq Hc).
Qed.

Lemma isNeighbor_inBounds p q :
  inBounds m p -> isNeighbor m p q -> inBounds m q.
Proof.
  intros Hp (l & Hl & Hq).
  exact (getNeighbors_inBounds m p l Hrect Hp Hl q Hq).
Qed.

Lemma legalPath_inBounds route : forall p,
  hd_error route = Some p -> inBounds m p -> legalPath m route ->
  forall q, In q route -> inBounds m q.
Proof.
  induction route as [| a rest IH]; intros p Hhd Hp Hleg q Hq;
    [destruct Hq |].
  simpl in Hhd. injection Hhd as ->.
  destruct Hq as [<- | Hq]; [exact Hp |].
  destruct rest as [| b rest]; [destruct Hq |].
  destruct Hleg as [Hab Hleg].
  apply (IH b); auto. apply (isNeighbor_inBounds p); assumption.
Qed.

(** A path of A-star from a cell of the grid stays on the grid. *)
Lemma findPathAStar_inBounds from goal route :
  inBounds m from -> findPathAStar from goal m = Ok (Some route) ->
  pathFromTo m from goal route /\ forall q, In q route -> inBounds m q.
Proof.
  intros Hfrom H. apply astarSearch_legal in H. split; [exact H |].
  destruct H as (Hhd & _ & _ & Hleg).
  apply (legalPath_inBounds route from); assumption.
Qed.

(** The loop over the exits keeps a shortest candidate with no cell on
    fire. *)
Lemma bestExitPath_spec from : inBounds m from ->
  forall exits bestPath shortest,
    shortest = option_map len bestPath ->
    exists res,
      bestExitPath from m exits bestPath shortest = Ok res /\
      (res = None ->
       bestPath = None /\
       forall exit c, In exit exits ->
         findPathAStar from exit m = Ok (Some c) -> ~ fireFree m c) /\
      (forall best, res = Some best ->
         (bestPath = Some best \/
          exists exit, In exit exits /\
            findPathAStar from exit m = Ok (Some best) /\ fireFree m best) /\
         (forall b0, bestPath = Some b0 -> len best <= len b0) /\
         (forall exit c, In exit exits ->
            findPathAStar from exit m = Ok (Some c) -> fireFree m c ->
            len best <= len c)).
Proof.
  intros Hfrom. induction exits as [| exit rest IH];
    intros bestPath shortest Hs; simpl.
  - exists bestPath. split; [reflexivity |]. split.
    + intros ->. split; [reflexivity |]. intros exit c [].
    + intros best ->. split; [left; reflexivity |].
      split; [intros b0 H; injection H as <-; lia |]. intros exit c [].
  - destruct (astarSearch_total (fun g h => (g + h)%float) exit m Hrect from
                Hfrom) as (candidate & Hcand).
    fold (findPathAStar from exit m) in Hcand. rewrite Hcand. cbn [bind].
    destruct candidate as [c |].
    + destruct (findPathAStar_inBounds from exit c Hfrom Hcand)
        as [_ Hcb].
      rewrite (isPathBlockedByFire_ok c Hcb). cbn [bind].
      destruct (onFire m c) eqn:Hfire; simpl.
      * (* the candidate crosses the fire *)
        destruct (IH bestPath shortest Hs) as (res & Hres & Hnone & Hsome).
        exists res. split; [exact Hres |]. split.
        -- intros Hn. destruct (Hnone Hn) as [Hb Hall].
           split; [exact Hb |]. intros exit' c' [<- | Hin] Hc'.
           ++ rewrite Hcand in Hc'. injection Hc' as <-.
              intros Hff. apply onFire_false in Hff. congruence.
           ++ apply (Hall exit'); assumption.
        -- intros best Hb. destruct (Hsome best Hb) as (Hsrc & Hle & Hmin).
           split; [| split; [exact Hle |]].
           ++ destruct Hsrc as [Hsrc | (e & He & Hrest)];
                [left; exact Hsrc |].
              right. exists e. split; [right; exact He | exact Hrest].
           ++ intros exit' c' [<- | Hin] Hc' Hff.
              ** rewrite Hcand in Hc'. injection Hc' as <-.
                 apply onFire_false in Hff. congruence.
              ** apply (Hmin exit'); assumption.
      * apply onFire_false in Hfire.
        destruct (shorterThan c shortest) eqn:Hshort.
        -- (* the candidate is the best so far *)
           destruct (IH (Some c) (Some (len c)) eq_refl)
             as (res & Hres & Hnone & Hsome).
           exists res. split; [exact Hres |]. split.
           ++ intros Hn. destruct (Hnone Hn) as [Hb _]. discriminate.
           ++ intros best Hb.
              destruct (Hsome best Hb) as (Hsrc & Hle & Hmin).
              assert (Hbc : len best <= len c) by (apply Hle; reflexivity).
              split; [| split].
              ** right. destruct Hsrc as [Hsrc | (e & He & Hrest)].
                 --- injection Hsrc as <-. exists exit.
                     split; [left; reflexivity |]. split; assumption.
                 --- exists e. split; [right; exact He | exact Hrest].
              ** intros b0 Hb0. subst bestPath shortest. simpl in Hshort.
                 apply Z.ltb_lt in Hshort. lia.
              ** intros exit' c' [<- | Hin] Hc' Hff.
                 --- rewrite Hcand in Hc'. injection Hc' as <-. exact Hbc.
                 --- apply (Hmin exit'); assumption.
        -- (* the best so far is no longer than the candidate *)
           destruct (IH bestPath shortest Hs) as (res & Hres & Hnone & Hsome).
           destruct bestPath as [b0 |]; [| subst shortest; discriminate].
           subst shortest. simpl in Hshort. apply Z.ltb_ge in Hshort.
           exists res. split; [exact Hres |]. split.
           ++ intros Hn. destruct (Hnone Hn) as [Hb _]. discriminate.
           ++ intros best Hb.
              destruct (Hsome best Hb) as (Hsrc & Hle & Hmin).
              split; [| split; [exact Hle |]].
              ** destruct Hsrc as [Hsrc | (e & He & Hrest)];
                   [left; exact Hsrc |].
                 right. exists e. split; [right; exact He | exact Hrest].
              ** intros exit' c' [<- | Hin] Hc' Hff.
                 --- rewrite Hcand in Hc'. injection Hc' as <-.
                     specialize (Hle b0 eq_refl). lia.
                 --- apply (Hmin exit'); assumption.
    + destruct (IH bestPath shortest Hs) as (res & Hres & Hnone & Hsome).
      exists res. split; [exact Hres |]. split.
      * intros Hn. destruct (Hnone Hn) as [Hb Hall].
        split; [exact Hb |]. intros exit' c' [<- | Hin] Hc'.
        -- rewrite Hcand in Hc'. discriminate.
        -- apply (Hall exit'); assumption.
      * intros best Hb. destruct (Hsome best Hb) as (Hsrc & Hle & Hmin).
        split; [| split; [exact Hle |]].
        -- destruct Hsrc as [Hsrc | (e & He & Hrest)]; [left; exact Hsrc |].
           right. exists e. split; [right; exact He | exact Hrest].
        -- intros exit' c' [<- | Hin] Hc' Hff.
           ++ rewrite Hcand in Hc'. discriminate.
           ++ apply (Hmin exit'); assumption.
Qed.

End Grid.

Lemma In_skipn {A} (q : A) : forall n l,
  In q (skipn n l) <-> exists i, (n <= i)%nat /\ nth_error l i = Some q.
Proof.
  induction n as [| n IH]; intros l.
  - simpl. split.
    + intros H. apply In_nth_error in H. destruct H as (i & Hi).
      exists i. split; [lia | exact Hi].
    + intros (i & _ & Hi). apply nth_error_In in Hi. exact Hi.
  - destruct l as [| a l]; simpl.
    + split; [intros [] |]. intros (i & _ & Hi). destruct i; discriminate.
    + rewrite IH. split.
      * intros (i & Hle & Hi). exists (S i). split; [lia | exact Hi].
      * intros (i & Hle & Hi). destruct i as [| i]; [lia |].
        exists i. split; [lia | exact Hi].
Qed.

Section Policy.
Variable m : BuildingMap.
Hypothesis Hrect : rectangular m.

Lemma stale_iff person :
  0 <= currentPathIndex person ->
  (stale m person <->
   (len (path person) =? 0)
   || onFire m (slice_from (path person) (currentPathIndex person)) = true).
Proof.
  intros Hidx. unfold stale, onFire, slice_from.
  destruct (Z.ltb_spec (currentPathIndex person) 0); [lia |].
  rewrite orb_true_iff, existsb_exists. unfold len.
  split.
  - intros [Hp | (i & q & Hle & Hi & Hk)].
    + left. rewrite Hp. reflexivity.
    + right. exists q. split; [| apply cellIs_true; exact Hk].
      apply In_skipn. exists (Z.to_nat i). unfold index in Hi.
      destruct (Z.ltb_spec i 0); [discriminate |]. split; [lia | exact Hi].
  - intros [Hp | (q & Hq & Hk)].
    + left. apply Z.eqb_eq in Hp. destruct (path person);
        [reflexivity | simpl in Hp; lia].
    + right. apply In_skipn in Hq. destruct Hq as (i & Hle & Hi).
      exists (Z.of_nat i), q. split; [lia |].
      split; [| apply cellIs_true; exact Hk].
      unfold index. destruct (Z.ltb_spec (Z.of_nat i) 0); [lia |].
      rewrite Nat2Z.id. exact Hi.
Qed.

Lemma In_slice_from {A} (l : list A) start q :
  In q (slice_from l start) -> In q l.
Proof.
  unfold slice_from. destruct (start <? 0); intros H;
    apply In_skipn in H; destruct H as (i & _ & Hi);
    apply nth_error_In in Hi; exact Hi.
Qed.

(** The body of the loop of [recalculateBlockedPaths] on a person of the
    grid. *)
Lemma recalculatePerson_spec person :
  wellPlaced m person ->
  exists person',
    recalculatePerson (exitsIn m) m person = Ok person' /\
    replanned m person person'.
Proof.
  intros (Hpos & Hidx & Hpath). unfold recalculatePerson.
  destruct (isEvacuated person) eqn:Hev.
  - exists person. split; [reflexivity |]. left. auto.
  - unfold needsNewPath.
    rewrite (isPathBlockedByFire_ok m Hrect)
      by (intros q Hq; apply Hpath; apply (In_slice_from _ _ _ Hq)).
    cbn [bind]. rewrite negb_andb, !negb_involutive.
    pose proof (stale_iff person Hidx) as Hstale.
    destruct ((len (path person) =? 0)
              || onFire m (slice_from (path person) (currentPathIndex person)))
      eqn:Hs; simpl.
    + assert (Hst : stale m person) by (apply Hstale; reflexivity).
      destruct (bestExitPath_spec m Hrect (position person) Hpos (exitsIn m)
                  None None eq_refl) as (res & Hres & Hnone & Hsome).
      rewrite Hres. cbn [bind]. destruct res as [best |].
      * eexists. split; [reflexivity |]. right.
        split; [exact Hev |]. split; [exact Hst |]. left.
        destruct (Hsome best eq_refl) as (Hsrc & _ & Hmin).
        destruct Hsrc as [Hsrc | (exit & Hexit & Hbest & Hff)];
          [discriminate |].
        exists exit, best. split; [apply (In_exitsIn m Hrect); exact Hexit |].
        split; [exact Hbest |].
        split; [apply (findPathAStar_inBounds m Hrect _ _ _ Hpos Hbest) |].
        split; [exact Hff |].
        split; [| unfold withRoute; rewrite Hev; reflexivity].
        intros exit' c Hk Hc Hfree. apply (Hmin exit'); auto.
        apply (In_exitsIn m Hrect). exact Hk.
      * eexists. split; [reflexivity |]. right.
        split; [exact Hev |]. split; [exact Hst |]. right.
        split; [| unfold asTrapped; rewrite Hev; reflexivity].
        intros exit c Hk Hc. destruct (Hnone eq_refl) as [_ Hall].
        apply (Hall exit); auto. apply (In_exitsIn m Hrect). exact Hk.
    + exists person. split; [reflexivity |]. left.
      split; [| reflexivity]. right. intros Hst. apply Hstale in Hst.
      discriminate.
Qed.

Lemma forEachPerson_spec (body : Person -> result Person)
    (R : Person -> Person -> Prop) people :
  (forall person, In person people ->
     exists person', body person = Ok person' /\ R person person') ->
  exists people',
    forEachPerson body people = (Ok tt, people') /\ Forall2 R people people'.
Proof.
  induction people as [| person rest IH]; intros Hbody; simpl.
  - exists []. split; [reflexivity | constructor].
  - destruct (Hbody person (or_introl eq_refl)) as (person' & Hp & HR).
    rewrite Hp.
    destruct IH as (rest' & Hrest & HF);
      [intros p Hin; apply Hbody; right; exact Hin |].
    rewrite Hrest. exists (person' :: rest'). split; [reflexivity |].
    constructor; assumption.
Qed.

End Policy.

(** C1. On a rectangular grid, with every person on a cell of the grid and
    following cells of the grid, [recalculateBlockedPaths] returns without
    throwing, changes nothing but the people, and makes of each person what
    [replanned] says: a person evacuated, or whose path is not stale (not
    empty and with no Fire cell at the progress index or after it), is left
    as it is; a person not evacuated with a stale path gets either (a) as
    path a result of A-star from its position to an Exit cell, a legal path
    with no Fire cell and no longer than any result of A-star to an Exit cell
    that has no Fire cell, with progress index 0 and [trapped] false, or (b),
    when A-star gives no path free of fire to any Exit cell, [trapped] true
    with its path and progress index unchanged. *)
Theorem recalculateBlockedPaths_replans s w :
  rectangular (buildingMap s) ->
  (forall person, In person (people s) ->
     wellPlaced (buildingMap s) person) ->
  exists people',
    recalculateBlockedPaths s w = (Ok tt, withPeople s people', w) /\
    Forall2 (replanned (buildingMap s)) (people s) people'.
Proof.
  intros Hrect Hwell. unfold recalculateBlockedPaths.
  rewrite (getExitPositions_ok _ Hrect).
  destruct (forEachPerson_spec
              (recalculatePerson (exitsIn (buildingMap s)) (buildingMap s))
              (replanned (buildingMap s)) (people s))
    as (people' & Hloop & HF).
  - intros person Hin. apply recalculatePerson_spec; auto.
  - exists people'. rewrite Hloop. split; [reflexivity | exact HF].
Qed.

Lemma recalculateBlockedPaths_replans_witness :
  exists people',
    recalculateBlockedPaths Examples.occupied (Examples.constWorld 0.5)
    = (Ok tt, withPeople Examples.occupied people', Examples.constWorld 0.5)
    /\ Forall2 (replanned (buildingMap Examples.occupied))
         (people Examples.occupied) people'.
Proof.
  apply recalculateBlockedPaths_replans.
  - apply rectangularb_ok. reflexivity.
  - intros person [<- | []]. unfold wellPlaced, inBounds. vm_compute.
    intuition discriminate.
Defined.

(** The person of the witness gets the three cells to the exit. *)
Example replan_occupied :
  map (fun person => (map positionToKey (path person), trapped person))
    (people (snd (fst (recalculateBlockedPaths Examples.occupied
                         (Examples.constWorld 0.5)))))
  = [(["3,2,0"; "2,2,0"; "1,2,0"]%string, Some false)].
Proof. vm_compute. reflexivity. Qed.


End ReplanFacts.

(** ** The family of algorithms on small grids *)

Module FamilyFacts.
Import Pathfinding GridFacts NeighborFacts KeyFacts PathFacts Examples.

(** C3. Failing inputs.  In [walled] the start (0, 0) has no neighbour, so
    the goal (2, 0) is out of reach: eleven algorithms return [null], and
    [findPathGA] throws a [TypeError] (its population is empty and it reads
    [parent1.length] of [undefined]).  In [deadEnd] the goal (1, 0) is a Wall
    cell, which is nobody's neighbour: [findPathBidirectional] returns a path
    all the same, since it searches backwards from the goal, and
    [findPathGA] throws again. *)
Theorem unreachable_goal_outcomes :
  getNeighbors (at0 0 0) walled = Ok [] /\
  outcomes (at0 0 0) (at0 2 0) walled (constWorld 0.5)
  = [Ok None; Ok None; Ok None; Ok None; Ok None; Ok None; Ok None; Ok None;
     Ok None; Ok None; Throw TypeError; Ok None] /\
  getNeighbors (at0 0 0) deadEnd = Ok [] /\
  outcomes (at0 0 0) (at0 1 0) deadEnd (constWorld 0.5)
  = [Ok None; Ok None; Ok None; Ok None; Ok None; Ok (Some [at0 0 0]);
     Ok None; Ok None; Ok None; Ok None; Throw TypeError; Ok None].
Proof. repeat split; vm_compute; reflexivity. Qed.

(** C4. Failing inputs.  Between the two neighbouring cells of [pair],
    [findPathBidirectional] returns [[start]], which does not end at the
    goal; in the exit room it returns a path that stops one cell short of the
    goal (the cell where the two searches meet is dropped by
    [slice(0, -1)]).  In [corridor], [findPathGA] returns [[start, goal]],
    two cells that are not neighbours (a child spliced from two parents). *)
Theorem returned_path_not_a_path :
  findPathBidirectional (at0 0 0) (at0 1 0) pair = Ok (Some [at0 0 0]) /\
  pathFromTob pair (at0 0 0) (at0 1 0) [at0 0 0] = false /\
  findPathBidirectional (at0 3 2) (at0 1 2) exitRoom
  = Ok (Some [at0 3 2; at0 2 1]) /\
  pathFromTob exitRoom (at0 3 2) (at0 1 2) [at0 3 2; at0 2 1] = false /\
  fst (findPathGA (at0 0 0) (at0 2 0) corridor 10 10 (constWorld 0.5))
  = Ok (Some [at0 0 0; at0 2 0]) /\
  pathFromTob corridor (at0 0 0) (at0 2 0) [at0 0 0; at0 2 0] = false.
Proof. repeat split; vm_compute; reflexivity. Qed.

(** C5. Failing input: start = goal = (0, 0) in [pair].  [findPathDijkstra]
    returns [null] (the distance 0 of the start is read as [Infinity] by
    [|| Infinity]), [findPathBidirectional] returns [[start, neighbour]], and
    [findPathSwarm] steps away before it tests the goal and returns
    [[start, neighbour, start]]; the nine others return [[start]]. *)
Theorem start_is_goal_outcomes :
  outcomes (at0 0 0) (at0 0 0) pair (constWorld 0.5)
  = [Ok (Some [at0 0 0]); Ok None; Ok (Some [at0 0 0]); Ok (Some [at0 0 0]);
     Ok (Some [at0 0 0]); Ok (Some [at0 0 0; at0 1 0]);
     Ok (Some [at0 0 0]); Ok (Some [at0 0 0]); Ok (Some [at0 0 0]);
     Ok (Some [at0 0 0]); Ok (Some [at0 0 0]);
     Ok (Some [at0 0 0; at0 1 0; at0 0 0])].
Proof. vm_compute. reflexivity. Qed.


(** *** The same draws give the same result *)




























End FamilyFacts.

(** ** More on the searches *)

Module SearchFacts.
Import Pathfinding GridFacts NeighborFacts KeyFacts PathFacts BfsFacts
       AStarFacts Examples.

(** X1. Keys decode to the position they encode, and two positions have the
    same key only when they are equal. *)
Theorem key_round_trip p q :
  keyToPosition (positionToKey p) = Ok p /\
  (positionToKey p = positionToKey q <-> p = q).
Proof.
  split; [apply keyToPosition_positionToKey |].
  split; [apply positionToKey_inj | intros ->; reflexivity].
Qed.

Lemma fuel_two n : (n + 2 = S (S n))%nat.
Proof. lia. Qed.

Lemma queueFuel_S m : exists n, queueFuel m = S n.
Proof. unfold queueFuel. exists (10 * (cellCount m + 1) + 1)%nat. lia. Qed.

(** X2. When the start is the goal, A*, weighted A*, Greedy Best-First, BFS
    and DFS return [[start]], on every grid and for every start (even one
    outside the grid: no cell is read). *)
Theorem start_is_goal_path start buildingMap weight :
  findPathAStar start start buildingMap = Ok (Some [start]) /\
  findPathAStarWeighted start start buildingMap weight = Ok (Some [start]) /\
  findPathGreedyBestFirst start start buildingMap = Ok (Some [start]) /\
  findPathBFS start start buildingMap = Ok (Some [start]) /\
  findPathDFS start start buildingMap = Ok (Some [start]).
Proof.
  unfold findPathAStar, findPathAStarWeighted, astarSearch,
    findPathGreedyBestFirst, findPathBFS, findPathDFS.
  rewrite !fuel_two. destruct (queueFuel_S buildingMap) as (n & ->).
  cbn [astarLoop greedyLoop bfsLoop dfsLoop sortByFCost fold_left
         insertByFCost position].
  rewrite !positionsEqual_refl. repeat split.
Qed.

(** X3. Whenever A* or weighted A* returns a path, it is a path from start
    to goal by legal moves, on every grid. *)
Theorem findPathAStar_sound start goal buildingMap weight path :
  findPathAStar start goal buildingMap = Ok (Some path)
  \/ findPathAStarWeighted start goal buildingMap weight = Ok (Some path) ->
  pathFromTo buildingMap start goal path.
Proof.
  intros [H | H]; apply astarSearch_legal in H; exact H.
Qed.

Lemma findPathAStar_sound_witness :
  pathFromTo exitRoom (at0 3 2) (at0 1 2) [at0 3 2; at0 2 2; at0 1 2].
Proof.
  apply (findPathAStar_sound (at0 3 2) (at0 1 2) exitRoom 1%float).
  left. vm_compute. reflexivity.
Defined.

(** From a cell without neighbours no path leads anywhere else. *)
Lemma no_route_from_isolated buildingMap start goal route :
  getNeighbors start buildingMap = Ok [] -> start <> goal ->
  ~ pathFromTo buildingMap start goal route.
Proof.
  intros Hn Hne (Hhd & Hlast & _ & Hleg).
  destruct route as [| p rest]; [discriminate |].
  simpl in Hhd. injection Hhd as ->.
  destruct rest as [| q rest]; [simpl in Hlast; congruence |].
  destruct Hleg as [(l & Hl & Hq) _]. rewrite Hn in Hl.
  injection Hl as <-. destruct Hq.
Qed.

(** X4. On a rectangular grid, from a start inside the bounds, A* and
    weighted A* return (a path or [null]) without throwing and within the
    bound of one round per cell; when no path by legal moves leads to the
    goal they return [null]. *)
Theorem findPathAStar_returns start goal buildingMap weight :
  rectangular buildingMap -> inBounds buildingMap start ->
  (exists result, findPathAStar start goal buildingMap = Ok result) /\
  (exists result,
     findPathAStarWeighted start goal buildingMap weight = Ok result) /\
  ((forall route, ~ pathFromTo buildingMap start goal route) ->
   findPathAStar start goal buildingMap = Ok None /\
   findPathAStarWeighted start goal buildingMap weight = Ok None).
Proof.
  intros Hrect Hin.
  destruct (astarSearch_total (fun g h => (g + h)%float) goal buildingMap
              Hrect start Hin) as (r1 & H1).
  destruct (astarSearch_total (fun g h => (g + h * weight)%float) goal
              buildingMap Hrect start Hin) as (r2 & H2).
  split; [exists r1; exact H1 |]. split; [exists r2; exact H2 |].
  intros Hno. unfold findPathAStar, findPathAStarWeighted. split.
  - destruct r1 as [path |]; [| exact H1].
    exfalso. apply (Hno path). apply astarSearch_legal in H1. exact H1.
  - destruct r2 as [path |]; [| exact H2].
    exfalso. apply (Hno path). apply astarSearch_legal in H2. exact H2.
Qed.

Lemma findPathAStar_returns_witness :
  findPathAStar (at0 0 0) (at0 2 0) walled = Ok None /\
  findPathAStarWeighted (at0 0 0) (at0 2 0) walled 1.5%float = Ok None.
Proof.
  apply findPathAStar_returns.
  - apply rectangularb_ok. reflexivity.
  - unfold inBounds. vm_compute. intuition discriminate.
  - intros route. apply no_route_from_isolated;
      vm_compute; [reflexivity | discriminate].
Defined.

(** *** Depth-first and greedy searches *)

Lemma pushUnvisitedStack_In path visited neighbors : forall stack e,
  In e (pushUnvisitedStack path visited neighbors stack) ->
  In e stack \/ exists nb, In nb neighbors /\ e = (nb, path ++ [nb]).
Proof.
  induction neighbors as [| nb rest IH]; intros stack e; simpl; [auto |].
  intros H. apply IH in H. destruct H as [H | (nb' & Hnb & He)].
  - destruct (negb (has visited (positionToKey nb))); [| auto].
    destruct H as [<- | H]; [right; exists nb; auto | auto].
  - right. exists nb'. auto.
Qed.

Lemma dfsLoop_legal buildingMap start goal fuel :
  forall stack visited result,
    entriesLegal buildingMap start stack ->
    dfsLoop fuel goal buildingMap stack visited = Ok (Some result) ->
    pathFromTo buildingMap start goal result.
Proof.
  induction fuel as [| fuel IH]; intros stack visited result Hl; simpl;
    [discriminate |].
  destruct stack as [| [pos path] stack]; [discriminate |].
  destruct (positionsEqual pos goal) eqn:Hg.
  - intros H. injection H as <-. apply positionsEqual_true in Hg. subst.
    apply Hl. left. reflexivity.
  - destruct (has visited (positionToKey pos)).
    + apply IH. intros p pa Hin. apply Hl. right. exact Hin.
    + destruct (getNeighbors pos buildingMap) as [neighbors | e | h] eqn:Hn;
        try discriminate.
      simpl. apply IH. intros pos' path' Hin.
      apply pushUnvisitedStack_In in Hin.
      destruct Hin as [Hin | (nb & Hnb & Heq)]; [apply Hl; right; exact Hin |].
      injection Heq as -> ->.
      destruct (Hl pos path (or_introl eq_refl)) as (Hhd & Hlast & Hne & Hleg).
      unfold pathFromTo.
      split; [apply hd_error_snoc; exact Hhd |].
      split; [apply last_snoc |].
      split; [destruct path; discriminate |].
      apply (legalPath_snoc buildingMap path pos nb start); auto.
      exists neighbors. auto.
Qed.

Lemma greedyPush_chain buildingMap start goal currentNode closedSet
    neighbors :
  chain buildingMap start currentNode ->
  (forall q, In q neighbors ->
     isNeighbor buildingMap (position currentNode) q) ->
  forall openSet, (forall n, In n openSet -> chain buildingMap start n) ->
  forall n, In n (greedyPush goal currentNode closedSet neighbors openSet) ->
    chain buildingMap start n.
Proof.
  intros Hcur. induction neighbors as [| q rest IH]; intros Hnb openSet Hopen;
    simpl; [exact Hopen |].
  assert (Hrest : forall q', In q' rest ->
            isNeighbor buildingMap (position currentNode) q')
    by (intros q' Hq'; apply Hnb; right; exact Hq').
  destruct (has closedSet (positionToKey q)); [apply IH; assumption |].
  destruct (findNode openSet q); [apply IH; assumption |].
  apply IH; [exact Hrest |]. intros n Hn. apply in_app_iff in Hn.
  destruct Hn as [Hn | [<- | []]]; [apply Hopen; exact Hn |].
  apply chain_step; [exact Hcur |]. apply Hnb. left. reflexivity.
Qed.

Lemma greedyLoop_legal buildingMap start goal fuel :
  forall openSet closedSet result,
    (forall n, In n openSet -> chain buildingMap start n) ->
    greedyLoop fuel goal buildingMap openSet closedSet = Ok (Some result) ->
    pathFromTo buildingMap start goal result.
Proof.
  induction fuel as [| fuel IH]; intros openSet closedSet result Hopen; simpl;
    [discriminate |].
  pose proof (sortByFCost_perm openSet) as Hperm.
  destruct (sortByFCost openSet) as [| currentNode openSet']; [discriminate |].
  assert (Hcur : chain buildingMap start currentNode).
  { apply Hopen. apply (Permutation_in _ (Permutation_sym Hperm)).
    left. reflexivity. }
  assert (Hopen' : forall n, In n openSet' -> chain buildingMap start n).
  { intros n Hn. apply Hopen.
    apply (Permutation_in _ (Permutation_sym Hperm)). right. exact Hn. }
  destruct (positionsEqual (position currentNode) goal) eqn:Hg.
  - intros H. injection H as <-. apply positionsEqual_true in Hg.
    rewrite <- Hg. apply reconstructPath_chain. exact Hcur.
  - destruct (getNeighbors (position currentNode) buildingMap)
      as [neighbors | e | h] eqn:Hn; try discriminate.
    simpl. apply IH. apply greedyPush_chain; auto.
    intros q Hq. exists neighbors. auto.
Qed.

(** *** Random walks *)

Lemma pick_In {A} (arr : list A) r a : pick arr r = Some a -> In a arr.
Proof.
  unfold pick. destruct (JS.floor _); [| discriminate]. apply index_In.
Qed.

(** The walk goes by legal moves and visits no cell twice. *)
Lemma randomWalkLoop_legal buildingMap start goal steps :
  forall current path w result w',
    pathFromTo buildingMap start current path -> NoDup path ->
    randomWalkLoop steps goal buildingMap current path
      (map positionToKey path) w = (Ok (Some result), w') ->
    pathFromTo buildingMap start goal result /\ NoDup result /\
    (List.length result <= List.length path + steps)%nat.
Proof.
  induction steps as [| steps IH]; intros current path w result w' Hp Hnd;
    simpl; [discriminate |].
  destruct (positionsEqual current goal) eqn:Hg.
  - intros H. injection H as <- <-. apply positionsEqual_true in Hg. subst.
    split; [exact Hp |]. split; [exact Hnd | lia].
  - destruct (getNeighbors current buildingMap) as [all | e | h] eqn:Hn;
      try discriminate.
    destruct (len (filter _ all) =? 0); [discriminate |].
    destruct (pick (filter _ all) (randoms w (randomsRead w))) as [next |]
      eqn:Hpick; [| discriminate].
    apply pick_In in Hpick. apply filter_In in Hpick.
    destruct Hpick as [Hin Hfresh]. apply negb_true_iff in Hfresh.
    assert (Hnew : ~ In next path).
    { intros Hc. apply has_keys in Hc. congruence. }
    destruct (add_keys path next) as (path' & Hadd & _ & Hsnoc & _).
    specialize (Hsnoc Hnew). subst path'. rewrite Hadd.
    intros H. apply IH in H.
    + destruct H as (H1 & H2 & H3). split; [exact H1 |].
      split; [exact H2 |]. rewrite length_app in H3. simpl in H3. lia.
    + destruct Hp as (Hhd & Hlast & Hne & Hleg). unfold pathFromTo.
      split; [apply hd_error_snoc; exact Hhd |].
      split; [apply last_snoc |].
      split; [destruct path; discriminate |].
      apply (legalPath_snoc buildingMap path current next start); auto.
      exists all. auto.
    + apply CountFacts.NoDup_snoc; assumption.
Qed.

Lemma findPathRandomWalk_legal buildingMap start goal maxSteps w result w' :
  findPathRandomWalk start goal buildingMap maxSteps w
  = (Ok (Some result), w') ->
  pathFromTo buildingMap start goal result /\ NoDup result /\
  (List.length result <= 1 + Z.to_nat maxSteps)%nat.
Proof.
  unfold findPathRandomWalk. intros H.
  apply (randomWalkLoop_legal buildingMap start goal _ start [start]) in H.
  - exact H.
  - unfold pathFromTo. simpl. repeat split; auto. discriminate.
  - constructor; [intros [] | constructor].
Qed.

Lemma acoLoop_legal buildingMap start goal ants :
  forall bestPath bestLength w result bl w',
    (forall p, bestPath = Some p ->
       pathFromTo buildingMap start goal p /\ NoDup p) ->
    acoLoop ants start goal buildingMap bestPath bestLength w
    = (Ok (Some result, bl), w') ->
    pathFromTo buildingMap start goal result /\ NoDup result.
Proof.
  induction ants as [| ants IH]; intros bestPath bestLength w result bl w' Hb;
    simpl.
  - intros H. injection H as -> _ _. apply Hb. reflexivity.
  - destruct (findPathRandomWalk start goal buildingMap 100 w)
      as [[[path |] | e | h] w1] eqn:Hw; try discriminate.
    + apply findPathRandomWalk_legal in Hw. destruct Hw as (H1 & H2 & _).
      destruct (shorterThan path bestLength).
      * apply IH. intros p Hp. injection Hp as <-. auto.
      * apply IH. exact Hb.
    + apply IH. exact Hb.
Qed.

Lemma swarmAgent_legal buildingMap start goal steps :
  forall agentPos path w agentPos' path' w',
    pathFromTo buildingMap start agentPos path ->
    swarmAgent steps goal buildingMap agentPos path w
    = (Ok (agentPos', path'), w') ->
    pathFromTo buildingMap start agentPos' path'.
Proof.
  induction steps as [| steps IH];
    intros agentPos path w agentPos' path' w' Hp; simpl.
  - intros H. injection H as <- <- _. exact Hp.
  - destruct (getNeighbors agentPos buildingMap) as [neighbors | e | h]
      eqn:Hn; try discriminate.
    destruct (len neighbors =? 0).
    + intros H. injection H as <- <- _. exact Hp.
    + destruct (pick neighbors (randoms w (randomsRead w))) as [next |]
        eqn:Hpick; [| discriminate].
      apply pick_In in Hpick.
      assert (Hnext : pathFromTo buildingMap start next (path ++ [next])).
      { destruct Hp as (Hhd & Hlast & Hne & Hleg). unfold pathFromTo.
        split; [apply hd_error_snoc; exact Hhd |].
        split; [apply last_snoc |].
        split; [destruct path; discriminate |].
        apply (legalPath_snoc buildingMap path agentPos next start); auto.
        exists neighbors. auto. }
      destruct (positionsEqual next goal).
      * intros H. injection H as <- <- _. exact Hnext.
      * apply IH. exact Hnext.
Qed.

Lemma swarmLoop_legal buildingMap start goal iterations agents :
  forall bestPath bestLength w result w',
    (forall p, bestPath = Some p -> pathFromTo buildingMap start goal p) ->
    swarmLoop agents start goal buildingMap iterations bestPath bestLength w
    = (Ok (Some result), w') ->
    pathFromTo buildingMap start goal result.
Proof.
  induction agents as [| agents IH]; intros bestPath bestLength w result w' Hb;
    simpl.
  - intros H. injection H as -> _. apply Hb. reflexivity.
  - destruct (swarmAgent (Z.to_nat iterations) goal buildingMap start [start]
                w) as [[[agentPos path] | e | h] w1] eqn:Hw;
      try discriminate.
    apply (swarmAgent_legal buildingMap start goal) in Hw;
      [| unfold pathFromTo; simpl; repeat split; auto; discriminate].
    destruct (positionsEqual agentPos goal) eqn:Hg; simpl.
    + apply positionsEqual_true in Hg. subst agentPos.
      destruct (shorterThan path bestLength).
      * apply IH. intros p Hp. injection Hp as <-. exact Hw.
      * apply IH. exact Hb.
    + apply IH. exact Hb.
Qed.

Lemma anytimeLoop_legal buildingMap start goal timeLimitMs startTime fuel :
  forall bestPath epsilon w result w',
    (forall p, bestPath = Some p -> pathFromTo buildingMap start goal p) ->
    anytimeLoop fuel start goal buildingMap timeLimitMs startTime bestPath
      epsilon w = (Ok (Some result), w') ->
    pathFromTo buildingMap start goal result.
Proof.
  induction fuel as [| fuel IH]; intros bestPath epsilon w result w' Hb; simpl;
    [discriminate |].
  destruct (_ <? timeLimitMs).
  - destruct (findPathAStarWeighted start goal buildingMap epsilon)
      as [path | e | h] eqn:Hw; try discriminate.
    assert (Hb' : forall p,
              match path with Some p0 => Some p0 | None => bestPath end
              = Some p -> pathFromTo buildingMap start goal p).
    { intros p Hp. destruct path as [p0 |]; [| apply Hb; exact Hp].
      injection Hp as <-. apply astarSearch_legal in Hw. exact Hw. }
    destruct (epsilon <=? 1)%float.
    + intros H. injection H as H _. apply Hb'. exact H.
    + apply IH. exact Hb'.
  - intros H. injection H as H _. apply Hb. exact H.
Qed.


(** *** Dijkstra *)

Lemma get_set {V} (m : KeyMap V) k v k' :
  get (set m k v) k' = if String.eqb k' k then Some v else get m k'.
Proof.
  induction m as [| [k0 v0] m IH]; simpl.
  - destruct (String.eqb k' k); reflexivity.
  - destruct (String.eqb_spec k k0) as [-> | Hne]; simpl.
    + destruct (String.eqb k' k0); reflexivity.
    + destruct (String.eqb_spec k' k0) as [-> | Hne'].
      * destruct (String.eqb_spec k0 k); [congruence | reflexivity].
      * exact IH.
Qed.

Lemma foldM_invariant {A S} (P : S -> Prop) (f : S -> A -> result S) l :
  (forall acc a acc', P acc -> f acc a = Ok acc' -> P acc') ->
  forall s s', P s -> foldM f l s = Ok s' -> P s'.
Proof.
  intros Hf. induction l as [| a l IH]; intros s s' Hs; simpl.
  - intros H. injection H as <-. exact Hs.
  - destruct (f s a) as [s1 | e | h] eqn:H1; simpl; try discriminate.
    apply IH. apply (Hf s a); assumption.
Qed.

Lemma foldM_ok {A S} (f : S -> A -> result S) l :
  (forall a, In a l -> forall acc, exists acc', f acc a = Ok acc') ->
  forall s, exists s', foldM f l s = Ok s'.
Proof.
  induction l as [| a l IH]; intros Hf s; simpl; [eauto |].
  destruct (Hf a (or_introl eq_refl) s) as (s1 & ->). simpl.
  apply IH. intros b Hb. apply Hf. right. exact Hb.
Qed.

Lemma initDistances_infinite buildingMap distances unvisited :
  initDistances buildingMap = Ok (distances, unvisited) ->
  forall k v, get distances k = Some v -> v = infinity.
Proof.
  unfold initDistances. intros H.
  apply (foldM_invariant allInfinite) in H; [exact H | | intros k v Hk;
    discriminate].
  intros acc px acc' Hacc. destruct (height buildingMap); simpl;
    try discriminate.
  apply (foldM_invariant allInfinite); [| exact Hacc].
  intros acc1 py acc1' Hacc1. destruct (floors buildingMap); simpl;
    try discriminate.
  apply (foldM_invariant allInfinite); [| exact Hacc1].
  intros acc2 pf acc2' Hacc2.
  destruct (cellAt buildingMap px py pf); simpl; try discriminate.
  destruct (cellIs _ WALKABLE || cellIs _ STAIRS || cellIs _ EXIT);
    intros H'; injection H' as <-; [| exact Hacc2].
  intros k v. simpl. rewrite get_set.
  destruct (String.eqb k _); [intros Hv; injection Hv as <-; reflexivity |].
  apply Hacc2.
Qed.

Lemma initDistances_ok buildingMap :
  rectangular buildingMap -> exists acc, initDistances buildingMap = Ok acc.
Proof.
  intros Hrect. unfold initDistances. apply foldM_ok.
  intros px Hpx acc. apply CountFacts.In_range in Hpx.
  fold (widthOf buildingMap) in Hpx. rewrite height_ok by lia. cbn [bind].
  apply foldM_ok. intros py Hpy acc1. apply CountFacts.In_range in Hpy.
  rewrite floors_ok by lia. cbn [bind].
  apply foldM_ok. intros pf Hpf acc2.
  rewrite (cellAt_column buildingMap Hrect) by assumption. cbn [bind].
  destruct (cellIs _ WALKABLE || cellIs _ STAIRS || cellIs _ EXIT); eauto.
Qed.

(** With distances that are all [Infinity] or 0 the scan selects no key:
    [0 || Infinity] is [Infinity], and [Infinity < Infinity] is false. *)
Lemma minUnvisited_none distances keys currentKey :
  (forall k v, get distances k = Some v -> v = infinity \/ v = 0%float) ->
  minUnvisited distances keys currentKey infinity = currentKey.
Proof.
  intros Hd. induction keys as [| key rest IH]; simpl; [reflexivity |].
  assert (Hinf : orElse (get distances key) infinity = infinity).
  { destruct (get distances key) as [v |] eqn:Hv; [| reflexivity].
    destruct (Hd key v Hv) as [-> | ->]; reflexivity. }
  rewrite Hinf. exact IH.
Qed.

Lemma findPathDijkstra_null start goal buildingMap acc :
  initDistances buildingMap = Ok acc ->
  findPathDijkstra start goal buildingMap = Ok None.
Proof.
  intros Hinit. unfold findPathDijkstra. rewrite Hinit. cbn [bind].
  destruct acc as [distances unvisited].
  pose proof (initDistances_infinite _ _ _ Hinit) as Hinf.
  rewrite Nat.add_1_r. cbn [dijkstraLoop].
  destruct unvisited as [| key rest]; [reflexivity |].
  rewrite minUnvisited_none; [reflexivity |].
  intros k v. rewrite get_set.
  destruct (String.eqb k (positionToKey start)).
  - intros H. injection H as <-. right. reflexivity.
  - intros H. left. apply (Hinf k). exact H.
Qed.

(** X5. On every rectangular grid, for every start and goal (also
    neighbours, also start = goal), [findPathDijkstra] returns [null]: the
    distance 0 of the start is read as [Infinity], so the first scan of the
    unvisited set selects no node. *)
Theorem findPathDijkstra_always_null start goal buildingMap :
  rectangular buildingMap ->
  findPathDijkstra start goal buildingMap = Ok None.
Proof.
  intros Hrect. destruct (initDistances_ok buildingMap Hrect) as (acc & H).
  apply (findPathDijkstra_null start goal buildingMap acc H).
Qed.

Lemma findPathDijkstra_always_null_witness :
  findPathDijkstra (at0 3 2) (at0 1 2) exitRoom = Ok None.
Proof.
  apply findPathDijkstra_always_null. apply rectangularb_ok. reflexivity.
Defined.

(** X6. [findAlternatePaths] therefore returns the path of A* alone, or no
    path: on a rectangular grid, from a start inside the bounds, its result
    is [[path]] when A* returns [path] and [[]] when A* returns [null],
    whatever [numPaths]. *)
Theorem findAlternatePaths_single start goal buildingMap numPaths :
  rectangular buildingMap -> inBounds buildingMap start ->
  exists primary,
    findPathAStar start goal buildingMap = Ok primary /\
    findAlternatePaths start goal buildingMap numPaths
    = Ok (match primary with Some path => [path] | None => [] end).
Proof.
  intros Hrect Hin.
  destruct (astarSearch_total (fun g h => (g + h)%float) goal buildingMap
              Hrect start Hin) as (primary & H).
  exists primary. split; [exact H |]. unfold findAlternatePaths.
  fold (findPathAStar start goal buildingMap) in H. rewrite H. cbn [bind].
  destruct (_ <? numPaths); [| reflexivity].
  destruct (initDistances_ok buildingMap Hrect) as (acc & Hacc).
  rewrite (findPathDijkstra_null start goal buildingMap acc Hacc).
  reflexivity.
Qed.

Lemma findAlternatePaths_single_witness :
  exists primary,
    findPathAStar (at0 3 2) (at0 1 2) exitRoom = Ok primary /\
    findAlternatePaths (at0 3 2) (at0 1 2) exitRoom 3
    = Ok (match primary with Some path => [path] | None => [] end).
Proof.
  apply findAlternatePaths_single.
  - apply rectangularb_ok. reflexivity.
  - unfold inBounds. vm_compute. intuition discriminate.
Defined.


(** *** The uninformed and greedy searches end within their fuel *)

Section Termination.
Variable buildingMap : BuildingMap.
Hypothesis Hrect : rectangular buildingMap.

Lemma length_filter_le {A} (f : A -> bool) l :
  (List.length (filter f l) <= List.length l)%nat.
Proof.
  induction l as [| a l IH]; simpl; [lia |].
  destruct (f a); simpl; lia.
Qed.

(** A cell has at most 10 neighbours: 8 on its floor, one above and one
    below. *)
Lemma getNeighbors_length p neighbors :
  inBounds buildingMap p -> getNeighbors p buildingMap = Ok neighbors ->
  (List.length neighbors <= 10)%nat.
Proof.
  intros Hin H. rewrite (getNeighbors_ok buildingMap Hrect p Hin) in H.
  pose proof (length_filter_le
                (validStep buildingMap (x p) (y p) (floor p)) directions) as H1.
  change (List.length directions) with 8%nat in H1.
  pose proof (length_filter_le (validFloor buildingMap (x p) (y p))
                [floor p - 1; floor p + 1]) as H2.
  change (List.length [floor p - 1; floor p + 1]) with 2%nat in H2.
  remember (filter (validStep buildingMap (x p) (y p) (floor p)) directions)
    as steps.
  remember (filter (validFloor buildingMap (x p) (y p))
              [floor p - 1; floor p + 1]) as levels.
  assert (Hlen : List.length neighbors
                 = (List.length steps
                    + (if cellIs (kind buildingMap p) STAIRS
                       then List.length levels else 0))%nat).
  { injection H as <-. rewrite length_app, length_map.
    destruct (cellIs (kind buildingMap p) STAIRS);
      [rewrite length_map |]; reflexivity. }
  rewrite Hlen. destruct (cellIs (kind buildingMap p) STAIRS); lia.
Qed.

Lemma pushUnvisitedStack_length path visited neighbors : forall stack,
  (List.length (pushUnvisitedStack path visited neighbors stack)
   <= List.length stack + List.length neighbors)%nat.
Proof.
  induction neighbors as [| nb rest IH]; intros stack; simpl; [lia |].
  destruct (negb (has visited (positionToKey nb))).
  - specialize (IH ((nb, path ++ [nb]) :: stack)). simpl in IH. lia.
  - specialize (IH stack). lia.
Qed.

Lemma bfsLoop_total goal fuel : forall queue visited visitedP,
  frontierInvariant buildingMap queue visited visitedP ->
  (List.length queue + 10 * (cellCount buildingMap - List.length visitedP)
   < fuel)%nat ->
  exists result, bfsLoop fuel goal buildingMap queue visited = Ok result.
Proof.
  induction fuel as [| fuel IH];
    intros queue visited visitedP (Hv & Hnd & Hvb & Hq) Hfuel; [lia |].
  simpl. destruct queue as [| [pos path] queue]; [eauto |].
  destruct (positionsEqual pos goal); [eauto |].
  assert (Hpos : inBounds buildingMap pos)
    by (apply (Hq pos path); left; reflexivity).
  assert (Hq' : forall pos' path', In (pos', path') queue ->
            inBounds buildingMap pos')
    by (intros pos' path' Hin; apply (Hq pos' path'); right; exact Hin).
  destruct (has visited (positionToKey pos)) eqn:Hhas.
  - apply (IH queue visited visitedP);
      [split; [exact Hv | split; [exact Hnd | split; [exact Hvb | exact Hq']]] |].
    simpl in Hfuel. lia.
  - assert (Hnew : ~ In pos visitedP).
    { intros Hc. subst visited. apply has_keys in Hc. congruence. }
    destruct (add_keys visitedP pos) as (visitedP' & Hadd & _ & Hsnoc & _).
    specialize (Hsnoc Hnew). subst visitedP'. subst visited. rewrite Hadd.
    destruct (getNeighbors pos buildingMap) as [neighbors | e | h] eqn:Hn.
    + cbn [bind].
      pose proof (getNeighbors_length pos neighbors Hpos Hn) as Hlen.
      pose proof (getNeighbors_inBounds buildingMap pos neighbors Hrect Hpos
                    Hn) as Hnb.
      assert (Hnd' : NoDup (visitedP ++ [pos]))
        by (apply CountFacts.NoDup_snoc; assumption).
      assert (Hvb' : forall p, In p (visitedP ++ [pos]) ->
                inBounds buildingMap p).
      { intros p Hp. apply in_app_iff in Hp.
        destruct Hp as [Hp | [<- | []]]; [apply Hvb; exact Hp | exact Hpos]. }
      pose proof (CountFacts.NoDup_inBounds_length buildingMap _ Hnd' Hvb')
        as Hcount.
      rewrite length_app in Hcount. simpl in Hcount.
      apply (IH _ _ (visitedP ++ [pos])).
      * split; [reflexivity |]. split; [exact Hnd' |].
        split; [exact Hvb' |].
        intros pos' path' Hin. rewrite pushUnvisited_eq in Hin.
        apply in_app_iff in Hin. destruct Hin as [Hin | Hin];
          [apply (Hq' pos' path'); exact Hin |].
        apply in_map_iff in Hin. destruct Hin as (nb & Heq & Hin).
        injection Heq as <- _. apply filter_In in Hin. apply Hnb. apply Hin.
      * rewrite pushUnvisited_eq, !length_app, length_map. simpl.
        pose proof (length_filter_le
                      (fun nb => negb (has (map positionToKey
                                              (visitedP ++ [pos]))
                                         (positionToKey nb))) neighbors).
        simpl in Hfuel. lia.
    + rewrite (getNeighbors_ok buildingMap Hrect pos Hpos) in Hn.
      discriminate.
    + rewrite (getNeighbors_ok buildingMap Hrect pos Hpos) in Hn.
      discriminate.
Qed.

Lemma dfsLoop_total goal fuel : forall stack visited visitedP,
  frontierInvariant buildingMap stack visited visitedP ->
  (List.length stack + 10 * (cellCount buildingMap - List.length visitedP)
   < fuel)%nat ->
  exists result, dfsLoop fuel goal buildingMap stack visited = Ok result.
Proof.
  induction fuel as [| fuel IH];
    intros stack visited visitedP (Hv & Hnd & Hvb & Hq) Hfuel; [lia |].
  simpl. destruct stack as [| [pos path] stack]; [eauto |].
  destruct (positionsEqual pos goal); [eauto |].
  assert (Hpos : inBounds buildingMap pos)
    by (apply (Hq pos path); left; reflexivity).
  assert (Hq' : forall pos' path', In (pos', path') stack ->
            inBounds buildingMap pos')
    by (intros pos' path' Hin; apply (Hq pos' path'); right; exact Hin).
  destruct (has visited (positionToKey pos)) eqn:Hhas.
  - apply (IH stack visited visitedP);
      [split; [exact Hv | split; [exact Hnd | split; [exact Hvb | exact Hq']]] |].
    simpl in Hfuel. lia.
  - assert (Hnew : ~ In pos visitedP).
    { intros Hc. subst visited. apply has_keys in Hc. congruence. }
    destruct (add_keys visitedP pos) as (visitedP' & Hadd & _ & Hsnoc & _).
    specialize (Hsnoc Hnew). subst visitedP'. subst visited. rewrite Hadd.
    destruct (getNeighbors pos buildingMap) as [neighbors | e | h] eqn:Hn.
    + cbn [bind].
      pose proof (getNeighbors_length pos neighbors Hpos Hn) as Hlen.
      pose proof (getNeighbors_inBounds buildingMap pos neighbors Hrect Hpos
                    Hn) as Hnb.
      assert (Hnd' : NoDup (visitedP ++ [pos]))
        by (apply CountFacts.NoDup_snoc; assumption).
      assert (Hvb' : forall p, In p (visitedP ++ [pos]) ->
                inBounds buildingMap p).
      { intros p Hp. apply in_app_iff in Hp.
        destruct Hp as [Hp | [<- | []]]; [apply Hvb; exact Hp | exact Hpos]. }
      pose proof (CountFacts.NoDup_inBounds_length buildingMap _ Hnd' Hvb')
        as Hcount.
      rewrite length_app in Hcount. simpl in Hcount.
      apply (IH _ _ (visitedP ++ [pos])).
      * split; [reflexivity |]. split; [exact Hnd' |].
        split; [exact Hvb' |].
        intros pos' path' Hin. apply pushUnvisitedStack_In in Hin.
        destruct Hin as [Hin | (nb & Hin & Heq)];
          [apply (Hq' pos' path'); exact Hin |].
        injection Heq as -> _. apply Hnb. exact Hin.
      * pose proof (pushUnvisitedStack_length path
                      (map positionToKey (visitedP ++ [pos])) neighbors stack).
        rewrite length_app. simpl in Hfuel |- *. lia.
    + rewrite (getNeighbors_ok buildingMap Hrect pos Hpos) in Hn.
      discriminate.
    + rewrite (getNeighbors_ok buildingMap Hrect pos Hpos) in Hn.
      discriminate.
Qed.

Lemma greedyPush_invariant goal currentNode closedSet closedP neighbors :
  closedSet = map positionToKey closedP ->
  (forall q, In q neighbors -> inBounds buildingMap q) ->
  forall openSet,
    NoDup (map position openSet) ->
    (forall p, In p (map position openSet) ->
       inBounds buildingMap p /\ ~ In p closedP) ->
    NoDup (map position
             (greedyPush goal currentNode closedSet neighbors openSet)) /\
    (forall p,
       In p (map position
               (greedyPush goal currentNode closedSet neighbors openSet)) ->
       inBounds buildingMap p /\ ~ In p closedP).
Proof.
  intros Hclosed. induction neighbors as [| q rest IH];
    intros Hnb openSet Hnd Hopen; simpl; [auto |].
  assert (Hrest : forall q', In q' rest -> inBounds buildingMap q')
    by (intros q' Hq'; apply Hnb; right; exact Hq').
  destruct (has closedSet (positionToKey q)) eqn:Hc; [apply IH; assumption |].
  assert (Hq : ~ In q closedP).
  { intros Hin. subst closedSet. apply has_keys in Hin. congruence. }
  destruct (findNode openSet q) as [existingNode |] eqn:Hfind;
    [apply IH; assumption |].
  apply findNode_None in Hfind. apply IH; [exact Hrest | |];
    rewrite map_app; simpl.
  - apply CountFacts.NoDup_snoc; assumption.
  - intros p Hp. apply in_app_iff in Hp.
    destruct Hp as [Hp | [<- | []]]; [apply Hopen; exact Hp |].
    split; [apply Hnb; left; reflexivity | exact Hq].
Qed.

Lemma greedyLoop_total goal fuel : forall openSet closedSet closedP,
  searchInvariant buildingMap (map position openSet) closedSet closedP ->
  (cellCount buildingMap + 1 <= fuel + List.length closedP)%nat ->
  exists result,
    greedyLoop fuel goal buildingMap openSet closedSet = Ok result.
Proof.
  induction fuel as [| fuel IH];
    intros openSet closedSet closedP (Hc & Hnd & Hcb & Hond & Hopen) Hfuel.
  - pose proof (CountFacts.NoDup_inBounds_length buildingMap closedP Hnd Hcb).
    lia.
  - simpl. pose proof (sortByFCost_perm openSet) as Hperm.
    destruct (sortByFCost openSet) as [| currentNode openSet'];
      [eauto |].
    destruct (positionsEqual (position currentNode) goal); [eauto |].
    pose proof (Permutation_map position Hperm) as Hpm. simpl in Hpm.
    pose proof (Permutation_NoDup Hpm Hond) as Hnd'.
    inversion Hnd' as [| ? ? Hfresh Hnd'']; subst.
    assert (Hcur : inBounds buildingMap (position currentNode)
                   /\ ~ In (position currentNode) closedP).
    { apply Hopen. apply (Permutation_in _ (Permutation_sym Hpm)).
      left. reflexivity. }
    destruct Hcur as [Hcb' Hcn].
    destruct (add_keys closedP (position currentNode))
      as (closedP' & Hadd & Hmem & Hnew & _).
    specialize (Hnew Hcn). subst closedP'.
    rewrite (getNeighbors_ok buildingMap Hrect _ Hcb'). cbn [bind].
    match goal with
    | |- context [greedyPush _ _ _ ?ns _] => set (neighbors := ns)
    end.
    assert (Hnb : forall q, In q neighbors -> inBounds buildingMap q).
    { apply (getNeighbors_inBounds buildingMap (position currentNode) _
               Hrect Hcb').
      apply (getNeighbors_ok buildingMap Hrect _ Hcb'). }
    destruct (greedyPush_invariant goal currentNode
                (add (map positionToKey closedP)
                   (positionToKey (position currentNode)))
                (closedP ++ [position currentNode]) neighbors Hadd Hnb
                openSet' Hnd'') as [Hr1 Hr2].
    { intros p Hp. split.
      - apply Hopen. apply (Permutation_in _ (Permutation_sym Hpm)).
        right. exact Hp.
      - intros Hin. apply in_app_iff in Hin.
        destruct Hin as [Hin | [<- | []]]; [| contradiction].
        assert (Hp' : In p (map position openSet))
          by (apply (Permutation_in _ (Permutation_sym Hpm)); right;
              exact Hp).
        apply Hopen in Hp'. tauto. }
    apply (IH _ _ (closedP ++ [position currentNode])).
    + unfold searchInvariant. split; [exact Hadd |].
      split; [apply CountFacts.NoDup_snoc; assumption |].
      split; [| split; assumption].
      intros p Hp. apply in_app_iff in Hp.
      destruct Hp as [Hp | [<- | []]]; [apply Hcb; exact Hp | exact Hcb'].
    + rewrite length_app. simpl. lia.
Qed.

(** X7. On a rectangular grid, from a start inside the bounds, BFS, DFS and
    Greedy Best-First return (a path or [null]) without throwing and within
    their bound of rounds; what they return is a path from start to goal by
    legal moves, and when no such path exists they return [null]. *)
Theorem uninformed_searches_return start goal :
  inBounds buildingMap start ->
  (exists result, findPathBFS start goal buildingMap = Ok result) /\
  (exists result, findPathDFS start goal buildingMap = Ok result) /\
  (exists result,
     findPathGreedyBestFirst start goal buildingMap = Ok result) /\
  (forall path,
     findPathBFS start goal buildingMap = Ok (Some path)
     \/ findPathDFS start goal buildingMap = Ok (Some path)
     \/ findPathGreedyBestFirst start goal buildingMap = Ok (Some path) ->
     pathFromTo buildingMap start goal path) /\
  ((forall route, ~ pathFromTo buildingMap start goal route) ->
   findPathBFS start goal buildingMap = Ok None /\
   findPathDFS start goal buildingMap = Ok None /\
   findPathGreedyBestFirst start goal buildingMap = Ok None).
Proof.
  intros Hin.
  assert (Hfront : frontierInvariant buildingMap [(start, [start])] [] []).
  { split; [reflexivity |]. split; [constructor |].
    split; [intros p [] |]. intros pos path [Heq | []].
    injection Heq as <- _. exact Hin. }
  assert (Hlegal : entriesLegal buildingMap start [(start, [start])]).
  { intros pos p [Heq | []]. injection Heq as <- <-.
    unfold pathFromTo. simpl. repeat split; auto. discriminate. }
  destruct (bfsLoop_total goal (queueFuel buildingMap) _ _ [] Hfront)
    as (rb & Hb); [unfold queueFuel; simpl; lia |].
  destruct (dfsLoop_total goal (queueFuel buildingMap) _ _ [] Hfront)
    as (rd & Hd); [unfold queueFuel; simpl; lia |].
  destruct (greedyLoop_total goal (cellCount buildingMap + 2)
              [mkPathNode start None 0 (calculateHeuristic start goal)
                 (calculateHeuristic start goal)] [] [])
    as (rg & Hg).
  { unfold searchInvariant. simpl. split; [reflexivity |].
    split; [constructor |]. split; [intros p [] |].
    split; [constructor; [intros [] | constructor] |].
    intros p [<- | []]. split; [exact Hin | intros []]. }
  { simpl. lia. }
  assert (Hsound : forall path,
            findPathBFS start goal buildingMap = Ok (Some path)
            \/ findPathDFS start goal buildingMap = Ok (Some path)
            \/ findPathGreedyBestFirst start goal buildingMap
               = Ok (Some path) ->
            pathFromTo buildingMap start goal path).
  { intros path [H | [H | H]].
    - apply (bfsLoop_legal buildingMap start goal _ _ _ _ Hlegal H).
    - apply (dfsLoop_legal buildingMap start goal _ _ _ _ Hlegal H).
    - apply (greedyLoop_legal buildingMap start goal _ _ _ _) in H;
        [exact H |].
      intros n [<- | []]. apply chain_root. }
  split; [exists rb; exact Hb |]. split; [exists rd; exact Hd |].
  split; [exists rg; exact Hg |]. split; [exact Hsound |].
  intros Hno. unfold findPathBFS, findPathDFS, findPathGreedyBestFirst in *.
  repeat split.
  - destruct rb as [path |]; [| exact Hb]. exfalso. apply (Hno path).
    apply Hsound. left. exact Hb.
  - destruct rd as [path |]; [| exact Hd]. exfalso. apply (Hno path).
    apply Hsound. right. left. exact Hd.
  - destruct rg as [path |]; [| exact Hg]. exfalso. apply (Hno path).
    apply Hsound. right. right. exact Hg.
Qed.

End Termination.

Lemma uninformed_searches_return_witness :
  findPathBFS (at0 0 0) (at0 2 0) walled = Ok None /\
  findPathDFS (at0 0 0) (at0 2 0) walled = Ok None /\
  findPathGreedyBestFirst (at0 0 0) (at0 2 0) walled = Ok None.
Proof.
  apply uninformed_searches_return.
  - apply rectangularb_ok. reflexivity.
  - unfold inBounds. vm_compute. intuition discriminate.
  - intros route. apply no_route_from_isolated;
      vm_compute; [reflexivity | discriminate].
Defined.


(** *** What the random walk costs and what the random searches return *)

(** A walk that arrives made one draw per move and took fewer moves than
    the rounds it had left. *)
Lemma randomWalkLoop_draws goal buildingMap steps :
  forall current path visited w result w',
    randomWalkLoop steps goal buildingMap current path visited w
    = (Ok (Some result), w') ->
    (List.length result + 1 <= List.length path + steps)%nat /\
    (List.length path <= List.length result)%nat /\
    randomsRead w'
    = (randomsRead w + (List.length result - List.length path))%nat /\
    clockRead w' = clockRead w.
Proof.
  induction steps as [| steps IH]; intros current path visited w result w';
    simpl; [discriminate |].
  destruct (positionsEqual current goal).
  - intros H. injection H as <- <-. repeat split; lia.
  - destruct (getNeighbors current buildingMap) as [all | e | h];
      try discriminate.
    destruct (len (filter _ all) =? 0); [discriminate |].
    destruct (pick (filter _ all) (randoms w (randomsRead w))) as [next |];
      [| discriminate].
    intros H. apply IH in H. rewrite length_app in H. simpl in H. lia.
Qed.

(** X8. A path returned by [findPathRandomWalk] leads from start to goal by
    legal moves, visits no cell twice, has at most [maxSteps] cells, and the
    call made exactly one draw of [Math.random] per move and never read the
    clock. *)
Theorem findPathRandomWalk_self_avoiding start goal buildingMap maxSteps w
    path :
  fst (findPathRandomWalk start goal buildingMap maxSteps w)
  = Ok (Some path) ->
  pathFromTo buildingMap start goal path /\ NoDup path /\
  (List.length path <= Z.to_nat maxSteps)%nat /\
  randomsRead (snd (findPathRandomWalk start goal buildingMap maxSteps w))
  = (randomsRead w + (List.length path - 1))%nat /\
  clockRead (snd (findPathRandomWalk start goal buildingMap maxSteps w))
  = clockRead w.
Proof.
  destruct (findPathRandomWalk start goal buildingMap maxSteps w)
    as [r w'] eqn:Hw. simpl. intros ->.
  pose proof (findPathRandomWalk_legal _ _ _ _ _ _ _ Hw) as (H1 & H2 & _).
  unfold findPathRandomWalk in Hw. apply randomWalkLoop_draws in Hw.
  simpl in Hw. split; [exact H1 |]. split; [exact H2 |]. lia.
Qed.

Lemma findPathRandomWalk_self_avoiding_witness :
  let path := [at0 3 2; at0 2 1; at0 1 1; at0 2 2; at0 3 3; at0 2 3; at0 1 3;
               at0 1 2] in
  pathFromTo exitRoom (at0 3 2) (at0 1 2) path /\ NoDup path /\
  (List.length path <= Z.to_nat 100)%nat /\
  randomsRead
    (snd (findPathRandomWalk (at0 3 2) (at0 1 2) exitRoom 100 turningWorld))
  = (randomsRead turningWorld + (List.length path - 1))%nat /\
  clockRead
    (snd (findPathRandomWalk (at0 3 2) (at0 1 2) exitRoom 100 turningWorld))
  = clockRead turningWorld.
Proof.
  cbv zeta. apply findPathRandomWalk_self_avoiding. vm_compute. reflexivity.
Defined.

(** X9. A path returned by [findPathACO], [findPathSwarm] or
    [findPathAnytimeAStar] leads from start to goal by legal moves, whatever
    the random draws and the clock. *)
Theorem random_searches_legal start goal buildingMap w path iterations
    antCount swarmSize swarmIterations timeLimitMs :
  fst (findPathACO start goal buildingMap iterations antCount w)
  = Ok (Some path)
  \/ fst (findPathSwarm start goal buildingMap swarmSize swarmIterations w)
     = Ok (Some path)
  \/ fst (findPathAnytimeAStar start goal buildingMap timeLimitMs w)
     = Ok (Some path) ->
  pathFromTo buildingMap start goal path.
Proof.
  intros [H | [H | H]].
  - unfold findPathACO in H.
    destruct (acoLoop _ start goal buildingMap None None w)
      as [[[bestPath bestLength] | e | h] w1] eqn:Ha; simpl in H;
      try discriminate.
    injection H as ->. apply acoLoop_legal in Ha; [apply Ha |].
    intros p Hp. discriminate.
  - destruct (findPathSwarm start goal buildingMap swarmSize swarmIterations
                w) as [r w'] eqn:Hs. simpl in H. subst r.
    unfold findPathSwarm in Hs. apply swarmLoop_legal in Hs; [exact Hs |].
    intros p Hp. discriminate.
  - destruct (findPathAnytimeAStar start goal buildingMap timeLimitMs w)
      as [r w'] eqn:Hs. simpl in H. subst r.
    unfold findPathAnytimeAStar in Hs. unfold now at 1 in Hs.
    apply anytimeLoop_legal in Hs; [exact Hs |].
    intros p Hp. discriminate.
Qed.

Lemma random_searches_legal_witness :
  pathFromTo exitRoom (at0 3 2) (at0 1 2) [at0 3 2; at0 2 2; at0 1 2].
Proof.
  apply (random_searches_legal (at0 3 2) (at0 1 2) exitRoom (constWorld 0)
           _ 10 10 10 10 100).
  right. right. vm_compute. reflexivity.
Defined.

(** *** Bidirectional search on neighbouring cells *)

Lemma expandFromStart_meets start goal neighbors :
  forall visitedStart queueStart,
    In goal neighbors ->
    mhas visitedStart (positionToKey goal) = false ->
    expandFromStart [start] neighbors visitedStart queueStart
      [(positionToKey goal, [goal])]
    = Met [start].
Proof.
  induction neighbors as [| neighbor rest IH];
    intros visitedStart queueStart Hin Hfresh; [destruct Hin |].
  cbn [expandFromStart].
  destruct (positionsEqual neighbor goal) eqn:Heq.
  - apply positionsEqual_true in Heq. subst neighbor. rewrite Hfresh.
    cbn [negb get]. rewrite String.eqb_refl. reflexivity.
  - assert (Hrest : In goal rest).
    { destruct Hin as [-> | Hin]; [| exact Hin].
      rewrite positionsEqual_refl in Heq. discriminate. }
    destruct (mhas visitedStart (positionToKey neighbor)); cbn [negb].
    + apply IH; assumption.
    + cbn [get]. rewrite key_eqb, Heq. apply IH; [exact Hrest |].
      unfold mhas. rewrite get_set, key_eqb.
      assert (Hsym : positionsEqual goal neighbor = false).
      { destruct (positionsEqual goal neighbor) eqn:Hs; [| reflexivity].
        apply positionsEqual_true in Hs. subst.
        rewrite positionsEqual_refl in Heq. discriminate. }
      rewrite Hsym. exact Hfresh.
Qed.

(** X10. When the goal is a neighbour of the start, [findPathBidirectional]
    returns [[start]]: the two searches meet at the goal in the first round,
    and [pathG.slice(0, -1)] of the goal's own path [[goal]] is empty, so the
    returned path does not reach the goal. *)
Theorem findPathBidirectional_adjacent start goal buildingMap :
  isNeighbor buildingMap start goal -> start <> goal ->
  findPathBidirectional start goal buildingMap = Ok (Some [start]).
Proof.
  intros (neighbors & Hn & Hin) Hne. unfold findPathBidirectional.
  replace (cellCount buildingMap + 2)%nat
    with (S (cellCount buildingMap + 1)) by lia.
  cbn [bidirectionalLoop]. rewrite Hn. cbn [bind].
  rewrite (expandFromStart_meets start goal neighbors); [reflexivity | |].
  - exact Hin.
  - unfold mhas. cbn [get]. rewrite key_eqb.
    destruct (positionsEqual goal start) eqn:Hs; [| reflexivity].
    apply positionsEqual_true in Hs. congruence.
Qed.

Lemma findPathBidirectional_adjacent_witness :
  findPathBidirectional (at0 0 0) (at0 1 0) pair = Ok (Some [at0 0 0]).
Proof.
  apply findPathBidirectional_adjacent.
  - exists [at0 1 0]. split; [vm_compute; reflexivity | left; reflexivity].
  - discriminate.
Defined.

(** *** The genetic algorithm on an empty population *)

Section Unreachable.
Variable buildingMap : BuildingMap.
Hypothesis Hrect : rectangular buildingMap.

(** On the grid a random walk returns, or throws the TypeError of an
    [undefined] pick. *)
Lemma randomWalkLoop_outcome goal steps :
  forall current path visited w,
    inBounds buildingMap current ->
    fst (randomWalkLoop steps goal buildingMap current path visited w)
    = Throw TypeError
    \/ exists result,
         fst (randomWalkLoop steps goal buildingMap current path visited w)
         = Ok result.
Proof.
  induction steps as [| steps IH]; intros current path visited w Hin; simpl;
    [right; eexists; reflexivity |].
  destruct (positionsEqual current goal); [right; eexists; reflexivity |].
  destruct (getNeighbors current buildingMap) as [all | e | h] eqn:Hn;
    [| rewrite (getNeighbors_ok buildingMap Hrect _ Hin) in Hn; discriminate
     | rewrite (getNeighbors_ok buildingMap Hrect _ Hin) in Hn; discriminate].
  remember (filter (fun n => negb (has visited (positionToKey n))) all)
    as neighbors eqn:Hf.
  destruct (len neighbors =? 0); [right; eexists; reflexivity |].
  destruct (pick neighbors (randoms w (randomsRead w))) as [next |]
    eqn:Hpick; [| left; reflexivity].
  subst neighbors. apply IH. apply pick_In in Hpick. apply filter_In in Hpick.
  apply (getNeighbors_inBounds buildingMap current all Hrect Hin Hn).
  apply Hpick.
Qed.

Variables start goal : Position.
Hypothesis Hstart : inBounds buildingMap start.
Hypothesis Hno : forall route, ~ pathFromTo buildingMap start goal route.

Lemma findPathRandomWalk_fails maxSteps w :
  fst (findPathRandomWalk start goal buildingMap maxSteps w) = Throw TypeError
  \/ fst (findPathRandomWalk start goal buildingMap maxSteps w) = Ok None.
Proof.
  destruct (randomWalkLoop_outcome goal (Z.to_nat maxSteps) start [start]
              [positionToKey start] w Hstart) as [H | ([path |] & H)];
    unfold findPathRandomWalk; [left; exact H | | right; exact H].
  exfalso. apply (Hno path).
  destruct (randomWalkLoop (Z.to_nat maxSteps) goal buildingMap start [start]
              [positionToKey start] w) as [r w'] eqn:Hw.
  simpl in H. subst r.
  apply (findPathRandomWalk_legal buildingMap start goal maxSteps w path w').
  exact Hw.
Qed.

Lemma seedPopulation_empty walks : forall w,
  fst (seedPopulation walks start goal buildingMap [] w) = Throw TypeError
  \/ fst (seedPopulation walks start goal buildingMap [] w) = Ok [].
Proof.
  induction walks as [| walks IH]; intros w; simpl; [right; reflexivity |].
  destruct (findPathRandomWalk_fails 100 w) as [H | H];
    destruct (findPathRandomWalk start goal buildingMap 100 w)
      as [[[path |] | e | h] w1]; simpl in H; try discriminate H.
  - left. injection H as ->. reflexivity.
  - apply IH.
Qed.

Lemma pick_nil {A} r : pick (@nil A) r = None.
Proof.
  unfold pick. destruct (JS.floor _) as [i |]; [| reflexivity].
  unfold index. destruct (i <? 0); [reflexivity |].
  destruct (Z.to_nat i); reflexivity.
Qed.

(** With nobody to pick, [parent1] is [undefined]; both parents are drawn
    before [parent1.length] is read. *)
Lemma makeChild_empty w :
  makeChild goal buildingMap [] w
  = (Throw TypeError, snd (random (snd (random w)))).
Proof.
  unfold makeChild, random, pickIndividual. cbv beta iota zeta.
  rewrite pick_nil. reflexivity.
Qed.

(** X11. When no path by legal moves leads from start to goal,
    [findPathGA] with a population of two or more and one generation or more
    throws a TypeError, whatever the random draws: no random walk succeeds,
    the population stays empty, and [parent1.length] reads a property of
    [undefined]. *)
Theorem findPathGA_throws populationSize generations w :
  2 <= populationSize -> 1 <= generations ->
  fst (findPathGA start goal buildingMap populationSize generations w)
  = Throw TypeError.
Proof.
  intros Hpop Hgen. unfold findPathGA.
  destruct (seedPopulation_empty (Z.to_nat populationSize) w) as [H | H];
    destruct (seedPopulation (Z.to_nat populationSize) start goal buildingMap
                [] w) as [[population | e | h] w1]; simpl in H;
      try discriminate H.
  - injection H as ->. reflexivity.
  - injection H as ->.
    destruct (Z.to_nat generations) as [| g] eqn:Hg; [lia |].
    cbn [gaGenerations].
    change (sortPopulation []) with (@nil Individual).
    change (individual [] 0) with (@None (list Position)).
    destruct (Z.to_nat (populationSize - 1)) as [| missing] eqn:Hm; [lia |].
    cbn [fillPopulation]. rewrite makeChild_empty. reflexivity.
Qed.

End Unreachable.

Lemma findPathGA_throws_witness :
  fst (findPathGA (at0 0 0) (at0 2 0) walled 10 10 (constWorld 0.5))
  = Throw TypeError.
Proof.
  apply findPathGA_throws.
  - apply rectangularb_ok. reflexivity.
  - unfold inBounds. vm_compute. intuition discriminate.
  - intros route. apply no_route_from_isolated;
      vm_compute; [reflexivity | discriminate].
  - lia.
  - lia.
Defined.


(** *** The cost of a move *)

(** X24. The cost [getMovementCost] gives to a legal move is 1 for a step
    along a row or a column, 1.414 for a diagonal step, and 6 (the step and
    the floor penalty) for a step up or down the stairs. *)
Theorem getMovementCost_of_move buildingMap p q :
  rectangular buildingMap -> inBounds buildingMap p ->
  isNeighbor buildingMap p q ->
  getMovementCost p q
  = if floor q =? floor p
    then if (x q =? x p) || (y q =? y p) then 1%float else 1.414%float
    else 6%float.
Proof.
  intros Hrect Hin (neighbors & Hn & Hq).
  apply (getNeighbors_In buildingMap p neighbors q Hrect Hin Hn) in Hq.
  unfold getMovementCost. rewrite Z.gtb_ltb.
  destruct Hq as [(Hf & Hx & Hy & Hne & _) | (_ & Hx & Hy & Hf & _)].
  - rewrite Hf, Z.eqb_refl, Z.sub_diag. cbn [Z.abs Z.ltb Z.compare].
    destruct (Z.eqb_spec (Z.abs (x q - x p) + Z.abs (y q - y p)) 2);
      destruct (Z.eqb_spec (x q) (x p)); destruct (Z.eqb_spec (y q) (y p));
      try reflexivity; exfalso; lia.
  - rewrite Hx, Hy, !Z.sub_diag. cbn [Z.abs Z.add Z.eqb].
    destruct (Z.eqb_spec (floor q) (floor p)); [exfalso; lia |].
    destruct (Z.ltb_spec 0 (Z.abs (floor q - floor p))); [| exfalso; lia].
    vm_compute. reflexivity.
Qed.

Lemma getMovementCost_of_move_witness :
  getMovementCost (at0 3 2) (at0 2 1) = 1.414%float.
Proof.
  apply (getMovementCost_of_move exitRoom (at0 3 2) (at0 2 1)).
  - apply rectangularb_ok. reflexivity.
  - unfold inBounds. vm_compute. intuition discriminate.
  - eexists. split; [vm_compute; reflexivity |]. simpl. auto.
Defined.


(** *** The anytime search ends *)

Section Anytime.
Variable buildingMap : BuildingMap.
Hypothesis Hrect : rectangular buildingMap.
Variables start goal : Position.
Hypothesis Hstart : inBounds buildingMap start.

Lemma findPathAStarWeighted_total weight :
  exists result,
    findPathAStarWeighted start goal buildingMap weight = Ok result.
Proof.
  apply (astarSearch_total (fun g h => (g + h * weight)%float) goal
           buildingMap Hrect start Hstart).
Qed.

(** The round of a weight of 1 or less is the last one. *)
Lemma returnsWithin_last limit startTime epsilon :
  (epsilon <=? 1)%float = true ->
  returnsWithin 1 start goal buildingMap limit startTime epsilon.
Proof.
  intros Heps fuel bestPath w Hfuel.
  destruct fuel as [| fuel]; [lia |]. cbn [anytimeLoop]. unfold now.
  destruct (_ <? limit).
  - destruct (findPathAStarWeighted_total epsilon) as (path & ->).
    rewrite Heps. eexists. eexists. split; [reflexivity |]. simpl.
    repeat split; lia.
  - eexists. eexists. split; [reflexivity |]. simpl. repeat split; lia.
Qed.

(** A round of a greater weight goes on with four fifths of the weight, or
    with 1. *)
Lemma returnsWithin_next rounds limit startTime epsilon :
  (epsilon <=? 1)%float = false ->
  returnsWithin rounds start goal buildingMap limit startTime
    (mathMax 1 (epsilon * 0.8)) ->
  returnsWithin (S rounds) start goal buildingMap limit startTime epsilon.
Proof.
  intros Heps Hnext fuel bestPath w Hfuel.
  destruct fuel as [| fuel]; [lia |]. cbn [anytimeLoop]. unfold now.
  destruct (_ <? limit).
  - destruct (findPathAStarWeighted_total epsilon) as (path & ->).
    rewrite Heps.
    match goal with
    | |- context [anytimeLoop fuel _ _ _ _ _ ?b _ ?w1] =>
        destruct (Hnext fuel b w1) as (result & w' & Hrun & Hr & Hc & Hk);
          [lia |]
    end.
    exists result, w'. split; [exact Hrun |]. simpl in Hr, Hc, Hk.
    repeat split; try assumption; lia.
  - eexists. eexists. split; [reflexivity |]. simpl. repeat split; lia.
Qed.

(** From the weight 2 the weights are 1.6, 1.28, 1.024 and 1. *)
Lemma returnsWithin_five limit startTime :
  returnsWithin 5 start goal buildingMap limit startTime 2.
Proof.
  do 4 (apply returnsWithin_next; [vm_compute; reflexivity |]).
  apply returnsWithin_last. vm_compute. reflexivity.
Qed.

(** X25. [findPathAnytimeAStar] ends: on a rectangular grid, from a start
    inside the bounds, it returns (a path or [null]) without throwing after
    at most five rounds, for the weights 2, 1.6, 1.28, 1.024 and 1, reading
    the clock at most six times and drawing no random number, whatever the
    clock shows; and when the time limit has passed at the first reading it
    returns [null] without searching. *)
Theorem findPathAnytimeAStar_returns limit w :
  exists result,
    fst (findPathAnytimeAStar start goal buildingMap limit w) = Ok result /\
    randomsRead (snd (findPathAnytimeAStar start goal buildingMap limit w))
    = randomsRead w /\
    (clockRead w
     < clockRead (snd (findPathAnytimeAStar start goal buildingMap limit w))
     <= clockRead w + 6)%nat /\
    (limit <= clock w (S (clockRead w)) - clock w (clockRead w) ->
     result = None).
Proof.
  set (w1 := mkWorld (randoms w) (randomsRead w) (clock w)
               (S (clockRead w))).
  change (findPathAnytimeAStar start goal buildingMap limit w)
    with (anytimeLoop 6 start goal buildingMap limit (clock w (clockRead w))
            None 2 w1).
  destruct (returnsWithin_five limit (clock w (clockRead w)) 6%nat None w1)
    as (result & w' & Hrun & Hr & Hc & Hk); [lia |].
  exists result. rewrite Hrun. simpl in Hr, Hc, Hk |- *.
  split; [reflexivity |]. split; [exact Hr |]. split; [lia |].
  intros Hlate. cbn [anytimeLoop] in Hrun. unfold now in Hrun.
  simpl in Hrun.
  destruct (Z.ltb_spec (clock w (S (clockRead w)) - clock w (clockRead w))
              limit); [lia |].
  injection Hrun as <- _. reflexivity.
Qed.

End Anytime.

Lemma findPathAnytimeAStar_returns_witness :
  exists result,
    fst (findPathAnytimeAStar (at0 3 2) (at0 1 2) exitRoom 0 (constWorld 0))
    = Ok result /\
    randomsRead
      (snd (findPathAnytimeAStar (at0 3 2) (at0 1 2) exitRoom 0
              (constWorld 0)))
    = randomsRead (constWorld 0) /\
    (clockRead (constWorld 0)
     < clockRead
         (snd (findPathAnytimeAStar (at0 3 2) (at0 1 2) exitRoom 0
                 (constWorld 0)))
     <= clockRead (constWorld 0) + 6)%nat /\
    (0 <= clock (constWorld 0) (S (clockRead (constWorld 0)))
          - clock (constWorld 0) (clockRead (constWorld 0)) ->
     result = None).
Proof.
  apply (findPathAnytimeAStar_returns exitRoom
           (rectangularb_ok exitRoom eq_refl) (at0 3 2) (at0 1 2)).
  unfold inBounds. vm_compute. intuition discriminate.
Defined.


(** *** The swarm when the start is the goal *)

Lemma last_default {A} (l : list A) a d d' :
  last (a :: l) d = last (a :: l) d'.
Proof.
  revert a. induction l as [| b l IH]; intros a; [reflexivity |].
  change (last (b :: l) d = last (b :: l) d'). apply IH.
Qed.

Lemma last_cons {A} (l : list A) a d : last (a :: l) d = last l a.
Proof.
  destruct l as [| b l]; [reflexivity |].
  change (last (b :: l) d = last (b :: l) a). apply last_default.
Qed.

(** An agent adds one cell to its path per step and stands on the last
    one. *)
Lemma swarmAgent_extends goal buildingMap steps :
  forall agentPos path w agentPos' path' w',
    swarmAgent steps goal buildingMap agentPos path w
    = (Ok (agentPos', path'), w') ->
    exists ext,
      path' = path ++ ext /\ (List.length ext <= steps)%nat /\
      agentPos' = last ext agentPos.
Proof.
  induction steps as [| steps IH];
    intros agentPos path w agentPos' path' w'; simpl.
  - intros H. injection H as <- <- _. exists []. rewrite app_nil_r. auto.
  - destruct (getNeighbors agentPos buildingMap) as [neighbors | e | h];
      try discriminate.
    destruct (len neighbors =? 0).
    + intros H. injection H as <- <- _. exists []. rewrite app_nil_r.
      simpl. split; [reflexivity |]. split; [lia | reflexivity].
    + destruct (pick neighbors (randoms w (randomsRead w))) as [next |];
        [| discriminate].
      destruct (positionsEqual next goal).
      * intros H. injection H as <- <- _. exists [next]. simpl.
        split; [reflexivity |]. split; [lia | reflexivity].
      * intros H. apply IH in H. destruct H as (ext & -> & Hlen & ->).
        exists (next :: ext). rewrite <- app_assoc. simpl.
        split; [reflexivity |]. split; [lia |].
        symmetry. apply last_cons.
Qed.

(** What holds of the path of every agent that arrives holds of the path
    the swarm returns. *)
Lemma swarmLoop_invariant (P : list Position -> Prop) start goal buildingMap
    iterations :
  (forall w agentPos path w',
     swarmAgent (Z.to_nat iterations) goal buildingMap start [start] w
     = (Ok (agentPos, path), w') ->
     positionsEqual agentPos goal = true -> P path) ->
  forall agents bestPath bestLength w result w',
    (forall p, bestPath = Some p -> P p) ->
    swarmLoop agents start goal buildingMap iterations bestPath bestLength w
    = (Ok (Some result), w') ->
    P result.
Proof.
  intros Hagent. induction agents as [| agents IH];
    intros bestPath bestLength w result w' Hbest; cbn [swarmLoop].
  - intros H. injection H as -> _. apply Hbest. reflexivity.
  - destruct (swarmAgent (Z.to_nat iterations) goal buildingMap start
                [start] w) as [[[agentPos path] | e | h] w1] eqn:Hrun;
      try discriminate.
    destruct (positionsEqual agentPos goal) eqn:Hback; cbn [andb].
    + destruct (shorterThan path bestLength); [| apply IH; exact Hbest].
      apply IH. intros p Hp. injection Hp as <-.
      apply (Hagent w agentPos path w1 Hrun Hback).
    + apply IH. exact Hbest.
Qed.

(** X26. With the start as the goal, [findPathSwarm] steps away before it
    looks: on a rectangular grid, from a start inside the bounds that has a
    neighbour, with one iteration or more, a path it returns has three
    cells or more (out and back) and at most [iterations + 1], never the
    one-cell path [[start]], whatever the random draws. *)
Theorem findPathSwarm_never_stays start buildingMap neighbors swarmSize
    iterations w path :
  rectangular buildingMap -> inBounds buildingMap start ->
  getNeighbors start buildingMap = Ok neighbors -> neighbors <> [] ->
  1 <= iterations ->
  fst (findPathSwarm start start buildingMap swarmSize iterations w)
  = Ok (Some path) ->
  3 <= len path <= iterations + 1.
Proof.
  intros Hrect Hin Hn Hne Hit Hres.
  destruct (findPathSwarm start start buildingMap swarmSize iterations w)
    as [r w'] eqn:Hs. simpl in Hres. subst r. unfold findPathSwarm in Hs.
  apply (swarmLoop_invariant (fun p => 3 <= len p <= iterations + 1) start
           start buildingMap iterations) in Hs;
    [exact Hs | | intros p Hp; discriminate].
  clear w w' Hs path. intros w agentPos' path' w' Hrun Hback.
  apply positionsEqual_true in Hback.
  destruct (Z.to_nat iterations) as [| steps] eqn:Hsteps; [lia |].
  cbn [swarmAgent] in Hrun. rewrite Hn in Hrun.
  destruct (len neighbors =? 0) eqn:Hlen.
  { apply Z.eqb_eq in Hlen. unfold len in Hlen.
    destruct neighbors; [contradiction | discriminate]. }
  unfold random in Hrun.
  destruct (pick neighbors (randoms w (randomsRead w))) as [next |]
    eqn:Hpick; [| discriminate].
  apply pick_In in Hpick.
  assert (Hnext : positionsEqual next start = false).
  { destruct (positionsEqual next start) eqn:He; [| reflexivity].
    apply positionsEqual_true in He. subst next.
    apply (getNeighbors_In buildingMap start neighbors start Hrect Hin Hn)
      in Hpick.
    destruct Hpick as [(_ & _ & _ & Hd & _) | (_ & _ & _ & Hf & _)];
      [exfalso; apply Hd; split; reflexivity | lia]. }
  rewrite Hnext in Hrun. apply swarmAgent_extends in Hrun.
  destruct Hrun as (ext & -> & Hlen' & Hlast). subst agentPos'.
  destruct ext as [| e ext].
  - simpl in Hback. subst next. rewrite positionsEqual_refl in Hnext.
    discriminate.
  - unfold len. rewrite length_app. simpl in *. lia.
Qed.

Lemma findPathSwarm_never_stays_witness :
  3 <= len [at0 0 0; at0 1 0; at0 0 0] <= 10 + 1.
Proof.
  apply (findPathSwarm_never_stays (at0 0 0) pair [at0 1 0] 10 10
           (constWorld 0.5)).
  - apply rectangularb_ok. reflexivity.
  - unfold inBounds. vm_compute. intuition discriminate.
  - vm_compute. reflexivity.
  - discriminate.
  - lia.
  - vm_compute. reflexivity.
Defined.


End SearchFacts.


(** ** The service as a whole *)

Module ServiceFacts.
Import Pathfinding Building GridFacts NeighborFacts KeyFacts WriteFacts
       PersonFacts FireFacts BfsFacts Examples.

(** *** The map is the first map plus the fire *)

Lemma burntOnly_frame m0 s s' :
  buildingMap s' = buildingMap s -> firePositions s' = firePositions s ->
  burntOnly m0 s -> burntOnly m0 s'.
Proof. unfold burntOnly. intros -> ->. auto. Qed.

Lemma burntOnly_walkable m0 s p :
  burntOnly m0 s -> kind (buildingMap s) p = Some WALKABLE ->
  kind m0 p = Some WALKABLE.
Proof.
  intros [_ Hmap] Hk. rewrite Hmap in Hk.
  destruct (has (firePositions s) (positionToKey p)); [discriminate | exact Hk].
Qed.

Lemma burntOnly_setFire m0 s p m :
  burntOnly m0 s -> kind m0 p = Some WALKABLE ->
  setCell (buildingMap s) (x p) (y p) (floor p) FIRE = Ok m ->
  burntOnly m0
    (withFire (withMap s m) (add (firePositions s) (positionToKey p))).
Proof.
  intros [Hkeys Hmap] Hp Hset. split; simpl.
  - intros k Hk. apply In_add in Hk. destruct Hk as [-> | Hk]; eauto.
  - intros q. rewrite (kind_setCell _ _ _ _ _ _ q Hset), position_eta.
    rewrite has_add_position, Hmap.
    destruct (positionsEqual q p); reflexivity.
Qed.

Lemma applyFire_burntOnly m0 l : forall s,
  (forall p, In p l -> kind m0 p = Some WALKABLE) ->
  burntOnly m0 s -> burntOnly m0 (snd (applyFire l s)).
Proof.
  induction l as [| pos rest IH]; intros s Hl Hinv; simpl; [exact Hinv |].
  destruct (setCell (buildingMap s) (x pos) (y pos) (floor pos) FIRE)
    as [m | e | h] eqn:Hset; [| exact Hinv | exact Hinv].
  apply IH; [intros p Hp; apply Hl; right; exact Hp |].
  apply burntOnly_setFire; [exact Hinv | apply Hl; left; reflexivity |
                            exact Hset].
Qed.

Lemma spreadFire_burntOnly m0 s w :
  burntOnly m0 s -> burntOnly m0 (snd (fst (spreadFire s w))).
Proof.
  intros Hinv. unfold spreadFire.
  destruct (spreadCandidates (buildingMap s) (fireSpreadRate s)
              (firePositions s) [] w) as [[l | e | h] w1] eqn:Hc;
    [| exact Hinv | exact Hinv].
  pose proof (applyFire_burntOnly m0 l s) as Ha.
  destruct (applyFire l s) as [r s'] eqn:Hs. simpl in *. apply Ha;
    [| exact Hinv].
  intros p Hp.
  destruct (spreadCandidates_targets _ _ _ _ _ _ _ Hc p Hp)
    as [[] | (fireKey & src & _ & _ & Ht)].
  apply (burntOnly_walkable m0 s); [exact Hinv | apply Ht].
Qed.

Lemma step_burntOnly m0 s w :
  burntOnly m0 s -> burntOnly m0 (snd (fst (step s w))).
Proof.
  intros Hinv. destruct (step s w) as [[r s'] w'] eqn:Hs. simpl.
  destruct (step_stages _ _ _ _ _ Hs) as (r1 & s1 & w1 & Hf & Hm & Hk).
  apply (burntOnly_frame m0 s1); [exact Hm | exact Hk |].
  pose proof (spreadFire_burntOnly m0 s w Hinv) as H1.
  rewrite Hf in H1. exact H1.
Qed.

(** The reset loop sets the cells of its keys to Walkable and no other. *)
Lemma clearFire_spec keys : forall m,
  (forall k, In k keys ->
     exists q, k = positionToKey q /\ kind m q <> None) ->
  exists m',
    clearFire keys m = (Ok tt, m') /\
    forall p, kind m' p
              = if has keys (positionToKey p) then Some WALKABLE
                else kind m p.
Proof.
  induction keys as [| k rest IH]; intros m Hkeys; cbn [clearFire].
  - exists m. split; reflexivity.
  - destruct (Hkeys k (or_introl eq_refl)) as (q & -> & Hq).
    rewrite keyToPosition_positionToKey.
    destruct (proj2 (setCell_Ok_iff m (x q) (y q) (floor q) WALKABLE))
      as (m1 & Hset).
    { rewrite position_eta. destruct (kind m q) as [c |]; [eauto |].
      contradiction. }
    rewrite Hset.
    destruct (IH m1) as (m' & Hclear & Hkind).
    { intros k' Hk'. destruct (Hkeys k' (or_intror Hk')) as (q' & -> & Hq').
      exists q'. split; [reflexivity |].
      rewrite (kind_setCell _ _ _ _ _ _ q' Hset).
      destruct (positionsEqual q' _); [discriminate | exact Hq']. }
    exists m'. split; [exact Hclear |]. intros p. rewrite Hkind.
    rewrite (kind_setCell _ _ _ _ _ _ p Hset), position_eta.
    unfold has. cbn [existsb]. rewrite key_eqb.
    fold (has rest (positionToKey p)).
    destruct (positionsEqual p q), (has rest (positionToKey p)); reflexivity.
Qed.

Lemma has_In s k : has s k = true <-> In k s.
Proof.
  unfold has. rewrite existsb_exists. split.
  - intros (k' & Hk' & He). apply String.eqb_eq in He. subst. exact Hk'.
  - intros H. exists k. split; [exact H | apply String.eqb_refl].
Qed.

(** Under the invariant the reset returns, and leaves the first map. *)
Lemma resetSimulation_spec m0 s w :
  burntOnly m0 s ->
  exists s',
    resetSimulation s w = (Ok tt, s', w) /\
    firePositions s' = [] /\
    (forall p, kind (buildingMap s') p = kind m0 p) /\
    timestep s' = 0 /\ isSimulationRunning s' = false /\
    people s' = map resetPerson (people s) /\
    fireSpreadRate s' = fireSpreadRate s /\
    simulationSpeed s' = simulationSpeed s.
Proof.
  intros [Hkeys Hmap]. unfold resetSimulation.
  destruct (clearFire_spec (firePositions s) (buildingMap s))
    as (m' & Hclear & Hkind).
  { intros k Hk. destruct (Hkeys k Hk) as (q & -> & Hq). exists q.
    split; [reflexivity |]. rewrite Hmap.
    rewrite (proj2 (has_In _ _) Hk). discriminate. }
  cbn [firePositions buildingMap withRunning]. rewrite Hclear.
  eexists. split; [reflexivity |]. simpl.
  repeat (split; [reflexivity |]). split; [| repeat split; reflexivity].
  intros p. rewrite Hkind, Hmap.
  destruct (has (firePositions s) (positionToKey p)) eqn:Hh; [| reflexivity].
  apply has_In in Hh. destruct (Hkeys _ Hh) as (q & Heq & Hq).
  apply positionToKey_inj in Heq. subst q. symmetry. exact Hq.
Qed.

Lemma run_burntOnly m0 op s w :
  burntOnly m0 s -> burntOnly m0 (fst (run op s w)).
Proof.
  intros Hinv.
  destruct op as [pos | pos nm | pid | pid newPath | | | | | | rate];
    simpl; try exact Hinv.
  - destruct (startFire pos s w) as [[r s'] w'] eqn:H. simpl.
    apply startFire_effect in H.
    destruct H as [(-> & _) | (_ & _ & Hk & m & Hset & ->)]; [exact Hinv |].
    apply burntOnly_setFire; [exact Hinv | | exact Hset].
    apply (burntOnly_walkable m0 s); assumption.
  - destruct (addPerson pos nm s w) as [[r s'] w'] eqn:H. simpl.
    apply addPerson_frame in H. destruct H as [Hm Hf].
    apply (burntOnly_frame m0 s); assumption.
  - destruct (resetSimulation_spec m0 s w Hinv)
      as (s' & Hr & Hf & Hk & _). rewrite Hr. simpl.
    split; [rewrite Hf; intros k [] |].
    intros p. rewrite Hf. simpl. apply Hk.
  - apply step_burntOnly. exact Hinv.
  - destruct (recalculateBlockedPaths s w) as [[r s'] w'] eqn:H. simpl.
    apply recalculateBlockedPaths_frame in H. destruct H as (Hm & Hf & _).
    apply (burntOnly_frame m0 s); assumption.
Qed.

Lemma runAll_burntOnly m0 ops : forall s w,
  burntOnly m0 s -> burntOnly m0 (fst (runAll ops s w)).
Proof.
  induction ops as [| op rest IH]; intros s w Hinv; simpl; [exact Hinv |].
  destruct (run op s w) as [s' w'] eqn:H. apply IH.
  change s' with (fst (s', w')). rewrite <- H. apply run_burntOnly.
  exact Hinv.
Qed.

Lemma burntOnly_init s0 : firePositions s0 = [] -> burntOnly (buildingMap s0) s0.
Proof.
  intros Hf. split; rewrite Hf; [intros k [] | reflexivity].
Qed.

(** X12. From a service with an empty fire set, after any sequence of calls
    (fires, ticks, resets, people coming and going, calls that throw), the
    map and the fire set agree: a cell whose key is in the fire set is Fire
    and was Walkable on the first map, and every other cell has the kind it
    had on the first map. *)
Theorem fire_set_mirrors_map s0 w0 ops p :
  firePositions s0 = [] ->
  let s := fst (runAll ops s0 w0) in
  (In (positionToKey p) (firePositions s) ->
   kind (buildingMap s) p = Some FIRE /\
   kind (buildingMap s0) p = Some WALKABLE) /\
  (~ In (positionToKey p) (firePositions s) ->
   kind (buildingMap s) p = kind (buildingMap s0) p).
Proof.
  intros Hf s.
  destruct (runAll_burntOnly (buildingMap s0) ops s0 w0 (burntOnly_init s0 Hf))
    as [Hkeys Hmap].
  fold s in Hkeys, Hmap. split.
  - intros Hin. split.
    + rewrite Hmap. rewrite (proj2 (has_In _ _) Hin). reflexivity.
    + destruct (Hkeys _ Hin) as (q & Heq & Hq).
      apply positionToKey_inj in Heq. subst q. exact Hq.
  - intros Hout. rewrite Hmap.
    destruct (has (firePositions s) (positionToKey p)) eqn:Hh;
      [| reflexivity].
    apply has_In in Hh. contradiction.
Qed.

Lemma fire_set_mirrors_map_witness :
  let s := fst (runAll [OpStartFire (at0 2 2); OpStep; OpAddPerson (at0 3 3) None]
                  (service exitRoom) (constWorld 0)) in
  kind (buildingMap s) (at0 2 2) = Some FIRE /\
  kind exitRoom (at0 2 2) = Some WALKABLE.
Proof.
  apply (fire_set_mirrors_map (service exitRoom) (constWorld 0)
           [OpStartFire (at0 2 2); OpStep; OpAddPerson (at0 3 3) None]
           (at0 2 2)).
  - reflexivity.
  - vm_compute. auto 20.
Defined.

(** X13. Reset undoes the fire: from a service with an empty fire set, after
    any sequence of calls, [resetSimulation] returns without throwing, and
    leaves every cell with the kind it had on the first map, an empty fire
    set, timestep 0, the simulation stopped, and every person with an empty
    path, index 0 and not evacuated. *)
Theorem resetSimulation_restores s0 w0 ops w :
  firePositions s0 = [] ->
  exists s',
    resetSimulation (fst (runAll ops s0 w0)) w = (Ok tt, s', w) /\
    firePositions s' = [] /\
    (forall p, kind (buildingMap s') p = kind (buildingMap s0) p) /\
    timestep s' = 0 /\ isSimulationRunning s' = false /\
    people s' = map resetPerson (people (fst (runAll ops s0 w0))).
Proof.
  intros Hf.
  destruct (resetSimulation_spec (buildingMap s0) (fst (runAll ops s0 w0)) w)
    as (s' & H1 & H2 & H3 & H4 & H5 & H6 & _).
  - apply runAll_burntOnly. apply burntOnly_init. exact Hf.
  - exists s'. repeat (split; [assumption |]). exact H6.
Qed.

Lemma resetSimulation_restores_witness :
  exists s',
    resetSimulation
      (fst (runAll [OpStartFire (at0 2 2); OpStep] (service exitRoom)
              (constWorld 0))) (constWorld 0)
    = (Ok tt, s', constWorld 0) /\
    firePositions s' = [] /\
    (forall p, kind (buildingMap s') p = kind exitRoom p) /\
    timestep s' = 0 /\ isSimulationRunning s' = false /\
    people s'
    = map resetPerson
        (people (fst (runAll [OpStartFire (at0 2 2); OpStep]
                        (service exitRoom) (constWorld 0)))).
Proof.
  apply (resetSimulation_restores (service exitRoom) (constWorld 0)
           [OpStartFire (at0 2 2); OpStep] (constWorld 0)).
  reflexivity.
Defined.

(** *** People in a tick *)

Lemma forEachPerson_rel (body : Person -> result Person)
    (R : Person -> Person -> Prop) :
  (forall person, R person person) ->
  (forall person person', body person = Ok person' -> R person person') ->
  forall persons, Forall2 R persons (snd (forEachPerson body persons)).
Proof.
  intros Hrefl Hbody persons.
  induction persons as [| person rest IH]; simpl; [constructor |].
  assert (Hsame : Forall2 R (person :: rest) (person :: rest)).
  { clear IH. induction (person :: rest); constructor; auto. }
  destruct (body person) as [person' | e | h] eqn:Hb; [| exact Hsame
                                                       | exact Hsame].
  destruct (forEachPerson body rest) as [r rest']. simpl in *.
  constructor; [apply Hbody; exact Hb | exact IH].
Qed.

Lemma Forall2_compose {A} (R : A -> A -> Prop) :
  (forall a b c, R a b -> R b c -> R a c) ->
  forall l1 l2 l3, Forall2 R l1 l2 -> Forall2 R l2 l3 -> Forall2 R l1 l3.
Proof.
  intros Htrans l1 l2 l3 H12. revert l3.
  induction H12 as [| a b l1 l2 Hab H12 IH]; intros l3 H23;
    inversion H23; subst; constructor; eauto.
Qed.

Lemma moved_refl m person : moved m person person.
Proof. unfold moved. auto. Qed.

Lemma movePerson_moved m person person' :
  movePerson m person = Ok person' -> moved m person person'.
Proof.
  unfold movePerson.
  destruct (isEvacuated person) eqn:Hev; cbn [orb];
    [intros H; injection H as <-; apply moved_refl |].
  destruct (len (path person) =? 0) eqn:Hlen; cbn [orb];
    [intros H; injection H as <-; apply moved_refl |].
  destruct (truthy (trapped person)) eqn:Htr;
    [intros H; injection H as <-; apply moved_refl |].
  assert (Hguard : isEvacuated person = true \/ path person = []
                   \/ trapped person = Some true -> False).
  { intros [H | [H | H]]; [congruence | |].
    - rewrite H in Hlen. discriminate.
    - rewrite H in Htr. discriminate. }
  destruct (currentPathIndex person <? len (path person) - 1);
    [| intros H; injection H as <-; apply moved_refl].
  destruct (index (path person) _) as [nextPosition |] eqn:Hidx;
    [| discriminate]. cbn [deref bind].
  destruct (cellAt m (x nextPosition) (y nextPosition) (floor nextPosition))
    as [cellType | e | h] eqn:Hc; try discriminate. cbn [bind].
  apply cellAt_kind in Hc.
  destruct (cellIs cellType FIRE) eqn:Hfire.
  - destruct (getExitPositions m) as [exits | e | h]; try discriminate.
    cbn [bind].
    destruct (firstExitPath (position person) m exits)
      as [[p |] | e | h]; try discriminate; cbn [bind];
      intros H; injection H as <-; unfold moved; simpl;
      (split; [reflexivity |]); (split; [intros Hg; contradiction |]);
      left; reflexivity.
  - intros H. injection H as <-. unfold moved. simpl.
    split; [reflexivity |]. split; [intros Hg; contradiction |]. right.
    split; [apply (index_In _ _ _ Hidx) |].
    rewrite Hc, Hev. split; [| auto].
    intros Hk. rewrite Hk in Hfire. discriminate.
Qed.

(** X14. [movePeople] never moves a person onto a cell on fire: whatever it
    returns, it leaves the map, the fire set and the world alone, keeps the
    people in their order, leaves every person who is evacuated, trapped or
    without a path as they were, and a person whose position changed stands
    on a cell of their path that is not on fire, at the index
    [min(index + speed, length - 1)], and is evacuated when the cell is an
    Exit. *)
Theorem movePeople_never_into_fire s w :
  buildingMap (snd (fst (movePeople s w))) = buildingMap s /\
  firePositions (snd (fst (movePeople s w))) = firePositions s /\
  timestep (snd (fst (movePeople s w))) = timestep s /\
  snd (movePeople s w) = w /\
  Forall2 (moved (buildingMap s)) (people s)
    (people (snd (fst (movePeople s w)))).
Proof.
  unfold movePeople.
  pose proof (forEachPerson_rel (movePerson (buildingMap s))
                (moved (buildingMap s)) (moved_refl (buildingMap s))
                (movePerson_moved (buildingMap s)) (people s)) as H.
  destruct (forEachPerson (movePerson (buildingMap s)) (people s))
    as [r people']. simpl in *. auto.
Qed.

Lemma ticked_refl person : ticked person person.
Proof. unfold ticked. auto. Qed.

Lemma ticked_trans a b c : ticked a b -> ticked b c -> ticked a c.
Proof.
  unfold ticked. intros (H1 & H2 & H3 & H4) (H5 & H6 & H7 & H8).
  split; [congruence |]. split; [congruence |]. split; [congruence |].
  intros Hev. specialize (H4 Hev). subst b. auto.
Qed.

Lemma movePerson_ticked m person person' :
  movePerson m person = Ok person' -> ticked person person'.
Proof.
  unfold movePerson.
  destruct (isEvacuated person) eqn:Hev; cbn [orb];
    [intros H; injection H as <-; apply ticked_refl |].
  destruct (_ || _); [intros H; injection H as <-; apply ticked_refl |].
  destruct (_ <? _); [| intros H; injection H as <-; apply ticked_refl].
  destruct (index (path person) _) as [nextPosition |];
    [| discriminate]. cbn [deref bind].
  destruct (cellAt m _ _ _) as [cellType | e | h]; try discriminate.
  cbn [bind]. destruct (cellIs cellType FIRE).
  - destruct (getExitPositions m) as [exits | e | h]; try discriminate.
    cbn [bind].
    destruct (firstExitPath (position person) m exits)
      as [[p |] | e | h]; try discriminate; cbn [bind];
      intros H; injection H as <-; unfold ticked; simpl;
      repeat (split; [reflexivity |]); congruence.
  - intros H. injection H as <-. unfold ticked. simpl.
    repeat (split; [reflexivity |]). congruence.
Qed.

Lemma recalculatePerson_ticked exits m person person' :
  recalculatePerson exits m person = Ok person' -> ticked person person'.
Proof.
  unfold recalculatePerson.
  destruct (isEvacuated person) eqn:Hev;
    [intros H; injection H as <-; apply ticked_refl |].
  destruct (needsNewPath person m) as [stale | e | h]; try discriminate.
  cbn [bind].
  destruct (negb stale); [intros H; injection H as <-; apply ticked_refl |].
  destruct (bestExitPath _ _ _ _ _) as [[best |] | e | h];
    try discriminate; cbn [bind]; intros H; injection H as <-;
    unfold ticked; simpl; repeat (split; [reflexivity |]); congruence.
Qed.

Lemma spreadFire_frame s w :
  people (snd (fst (spreadFire s w))) = people s /\
  timestep (snd (fst (spreadFire s w))) = timestep s /\
  isSimulationRunning (snd (fst (spreadFire s w))) = isSimulationRunning s /\
  fireSpreadRate (snd (fst (spreadFire s w))) = fireSpreadRate s.
Proof.
  unfold spreadFire.
  destruct (spreadCandidates _ _ _ _ _) as [[l | e | h] w1]; simpl; auto.
  destruct (applyFire l s) as [r s'] eqn:Ha. simpl.
  apply applyFire_effect in Ha. tauto.
Qed.

(** What a tick does to the people, the flags and the timestep. *)
Lemma step_outcome s w :
  Forall2 ticked (people s) (people (snd (fst (step s w)))) /\
  isSimulationRunning (snd (fst (step s w))) = isSimulationRunning s /\
  fireSpreadRate (snd (fst (step s w))) = fireSpreadRate s /\
  timestep (snd (fst (step s w)))
  = match fst (fst (step s w)) with
    | Ok _ => timestep s + 1
    | _ => timestep s
    end.
Proof.
  unfold step.
  pose proof (spreadFire_frame s w) as (Hp1 & Ht1 & Hr1 & Hf1).
  destruct (spreadFire s w) as [[r1 s1] w1]. simpl in Hp1, Ht1, Hr1, Hf1.
  assert (H1 : Forall2 ticked (people s) (people s1)).
  { rewrite Hp1. clear. induction (people s); constructor;
      [apply ticked_refl | assumption]. }
  destruct r1 as [u1 | e | h]; simpl; auto.
  unfold recalculateBlockedPaths.
  destruct (getExitPositions (buildingMap s1)) as [exits | e | h]; simpl;
    auto.
  pose proof (forEachPerson_rel (recalculatePerson exits (buildingMap s1))
                ticked ticked_refl
                (recalculatePerson_ticked exits (buildingMap s1))
                (people s1)) as H2.
  destruct (forEachPerson (recalculatePerson exits (buildingMap s1))
              (people s1)) as [r2 people2]. simpl in H2.
  pose proof (Forall2_compose ticked ticked_trans _ _ _ H1 H2) as H12.
  destruct r2 as [u2 | e | h]; simpl; auto.
  unfold movePeople. cbn [buildingMap people withPeople].
  pose proof (forEachPerson_rel (movePerson (buildingMap s1))
                ticked ticked_refl (movePerson_ticked (buildingMap s1))
                people2) as H3.
  destruct (forEachPerson (movePerson (buildingMap s1)) people2)
    as [r3 people3]. simpl in H3.
  pose proof (Forall2_compose ticked ticked_trans _ _ _ H12 H3) as H123.
  destruct r3 as [u3 | e | h]; simpl; rewrite ?Ht1; auto.
Qed.

(** X15. A tick keeps the people, in their order, with their ids, names and
    speeds, and leaves alone everyone who is evacuated; it keeps the running
    flag and the spread rate; and the timestep goes up by one exactly when
    the tick returns: a tick that throws leaves the timestep as it was. *)
Theorem step_ticks s w :
  Forall2 ticked (people s) (people (snd (fst (step s w)))) /\
  isSimulationRunning (snd (fst (step s w))) = isSimulationRunning s /\
  fireSpreadRate (snd (fst (step s w))) = fireSpreadRate s /\
  timestep (snd (fst (step s w)))
  = match fst (fst (step s w)) with
    | Ok _ => timestep s + 1
    | _ => timestep s
    end.
Proof. exact (step_outcome s w). Qed.


(** *** Replanning twice *)

(** A path the loop over the exits keeps is not empty and has no cell on
    fire. *)
Lemma bestExitPath_clear from m exits : forall bestPath shortest best,
  (forall b, bestPath = Some b ->
     b <> [] /\ isPathBlockedByFire b m = Ok false) ->
  bestExitPath from m exits bestPath shortest = Ok (Some best) ->
  best <> [] /\ isPathBlockedByFire best m = Ok false.
Proof.
  induction exits as [| exit rest IH]; intros bestPath shortest best Hb;
    cbn [bestExitPath].
  - intros H. injection H as ->. apply Hb. reflexivity.
  - destruct (findPathAStar from exit m) as [[c |] | e | h] eqn:Hc;
      try discriminate; cbn [bind]; [| apply IH; exact Hb].
    destruct (isPathBlockedByFire c m) as [blocked | e | h] eqn:Hblocked;
      try discriminate. cbn [bind].
    destruct (negb blocked && shorterThan c shortest) eqn:Hkeep;
      [| apply IH; exact Hb].
    apply IH. intros b Heq. injection Heq as <-.
    apply andb_true_iff in Hkeep. destruct Hkeep as [Hnb _].
    apply negb_true_iff in Hnb. subst blocked. split; [| exact Hblocked].
    apply AStarFacts.astarSearch_legal in Hc. apply Hc.
Qed.

(** What the replanning makes of a person, it leaves as it is. *)
Lemma recalculatePerson_fixed exits m person person' :
  recalculatePerson exits m person = Ok person' ->
  recalculatePerson exits m person' = Ok person'.
Proof.
  unfold recalculatePerson at 1.
  destruct (isEvacuated person) eqn:Hev.
  { intros H. injection H as <-. unfold recalculatePerson. rewrite Hev.
    reflexivity. }
  destruct (needsNewPath person m) as [old | e | h] eqn:Hstale;
    try discriminate. cbn [bind].
  destruct (negb old) eqn:Hold.
  { intros H. injection H as <-. unfold recalculatePerson.
    rewrite Hev, Hstale. cbn [bind]. rewrite Hold. reflexivity. }
  destruct (bestExitPath (position person) m exits None None)
    as [[best |] | e | h] eqn:Hbest; try discriminate; cbn [bind];
    intros H; injection H as <-; unfold recalculatePerson;
    cbn [isEvacuated].
  - apply bestExitPath_clear in Hbest; [| intros b Hb; discriminate].
    destruct Hbest as [Hne Hclear].
    unfold needsNewPath. cbn [path currentPathIndex].
    unfold slice_from. cbn [Z.ltb Z.compare Z.to_nat skipn].
    rewrite Hclear. cbn [bind].
    destruct best as [| b0 best]; [contradiction |]. reflexivity.
  - unfold needsNewPath in *. cbn [path currentPathIndex position].
    destruct (isPathBlockedByFire _ m) as [blocked | e | h];
      try discriminate. cbn [bind] in *. injection Hstale as Hs.
    rewrite Hs, Hold, Hbest. reflexivity.
Qed.

Lemma forEachPerson_fixed (body : Person -> result Person) :
  (forall person person', body person = Ok person' ->
     body person' = Ok person') ->
  forall persons persons',
    forEachPerson body persons = (Ok tt, persons') ->
    forEachPerson body persons' = (Ok tt, persons').
Proof.
  intros Hbody persons.
  induction persons as [| person rest IH]; intros persons'; simpl.
  - intros H. injection H as <-. reflexivity.
  - destruct (body person) as [person1 | e | h] eqn:Hb; try discriminate.
    destruct (forEachPerson body rest) as [r rest'] eqn:Hrest.
    intros H. injection H as -> <-. simpl.
    rewrite (Hbody _ _ Hb), (IH rest' eq_refl). reflexivity.
Qed.

(** X19. Replanning is idempotent: when [recalculateBlockedPaths] returns,
    a second call right after it returns as well and changes nothing, on
    every map: a new path is not empty and has no cell on fire, so nobody
    who got one needs another, and who was marked trapped is marked trapped
    again. *)
Theorem recalculateBlockedPaths_idempotent s w s' w' :
  recalculateBlockedPaths s w = (Ok tt, s', w') ->
  recalculateBlockedPaths s' w' = (Ok tt, s', w').
Proof.
  unfold recalculateBlockedPaths.
  destruct (getExitPositions (buildingMap s)) as [exits | e | h] eqn:He;
    try discriminate.
  destruct (forEachPerson (recalculatePerson exits (buildingMap s))
              (people s)) as [r persons'] eqn:Hp.
  intros H. injection H as -> <- <-.
  cbn [buildingMap people withPeople]. rewrite He.
  rewrite (forEachPerson_fixed _ (recalculatePerson_fixed exits
                                    (buildingMap s)) _ _ Hp).
  reflexivity.
Qed.

Lemma recalculateBlockedPaths_idempotent_witness :
  let s' := snd (fst (recalculateBlockedPaths occupied (constWorld 0.5))) in
  recalculateBlockedPaths s' (constWorld 0.5) = (Ok tt, s', constWorld 0.5).
Proof.
  cbv zeta.
  apply (recalculateBlockedPaths_idempotent occupied (constWorld 0.5)).
  vm_compute. reflexivity.
Defined.

(** *** The exits and the fire on a path *)

Lemma NoDup_map_injective {A B} (f : A -> B) l :
  (forall a b, f a = f b -> a = b) -> NoDup l -> NoDup (map f l).
Proof.
  intros Hinj Hl. induction Hl as [| a l Ha Hl IH]; simpl; constructor;
    [| exact IH].
  intros Hin. apply in_map_iff in Hin. destruct Hin as (b & Heq & Hb).
  apply Hinj in Heq. subst b. contradiction.
Qed.

Lemma NoDup_range n : NoDup (range n).
Proof.
  unfold range. apply NoDup_map_injective; [| apply seq_NoDup].
  intros a b H. lia.
Qed.

Lemma NoDup_flat_map {A B} (f : A -> list B) l :
  NoDup l -> (forall a, In a l -> NoDup (f a)) ->
  (forall a a' b, In a l -> In a' l -> In b (f a) -> In b (f a') ->
     a = a') ->
  NoDup (flat_map f l).
Proof.
  induction l as [| a l IH]; intros Hl Hf Hdis; simpl; [constructor |].
  inversion Hl as [| ? ? Ha Hl']; subst.
  apply NoDup_app.
  - apply Hf. left. reflexivity.
  - apply IH; [exact Hl' | intros; apply Hf; right; assumption |].
    intros a1 a2 b H1 H2. apply Hdis; right; assumption.
  - intros b Hb Hin. apply in_flat_map in Hin.
    destruct Hin as (a' & Ha' & Hb').
    assert (a = a').
    { apply (Hdis a a' b); [left; reflexivity | right; exact Ha' | exact Hb
                            | exact Hb']. }
    subst a'. contradiction.
Qed.

Lemma NoDup_exitsIn m : NoDup (exitsIn m).
Proof.
  unfold exitsIn.
  apply NoDup_flat_map; [apply NoDup_range | |].
  - intros px _. apply NoDup_flat_map; [apply NoDup_range | |].
    + intros py _. apply NoDup_flat_map; [apply NoDup_range | |].
      * intros pf _. destruct (cellIs _ EXIT);
          [constructor; [intros [] | constructor] | constructor].
      * intros pf pf' b _ _ Hb Hb'.
        destruct (cellIs (kind m (mkPosition px py pf)) EXIT);
          [| destruct Hb].
        destruct (cellIs (kind m (mkPosition px py pf')) EXIT);
          [| destruct Hb'].
        destruct Hb as [<- | []]. destruct Hb' as [Heq | []]. congruence.
    + intros py py' b _ _ Hb Hb'.
      apply in_flat_map in Hb. destruct Hb as (pf & _ & Hb).
      apply in_flat_map in Hb'. destruct Hb' as (pf' & _ & Hb').
      destruct (cellIs (kind m (mkPosition px py pf)) EXIT);
        [| destruct Hb].
      destruct (cellIs (kind m (mkPosition px py' pf')) EXIT);
        [| destruct Hb'].
      destruct Hb as [<- | []]. destruct Hb' as [Heq | []]. congruence.
  - intros px px' b _ _ Hb Hb'.
    apply in_flat_map in Hb. destruct Hb as (py & _ & Hb).
    apply in_flat_map in Hb. destruct Hb as (pf & _ & Hb).
    apply in_flat_map in Hb'. destruct Hb' as (py' & _ & Hb').
    apply in_flat_map in Hb'. destruct Hb' as (pf' & _ & Hb').
    destruct (cellIs (kind m (mkPosition px py pf)) EXIT);
      [| destruct Hb].
    destruct (cellIs (kind m (mkPosition px' py' pf')) EXIT);
      [| destruct Hb'].
    destruct Hb as [<- | []]. destruct Hb' as [Heq | []]. congruence.
Qed.

(** X20. On a rectangular map [getExitPositions] returns the Exit cells,
    each of them once, and nothing else. *)
Theorem getExitPositions_exact m :
  rectangular m ->
  exists exits,
    getExitPositions m = Ok exits /\ NoDup exits /\
    forall p, In p exits <-> kind m p = Some EXIT.
Proof.
  intros Hrect. exists (exitsIn m).
  split; [apply (ReplanFacts.getExitPositions_ok m Hrect) |].
  split; [apply NoDup_exitsIn |].
  intros p. apply (ReplanFacts.In_exitsIn m Hrect).
Qed.

Lemma getExitPositions_exact_witness :
  exists exits,
    getExitPositions exitRoom = Ok exits /\ NoDup exits /\
    forall p, In p exits <-> kind exitRoom p = Some EXIT.
Proof.
  apply getExitPositions_exact. apply rectangularb_ok. reflexivity.
Defined.

(** X21. [isPathBlockedByFire] on a path of cells of a rectangular map
    returns whether some cell of the path is on fire; a path whose first
    cell lies outside the columns of the map makes it throw a TypeError. *)
Theorem isPathBlockedByFire_exact m route :
  rectangular m ->
  ((forall q, In q route -> inBounds m q) ->
   exists blocked,
     isPathBlockedByFire route m = Ok blocked /\
     (blocked = true <-> exists q, In q route /\ kind m q = Some FIRE)) /\
  (forall q rest, route = q :: rest -> ~ 0 <= x q < widthOf m ->
     isPathBlockedByFire route m = Throw TypeError).
Proof.
  intros Hrect. split.
  - intros Hin. exists (onFire m route).
    split; [apply (ReplanFacts.isPathBlockedByFire_ok m Hrect route Hin) |].
    unfold onFire. rewrite existsb_exists. split.
    + intros (q & Hq & Hk). exists q. split; [exact Hq |].
      apply cellIs_true. exact Hk.
    + intros (q & Hq & Hk). exists q. split; [exact Hq |].
      apply cellIs_true. exact Hk.
  - intros q rest -> Hout. cbn [isPathBlockedByFire]. unfold cellAt.
    replace (index m (x q)) with (@None (list (list CellType)));
      [reflexivity |].
    symmetry. apply index_None_iff. exact Hout.
Qed.

Lemma isPathBlockedByFire_exact_witness :
  isPathBlockedByFire [at0 9 0] exitRoom = Throw TypeError.
Proof.
  apply (proj2 (isPathBlockedByFire_exact exitRoom [at0 9 0]
                  (rectangularb_ok exitRoom eq_refl)) (at0 9 0) []).
  - reflexivity.
  - vm_compute. intros [_ H]. discriminate H.
Defined.


(** *** The reroute of a person whose next cell burns *)

(** X22. When the next cell of a person is on fire, [movePeople] takes the
    first exit, in the order of [getExitPositions], that A* reaches by a path
    of more than one cell with no cell on fire, not the nearest one: on a
    rectangular map, from a cell of the map, [firstExitPath] returns; a path
    it returns is acceptable for an exit before which no exit has an
    acceptable path; and it returns [null] only when no exit has one. *)
Theorem firstExitPath_first m from exits :
  rectangular m -> inBounds m from ->
  exists res,
    firstExitPath from m exits = Ok res /\
    match res with
    | Some route =>
        exists before exit after,
          exits = before ++ exit :: after /\
          acceptable m from exit route /\
          forall e c, In e before -> ~ acceptable m from e c
    | None => forall e c, In e exits -> ~ acceptable m from e c
    end.
Proof.
  intros Hrect Hfrom. induction exits as [| exit rest IH];
    cbn [firstExitPath].
  - exists None. split; [reflexivity |]. intros e c [].
  - destruct (AStarFacts.astarSearch_total (fun g h => (g + h)%float) exit m
                Hrect from Hfrom) as (candidate & Hcand).
    fold (findPathAStar from exit m) in Hcand. rewrite Hcand. cbn [bind].
    assert (Hskip : (forall c, ~ acceptable m from exit c) ->
              exists res,
                firstExitPath from m rest = Ok res /\
                match res with
                | Some route =>
                    exists before exit0 after,
                      exit :: rest = before ++ exit0 :: after /\
                      acceptable m from exit0 route /\
                      forall e c, In e before -> ~ acceptable m from e c
                | None =>
                    forall e c, In e (exit :: rest) ->
                      ~ acceptable m from e c
                end).
    { intros Hno. destruct IH as (res & Hres & Hspec). exists res.
      split; [exact Hres |]. destruct res as [route |].
      - destruct Hspec as (before & exit0 & after & -> & Hacc & Hbefore).
        exists (exit :: before), exit0, after. split; [reflexivity |].
        split; [exact Hacc |]. intros e c [<- | He]; [apply Hno |].
        apply Hbefore. exact He.
      - intros e c [<- | He]; [apply Hno | apply Hspec; exact He]. }
    destruct candidate as [c |].
    + destruct (Z.gtb_spec (len c) 1) as [Hlen | Hlen].
      * destruct (ReplanFacts.findPathAStar_inBounds m Hrect from exit c
                    Hfrom Hcand) as [Hpath Hcb].
        rewrite (ReplanFacts.isPathBlockedByFire_ok m Hrect c Hcb).
        cbn [bind]. destruct (onFire m c) eqn:Hfire; cbn [negb].
        -- apply Hskip. intros c' (Hc' & _ & _ & Hff).
           rewrite Hcand in Hc'. injection Hc' as <-.
           apply (ReplanFacts.onFire_false m) in Hff. congruence.
        -- exists (Some c). split; [reflexivity |].
           exists [], exit, rest. split; [reflexivity |].
           split; [| intros e c' []].
           split; [exact Hcand |]. split; [exact Hpath |].
           split; [lia |]. apply (ReplanFacts.onFire_false m). exact Hfire.
      * apply Hskip. intros c' (Hc' & _ & Hl & _).
        rewrite Hcand in Hc'. injection Hc' as <-. lia.
    + apply Hskip. intros c' (Hc' & _). rewrite Hcand in Hc'. discriminate.
Qed.

Lemma firstExitPath_first_witness :
  exists res,
    firstExitPath (at0 3 2) exitRoom [at0 1 2] = Ok res /\
    match res with
    | Some route =>
        exists before exit after,
          [at0 1 2] = before ++ exit :: after /\
          acceptable exitRoom (at0 3 2) exit route /\
          forall e c, In e before -> ~ acceptable exitRoom (at0 3 2) e c
    | None =>
        forall e c, In e [at0 1 2] -> ~ acceptable exitRoom (at0 3 2) e c
    end.
Proof.
  apply firstExitPath_first.
  - apply rectangularb_ok. reflexivity.
  - unfold inBounds. vm_compute. intuition discriminate.
Defined.

(** *** The published statistics *)

Lemma length_partition {A} (f : A -> bool) l :
  (List.length (filter f l) + List.length (filter (fun a => negb (f a)) l)
   = List.length l)%nat.
Proof.
  induction l as [| a l IH]; simpl; [reflexivity |].
  destruct (f a); simpl; lia.
Qed.

Lemma ticked_evacuated persons persons' :
  Forall2 ticked persons persons' ->
  (List.length (filter (fun p => isEvacuated p) persons)
   <= List.length (filter (fun p => isEvacuated p) persons'))%nat /\
  List.length persons' = List.length persons.
Proof.
  induction 1 as [| p p' l l' Hp Hl [IH1 IH2]]; simpl; [auto |].
  destruct Hp as (_ & _ & _ & Hev).
  destruct (isEvacuated p) eqn:Hp.
  - rewrite (Hev eq_refl), Hp. simpl. lia.
  - destruct (isEvacuated p'); simpl; lia.
Qed.

Lemma length_add s k : (List.length s <= List.length (add s k))%nat.
Proof.
  unfold add. destruct (has s k); [lia |]. rewrite length_app. simpl. lia.
Qed.

Lemma applyFire_length l : forall s,
  (List.length (firePositions s)
   <= List.length (firePositions (snd (applyFire l s))))%nat.
Proof.
  induction l as [| pos rest IH]; intros s; simpl; [lia |].
  destruct (setCell _ _ _ _ _) as [m | e | h]; simpl; try lia.
  etransitivity; [| apply IH]. simpl. apply length_add.
Qed.

Lemma step_fire_length s w :
  (List.length (firePositions s)
   <= List.length (firePositions (snd (fst (step s w)))))%nat.
Proof.
  destruct (step s w) as [[r s'] w'] eqn:Hs. simpl.
  destruct (step_stages _ _ _ _ _ Hs) as (r1 & s1 & w1 & Hf & _ & Hk).
  rewrite Hk. unfold spreadFire in Hf.
  destruct (spreadCandidates _ _ _ _ _) as [[l | e | h] w2].
  - pose proof (applyFire_length l s) as Hl.
    destruct (applyFire l s) as [r0 s0]. injection Hf as _ <- _. exact Hl.
  - injection Hf as _ <- _. lia.
  - injection Hf as _ <- _. lia.
Qed.

(** X23. The statistics the service publishes add up and only grow during
    a run: evacuated plus remaining is the number of people, and across a
    tick, whether it returns or throws, the number of people stays, and the
    number of evacuated people and the fire area never go down. *)
Theorem simulationStats_monotone s w :
  let before := simulationStats s in
  let after := simulationStats (snd (fst (step s w))) in
  evacuatedPeople before + peopleRemaining before = totalPeople before /\
  totalPeople after = totalPeople before /\
  evacuatedPeople before <= evacuatedPeople after /\
  fireArea before <= fireArea after.
Proof.
  cbv zeta. unfold simulationStats. simpl. unfold len.
  pose proof (length_partition (fun p => isEvacuated p) (people s)) as H1.
  destruct (step_outcome s w) as (Ht & _).
  apply ticked_evacuated in Ht. destruct Ht as [H2 H3].
  pose proof (step_fire_length s w) as H4. lia.
Qed.


(** *** The spread rate *)

Lemma SFcompare_antisym a b :
  SFcompare b a = option_map CompOpp (SFcompare a b).
Proof.
  destruct a as [s1 | s1 | | s1 m1 e1], b as [s2 | s2 | | s2 m2 e2];
    try reflexivity; try (destruct s1; reflexivity);
    try (destruct s2; reflexivity);
    try (destruct s1, s2; reflexivity).
  cbn [SFcompare option_map]. f_equal.
  rewrite (Z.compare_antisym e1 e2).
  destruct s1, s2; try reflexivity; destruct (e1 ?= e2); try reflexivity;
    cbn [CompOpp];
    first [ symmetry; apply (Pos.compare_cont_antisym m1 m2 Eq)
          | f_equal; symmetry; apply (Pos.compare_cont_antisym m1 m2 Eq) ].
Qed.

Lemma is_nan_false a :
  is_nan a = false -> SFcompare (Prim2SF a) (Prim2SF a) = Some Eq.
Proof.
  unfold is_nan. rewrite eqb_spec. unfold SFeqb.
  destruct (SFcompare _ _) as [[] |]; simpl; congruence.
Qed.

Lemma SFcompare_defined a b :
  SFcompare a a = Some Eq -> SFcompare b b = Some Eq ->
  exists c, SFcompare a b = Some c.
Proof.
  destruct a, b; simpl; try discriminate; eauto.
Qed.

Lemma ltb_leb a b : (a <? b)%float = true -> (a <=? b)%float = true.
Proof.
  rewrite ltb_spec, leb_spec. unfold SFltb, SFleb.
  destruct (SFcompare _ _) as [[] |]; congruence.
Qed.

(** Of two numbers neither of which is less than the other, each is at most
    the other. *)
Lemma not_ltb_leb a b :
  is_nan a = false -> is_nan b = false ->
  (a <? b)%float = false -> (b <? a)%float = false ->
  (b <=? a)%float = true.
Proof.
  intros Ha Hb. apply is_nan_false in Ha, Hb.
  destruct (SFcompare_defined _ _ Ha Hb) as (c & Hc).
  rewrite !ltb_spec, leb_spec. unfold SFltb, SFleb.
  rewrite (SFcompare_antisym (Prim2SF a) (Prim2SF b)), Hc.
  destruct c; simpl; congruence.
Qed.

(** X27. [setFireSpreadRate] clamps: it changes nothing but the rate; a
    rate that is not NaN is stored as a number between 0 and 1, as itself
    when it lies strictly between them; NaN is stored as NaN. *)
Theorem setFireSpreadRate_clamps rate s w :
  fst (fst (setFireSpreadRate rate s w)) = Ok tt /\
  buildingMap (snd (fst (setFireSpreadRate rate s w))) = buildingMap s /\
  firePositions (snd (fst (setFireSpreadRate rate s w))) = firePositions s /\
  people (snd (fst (setFireSpreadRate rate s w))) = people s /\
  timestep (snd (fst (setFireSpreadRate rate s w))) = timestep s /\
  (is_nan rate = true ->
   is_nan (fireSpreadRate (snd (fst (setFireSpreadRate rate s w)))) = true) /\
  (is_nan rate = false ->
   (0 <=? fireSpreadRate (snd (fst (setFireSpreadRate rate s w))))%float
   = true /\
   (fireSpreadRate (snd (fst (setFireSpreadRate rate s w))) <=? 1)%float
   = true) /\
  ((0 <? rate)%float = true -> (rate <? 1)%float = true ->
   fireSpreadRate (snd (fst (setFireSpreadRate rate s w))) = rate).
Proof.
  unfold setFireSpreadRate. cbn [fst snd buildingMap firePositions people
                                  timestep fireSpreadRate].
  repeat (split; [reflexivity |]).
  assert (Hone : is_nan 1 = false) by reflexivity.
  assert (Hzero : is_nan 0 = false) by reflexivity.
  split; [| split].
  - intros Hnan. unfold mathMin, mathMax. rewrite Hnan.
    rewrite orb_true_r. reflexivity.
  - intros Hnan.
    assert (Hmin : is_nan (mathMin 1 rate) = false
                   /\ (mathMin 1 rate <=? 1)%float = true).
    { unfold mathMin. rewrite Hnan, Hone. cbn [orb].
      destruct (1 <? rate)%float eqn:H1; [split; reflexivity |].
      destruct (rate <? 1)%float eqn:H2;
        [split; [exact Hnan | apply ltb_leb; exact H2] |].
      change (isNegZero 1) with false. cbv iota.
      split; [exact Hnan |]. apply not_ltb_leb; assumption. }
    destruct Hmin as [Hn Hle]. set (x := mathMin 1 rate) in *.
    unfold mathMax. rewrite Hn, Hzero. cbn [orb].
    destruct (0 <? x)%float eqn:H1;
      [split; [apply ltb_leb; exact H1 | exact Hle] |].
    destruct (x <? 0)%float eqn:H2; [split; reflexivity |].
    change (isNegZero 0) with false. cbv iota. split; reflexivity.
  - intros Hlo Hhi.
    assert (Hnan : is_nan rate = false).
    { unfold is_nan. rewrite eqb_spec. unfold SFeqb.
      rewrite ltb_spec in Hhi. unfold SFltb in Hhi.
      destruct (Prim2SF rate); try reflexivity; simpl in Hhi;
        try discriminate.
      - destruct s0; reflexivity.
      - simpl. rewrite Z.compare_refl. destruct s0; simpl;
          rewrite Pos.compare_cont_refl; reflexivity. }
    assert (Hgt : (1 <? rate)%float = false).
    { rewrite ltb_spec in *. unfold SFltb in *.
      rewrite (SFcompare_antisym (Prim2SF rate) (Prim2SF 1)).
      destruct (SFcompare (Prim2SF rate) (Prim2SF 1)) as [[] |];
        try discriminate; reflexivity. }
    unfold mathMin. rewrite Hnan. change (is_nan 1) with false. cbn [orb].
    rewrite Hgt, Hhi. unfold mathMax. rewrite Hnan.
    change (is_nan 0) with false. cbn [orb]. rewrite Hlo. reflexivity.
Qed.


End ServiceFacts.


(** ** The layout of a new building *)

Module LayoutFacts.
Import Pathfinding Building GridFacts NeighborFacts KeyFacts WriteFacts
       Examples.

(** Arithmetic with the integer divisions of the generator. *)
Ltac dlia := Z.to_euclidean_division_equations; lia.

Lemma In_fromTo from to i : In i (fromTo from to) <-> from <= i < to.
Proof.
  unfold fromTo. rewrite in_map_iff. split.
  - intros (j & <- & Hj). apply CountFacts.In_range in Hj. lia.
  - intros H. exists (i - from). split; [lia |].
    apply CountFacts.In_range. lia.
Qed.

Lemma length_replaceAt {A} (arr : list A) i v :
  List.length (replaceAt arr i v) = List.length arr.
Proof.
  revert i. induction arr as [| a arr IH]; intros [| i]; simpl; auto.
Qed.

Lemma Forall_replaceAt {A} (P : A -> Prop) (arr : list A) i v :
  Forall P arr -> P v -> Forall P (replaceAt arr i v).
Proof.
  intros Harr Hv. revert i.
  induction Harr as [| a arr Ha Harr IH]; intros [| i]; simpl;
    constructor; auto.
Qed.

(** An assignment keeps the lengths of the arrays. *)
Lemma setCell_shape W H F m px py pf v m' :
  hasShape W H F m -> setCell m px py pf v = Ok m' -> hasShape W H F m'.
Proof.
  intros [Hlen Hall]. unfold setCell.
  destruct (index m px) as [column |] eqn:Hc; [| discriminate].
  cbn [deref bind].
  destruct (index column py) as [cells |] eqn:Hy; [| discriminate].
  cbn [deref bind].
  destruct (index cells pf) as [old |]; [| discriminate].
  intros Heq. injection Heq as <-.
  pose proof (proj1 (Forall_forall _ _) Hall column (index_In _ _ _ Hc))
    as [Hcl Hcells].
  pose proof (proj1 (Forall_forall _ _) Hcells cells (index_In _ _ _ Hy))
    as Hfl.
  split; [rewrite length_replaceAt; exact Hlen |].
  apply Forall_replaceAt; [exact Hall |].
  split; [rewrite length_replaceAt; exact Hcl |].
  apply Forall_replaceAt; [exact Hcells |].
  rewrite length_replaceAt. exact Hfl.
Qed.

(** An assignment inside the arrays goes through. *)
Lemma setCell_total W H F m px py pf v :
  hasShape W H F m ->
  0 <= px < Z.of_nat W -> 0 <= py < Z.of_nat H -> 0 <= pf < Z.of_nat F ->
  exists m', setCell m px py pf v = Ok m'.
Proof.
  intros [Hlen Hall] Hx Hy Hf. unfold setCell.
  destruct (proj2 (index_Some_iff m px)) as (column & Hc);
    [unfold len; lia |].
  rewrite Hc. cbn [deref bind].
  pose proof (proj1 (Forall_forall _ _) Hall column (index_In _ _ _ Hc))
    as [Hcl Hcells].
  destruct (proj2 (index_Some_iff column py)) as (cells & Hcy);
    [unfold len; lia |].
  rewrite Hcy. cbn [deref bind].
  pose proof (proj1 (Forall_forall _ _) Hcells cells (index_In _ _ _ Hcy))
    as Hfl.
  cbv beta in Hfl.
  destruct (proj2 (index_Some_iff cells pf)) as (old & Ho);
    [unfold len; lia |].
  rewrite Ho. eauto.
Qed.


Lemma hasShape_dimensions W H F m :
  hasShape W H F m -> (0 < W)%nat -> (0 < H)%nat ->
  widthOf m = Z.of_nat W /\ heightOf m = Z.of_nat H /\
  floorsOf m = Z.of_nat F.
Proof.
  intros [Hlen Hall] HW HH. unfold widthOf, heightOf, floorsOf, len.
  destruct m as [| column0 rest]; [simpl in Hlen; lia |].
  inversion Hall as [| ? ? [Hl0 Hcells0] _]; subst. cbn [hd].
  split; [reflexivity |]. split; [reflexivity |].
  destruct column0 as [| cells0 rest0]; [simpl in HH; lia |].
  inversion Hcells0; subst. reflexivity.
Qed.

Lemma hasShape_blank W H F :
  hasShape W H F (repeat (repeat (repeat WALKABLE F) H) W).
Proof.
  split; [apply repeat_length |].
  apply Forall_forall. intros column Hc. apply repeat_spec in Hc. subst.
  split; [apply repeat_length |].
  apply Forall_forall. intros cells Hc. apply repeat_spec in Hc. subst.
  apply repeat_length.
Qed.

Lemma index_repeat {A} (a : A) n i b :
  index (repeat a n) i = Some b -> b = a.
Proof. intros H. apply index_In in H. apply repeat_spec in H. exact H. Qed.

Lemma kind_blank W H F p c :
  kind (repeat (repeat (repeat WALKABLE F) H) W) p = Some c -> c = WALKABLE.
Proof.
  unfold kind.
  destruct (index _ (x p)) as [column |] eqn:Hc; [| discriminate].
  apply index_repeat in Hc. subst column.
  destruct (index _ (y p)) as [cells |] eqn:Hy; [| discriminate].
  apply index_repeat in Hy. subst cells. apply index_repeat.
Qed.

Lemma blankMap_ok width height floors :
  0 <= width -> 0 <= height -> 0 <= floors ->
  blankMap width height floors
  = Ok (repeat (repeat (repeat WALKABLE (Z.to_nat floors))
                  (Z.to_nat height)) (Z.to_nat width)).
Proof.
  intros Hw Hh Hf. unfold blankMap.
  destruct (Z.ltb_spec width 0); [lia |].
  destruct (Z.ltb_spec height 0); [lia |].
  destruct (Z.ltb_spec floors 0); [lia |].
  rewrite !andb_false_r. reflexivity.
Qed.

Lemma foldM_app {A S} (f : S -> A -> result S) l1 l2 s :
  foldM f (l1 ++ l2) s = (s' <- foldM f l1 s ;; foldM f l2 s').
Proof.
  revert s. induction l1 as [| a l1 IH]; intros s; simpl; [reflexivity |].
  destruct (f s a) as [s1 | e | h]; simpl; [apply IH | |]; reflexivity.
Qed.

(** Assignments inside the arrays all go through, and keep the lengths. *)
Lemma assigns_total W H F ws : forall m,
  hasShape W H F m ->
  (forall a, In a ws -> inRange (Z.of_nat W) (Z.of_nat H) (Z.of_nat F) a) ->
  exists m', foldM assign ws m = Ok m' /\ hasShape W H F m'.
Proof.
  induction ws as [| [[[px py] pf] v] ws IH]; intros m Hm Hws; simpl;
    [eauto |].
  destruct (Hws _ (or_introl eq_refl)) as (Hx & Hy & Hf).
  destruct (setCell_total W H F m px py pf v Hm Hx Hy Hf) as (m1 & H1).
  rewrite H1. cbn [bind]. apply IH.
  - apply (setCell_shape W H F m px py pf v); assumption.
  - intros a Ha. apply Hws. right. exact Ha.
Qed.

(** A cell has the kind it had, or a kind that was assigned to it. *)
Lemma assigns_cases ws : forall m m',
  foldM assign ws m = Ok m' ->
  forall p, kind m' p = kind m p
            \/ exists v, In (x p, y p, floor p, v) ws /\ kind m' p = Some v.
Proof.
  induction ws as [| [[[px py] pf] v] ws IH]; intros m m'; simpl.
  - intros H. injection H as <-. auto.
  - destruct (setCell m px py pf v) as [m1 | e | h] eqn:H1;
      try discriminate. cbn [bind]. intros H p.
    destruct (IH _ _ H p) as [Hsame | (v' & Hin & Hk)]; [| eauto].
    rewrite (kind_setCell _ _ _ _ _ _ p H1) in Hsame.
    destruct (positionsEqual p (mkPosition px py pf)) eqn:He;
      [| left; exact Hsame].
    apply positionsEqual_true in He. subst p. right. exists v. simpl. auto.
Qed.

(** A cell that is only ever assigned [v], and is assigned or already of
    kind [v], ends with kind [v]. *)
Lemma assigns_forced ws p v : forall m m',
  foldM assign ws m = Ok m' ->
  (forall v', In (x p, y p, floor p, v') ws -> v' = v) ->
  kind m p = Some v \/ In (x p, y p, floor p, v) ws ->
  kind m' p = Some v.
Proof.
  induction ws as [| [[[px py] pf] v0] ws IH]; intros m m'; simpl.
  - intros H _ [Hk | []]. injection H as <-. exact Hk.
  - destruct (setCell m px py pf v0) as [m1 | e | h] eqn:H1;
      try discriminate. cbn [bind]. intros H Hall Hsome.
    apply (IH m1 m' H); [intros v' Hv'; apply Hall; right; exact Hv' |].
    rewrite (kind_setCell _ _ _ _ _ _ p H1).
    destruct (positionsEqual p (mkPosition px py pf)) eqn:He.
    + apply positionsEqual_true in He. subst p. simpl in Hall.
      left. f_equal. apply Hall. left. reflexivity.
    + destruct Hsome as [Hk | [Heq | Hin]]; [left; exact Hk | | right;
                                              exact Hin].
      injection Heq as -> -> -> ->. rewrite position_eta in He.
      rewrite positionsEqual_refl in He. discriminate.
Qed.

(** *** Where the generator writes *)

Section Generator.
Variables width height floors : Z.

Lemma perimeterWalls_spec a :
  In a (perimeterWalls width height floors) <->
  exists px py pf,
    a = (px, py, pf, WALL) /\ 0 <= pf < floors /\
    ((0 <= px < width /\ (py = 0 \/ py = height - 1))
     \/ (0 <= py < height /\ (px = 0 \/ px = width - 1))).
Proof.
  unfold perimeterWalls. rewrite in_flat_map. split.
  - intros (pf & Hpf & Hin). apply CountFacts.In_range in Hpf.
    apply in_app_iff in Hin. destruct Hin as [Hin | Hin];
      apply in_flat_map in Hin; destruct Hin as (i & Hi & Hin);
      apply CountFacts.In_range in Hi;
      destruct Hin as [<- | [<- | []]]; eexists; eexists; eexists;
      (split; [reflexivity |]); (split; [exact Hpf |]); auto.
  - intros (px & py & pf & -> & Hpf & Hcase). exists pf.
    split; [apply CountFacts.In_range; exact Hpf |]. apply in_app_iff.
    destruct Hcase as [(Hx & [-> | ->]) | (Hy & [-> | ->])].
    + left. apply in_flat_map. exists px.
      split; [apply CountFacts.In_range; exact Hx | left; reflexivity].
    + left. apply in_flat_map. exists px.
      split; [apply CountFacts.In_range; exact Hx |
              right; left; reflexivity].
    + right. apply in_flat_map. exists py.
      split; [apply CountFacts.In_range; exact Hy | left; reflexivity].
    + right. apply in_flat_map. exists py.
      split; [apply CountFacts.In_range; exact Hy |
              right; left; reflexivity].
Qed.

Lemma internalWalls_spec a :
  In a (internalWalls width height floors) ->
  exists px py pf v,
    a = (px, py, pf, v) /\ 0 <= pf < floors /\
    ((v = WALL /\
      ((px = width / 3 /\ 2 <= py < height / 2)
       \/ (px = 2 * width / 3 /\ height / 2 <= py < height - 2)
       \/ (py = height / 3 /\ 2 <= px < width / 2)
       \/ (py = 2 * height / 3 /\ width / 2 <= px < width - 2)))
     \/ (v = WALKABLE /\
         ((px = width / 3 /\ py = height / 4)
          \/ (px = 2 * width / 3 /\ py = 3 * height / 4)
          \/ (px = width / 4 /\ py = height / 3)
          \/ (px = 3 * width / 4 /\ py = 2 * height / 3)))).
Proof.
  unfold internalWalls. rewrite in_flat_map.
  intros (pf & Hpf & Hin). apply CountFacts.In_range in Hpf.
  repeat (apply in_app_iff in Hin; destruct Hin as [Hin | Hin]).
  - apply in_map_iff in Hin. destruct Hin as (i & <- & Hi).
    apply In_fromTo in Hi. do 4 eexists. split; [reflexivity |].
    split; [exact Hpf |]. left. split; [reflexivity |]. left. auto.
  - apply in_map_iff in Hin. destruct Hin as (i & <- & Hi).
    apply In_fromTo in Hi. do 4 eexists. split; [reflexivity |].
    split; [exact Hpf |]. left. split; [reflexivity |]. right. left. auto.
  - apply in_map_iff in Hin. destruct Hin as (i & <- & Hi).
    apply In_fromTo in Hi. do 4 eexists. split; [reflexivity |].
    split; [exact Hpf |]. left. split; [reflexivity |]. right. right. left.
    auto.
  - apply in_map_iff in Hin. destruct Hin as (i & <- & Hi).
    apply In_fromTo in Hi. do 4 eexists. split; [reflexivity |].
    split; [exact Hpf |]. left. split; [reflexivity |]. do 3 right. auto.
  - destruct Hin as [<- | [<- | [<- | [<- | []]]]]; do 4 eexists;
      (split; [reflexivity |]); (split; [exact Hpf |]); right;
      (split; [reflexivity |]); tauto.
Qed.

Lemma stairwell_spec a :
  In a (stairwell width height floors) ->
  exists dx dy pf,
    a = (width / 2 + dx, height / 2 + dy, pf, STAIRS) /\
    0 <= pf < floors /\ 0 <= dx <= 1 /\ 0 <= dy <= 1 /\
    width / 2 + dx < width /\ height / 2 + dy < height.
Proof.
  unfold stairwell. rewrite in_flat_map.
  intros (pf & Hpf & Hin). apply CountFacts.In_range in Hpf.
  apply in_flat_map in Hin. destruct Hin as (dx & Hdx & Hin).
  apply CountFacts.In_range in Hdx.
  apply in_flat_map in Hin. destruct Hin as (dy & Hdy & Hin).
  apply CountFacts.In_range in Hdy.
  destruct (Z.ltb_spec (width / 2 + dx) width);
    destruct (Z.ltb_spec (height / 2 + dy) height); simpl in Hin;
    try contradiction.
  destruct Hin as [<- | []]. exists dx, dy, pf.
  split; [reflexivity |]. repeat split; lia.
Qed.

(** With one column and one row or more, every assignment before the exits
    is inside the arrays. *)
Lemma layout_inRange a :
  1 <= width -> 1 <= height ->
  In a (perimeterWalls width height floors
        ++ internalWalls width height floors
        ++ stairwell width height floors) ->
  inRange width height floors a.
Proof.
  intros Hw Hh Hin. apply in_app_iff in Hin. destruct Hin as [Hin | Hin].
  - apply perimeterWalls_spec in Hin.
    destruct Hin as (px & py & pf & -> & Hpf & Hcase). simpl. dlia.
  - apply in_app_iff in Hin. destruct Hin as [Hin | Hin].
    + apply internalWalls_spec in Hin.
      destruct Hin as (px & py & pf & v & -> & Hpf & Hcase). simpl. dlia.
    + apply stairwell_spec in Hin.
      destruct Hin as (dx & dy & pf & -> & Hpf & Hdx & Hdy & Hx & Hy).
      simpl. dlia.
Qed.

(** In a building of 5 by 5 or more, what is assigned to a border cell is
    Wall. *)
Lemma layout_border px py pf v :
  5 <= width -> 5 <= height ->
  In (px, py, pf, v)
     (perimeterWalls width height floors
      ++ internalWalls width height floors
      ++ stairwell width height floors ++ groundExits width height) ->
  onBorder width height px py -> v = WALL.
Proof.
  intros Hw Hh Hin Hb. unfold onBorder in Hb.
  apply in_app_iff in Hin. destruct Hin as [Hin | Hin].
  - apply perimeterWalls_spec in Hin.
    destruct Hin as (px' & py' & pf' & Heq & _). congruence.
  - apply in_app_iff in Hin. destruct Hin as [Hin | Hin].
    + apply internalWalls_spec in Hin.
      destruct Hin as (px' & py' & pf' & v' & Heq & _ & Hcase).
      injection Heq as -> -> -> ->.
      destruct Hcase as [[-> _] | [_ Hdoor]]; [reflexivity |].
      exfalso. dlia.
    + apply in_app_iff in Hin. destruct Hin as [Hin | Hin].
      * apply stairwell_spec in Hin.
        destruct Hin as (dx & dy & pf' & Heq & _ & Hdx & Hdy & _).
        injection Heq as -> -> -> ->. exfalso. dlia.
      * destruct Hin as [Heq | [Heq | []]]; injection Heq as <- <- <- <-;
          exfalso; dlia.
Qed.

End Generator.

(** What the generator returns when it has room for its exits. *)
Lemma generateBuildingLayout_spec width height floors :
  2 <= width -> 1 <= height -> 1 <= floors ->
  exists m,
    generateBuildingLayout width height floors = Ok m /\
    hasShape (Z.to_nat width) (Z.to_nat height) (Z.to_nat floors) m /\
    (forall p, kind m p <> Some FIRE) /\
    kind m (mkPosition 1 (height / 2) 0) = Some EXIT /\
    kind m (mkPosition (width - 2) (height / 2) 0) = Some EXIT.
Proof.
  intros Hw Hh Hf. unfold generateBuildingLayout.
  rewrite blankMap_ok by lia. cbn [bind].
  set (blank := repeat _ _).
  set (ws := perimeterWalls width height floors
             ++ internalWalls width height floors
             ++ stairwell width height floors ++ groundExits width height).
  assert (Hrange : forall a, In a ws ->
            inRange (Z.of_nat (Z.to_nat width)) (Z.of_nat (Z.to_nat height))
              (Z.of_nat (Z.to_nat floors)) a).
  { intros a Ha. rewrite !Z2Nat.id by lia. unfold ws in Ha.
    rewrite !app_assoc in Ha. apply in_app_iff in Ha.
    destruct Ha as [Ha | Ha].
    - rewrite <- !app_assoc in Ha. apply layout_inRange; [lia | lia |].
      exact Ha.
    - destruct Ha as [<- | [<- | []]]; simpl; dlia. }
  destruct (assigns_total _ _ _ ws blank (hasShape_blank _ _ _) Hrange)
    as (m & Hm & Hshape).
  exists m. split; [exact Hm |]. split; [exact Hshape |].
  split; [| split].
  - intros p Hk. destruct (assigns_cases ws blank m Hm p)
      as [Hsame | (v & Hin & Hv)].
    + rewrite Hsame in Hk. apply kind_blank in Hk. discriminate.
    + rewrite Hv in Hk. injection Hk as ->. unfold ws in Hin.
      apply in_app_iff in Hin. destruct Hin as [Hin | Hin].
      * apply perimeterWalls_spec in Hin.
        destruct Hin as (? & ? & ? & Heq & _). discriminate.
      * apply in_app_iff in Hin. destruct Hin as [Hin | Hin].
        -- apply internalWalls_spec in Hin.
           destruct Hin as (? & ? & ? & v & Heq & _ & [[-> _] | [-> _]]);
             discriminate.
        -- apply in_app_iff in Hin. destruct Hin as [Hin | Hin].
           ++ apply stairwell_spec in Hin.
              destruct Hin as (? & ? & ? & Heq & _). discriminate.
           ++ destruct Hin as [Heq | [Heq | []]]; discriminate.
  - unfold ws in Hm. rewrite !app_assoc in Hm. rewrite foldM_app in Hm.
    destruct (foldM assign _ blank) as [m1 | e | h]; try discriminate.
    cbn [bind groundExits foldM assign] in Hm.
    destruct (setCell m1 1 (height / 2) 0 EXIT) as [m2 | e | h] eqn:H2;
      try discriminate. cbn [bind] in Hm.
    destruct (setCell m2 (width - 2) (height / 2) 0 EXIT) as [m3 | e | h]
      eqn:H3; try discriminate. cbn [bind] in Hm. injection Hm as <-.
    rewrite (kind_setCell _ _ _ _ _ _ _ H3).
    destruct (positionsEqual _ _); [reflexivity |].
    rewrite (kind_setCell _ _ _ _ _ _ _ H2), positionsEqual_refl.
    reflexivity.
  - unfold ws in Hm. rewrite !app_assoc in Hm. rewrite foldM_app in Hm.
    destruct (foldM assign _ blank) as [m1 | e | h]; try discriminate.
    cbn [bind groundExits foldM assign] in Hm.
    destruct (setCell m1 1 (height / 2) 0 EXIT) as [m2 | e | h] eqn:H2;
      try discriminate. cbn [bind] in Hm.
    destruct (setCell m2 (width - 2) (height / 2) 0 EXIT) as [m3 | e | h]
      eqn:H3; try discriminate. cbn [bind] in Hm. injection Hm as <-.
    rewrite (kind_setCell _ _ _ _ _ _ _ H3), positionsEqual_refl.
    reflexivity.
Qed.



(** X17. A building of 5 by 5 cells or more is enclosed: on every floor,
    every cell of the border of the map the generator returns is a Wall (the
    doors, the stairs and the exits are assigned inside). *)
Theorem generateBuildingLayout_enclosed width height floors m p :
  5 <= width -> 5 <= height -> 1 <= floors ->
  generateBuildingLayout width height floors = Ok m ->
  inBounds m p -> onBorder width height (x p) (y p) ->
  kind m p = Some WALL.
Proof.
  intros Hw Hh Hf Hm Hin Hb.
  destruct (generateBuildingLayout_spec width height floors)
    as (m' & Hm' & Hshape & _); try lia.
  rewrite Hm in Hm'. injection Hm' as <-.
  destruct (hasShape_dimensions _ _ _ m Hshape) as (H1 & H2 & H3);
    [lia | lia |].
  rewrite !Z2Nat.id in H1, H2, H3 by lia.
  destruct Hin as (Hx & Hy & Hfl). rewrite H1 in Hx. rewrite H2 in Hy.
  rewrite H3 in Hfl.
  unfold generateBuildingLayout in Hm. rewrite blankMap_ok in Hm by lia.
  cbn [bind] in Hm.
  apply (assigns_forced _ p WALL _ _ Hm).
  - intros v' Hv'.
    apply (layout_border width height floors (x p) (y p) (floor p) v');
      assumption.
  - right. apply in_app_iff. left. apply perimeterWalls_spec.
    exists (x p), (y p), (floor p). split; [reflexivity |].
    split; [exact Hfl |]. unfold onBorder in Hb. dlia.
Qed.

Lemma generateBuildingLayout_enclosed_witness :
  exists m,
    generateBuildingLayout 5 5 1 = Ok m /\
    kind m (mkPosition 0 2 0) = Some WALL.
Proof.
  destruct (generateBuildingLayout 5 5 1) as [m | e | h] eqn:Hm;
    [| vm_compute in Hm; discriminate | vm_compute in Hm; discriminate].
  exists m. split; [reflexivity |].
  apply (generateBuildingLayout_enclosed 5 5 1 m (mkPosition 0 2 0));
    try lia; [exact Hm | | left; reflexivity].
  revert Hm. vm_compute. intros H. injection H as <-. vm_compute.
  intuition discriminate.
Defined.




End LayoutFacts.
